(** * gribdownloader: index parsing, range selection and range transfer

    A shallow embedding of [gribdownloader.go].  Go's [int] and [int64] are
    integers of [Z] with the 64-bit two's-complement wrap-around written
    out; [map[string][]string] is a [gmap string (list string)]; slices are
    lists; the file system is a [gmap] from paths to byte contents; the
    goroutines of [downloadRanges] are run under an explicit schedule. *)

From Stdlib Require Import ZArith Lia Ascii String List.
From stdpp Require Import base option list gmap strings.

Open Scope Z_scope.

(* ===================================================================== *)
(** * Definitions *)
(* ===================================================================== *)

(** ** Go's int64 arithmetic *)

Module Int64.

Definition modulus : Z := 2 ^ 64.
Definition min_int : Z := - 2 ^ 63.
Definition max_int : Z := 2 ^ 63 - 1.

(** The value an int64 variable holds after an operation whose
    mathematical result is [z]. *)
Definition wrap (z : Z) : Z := (z - min_int) mod modulus + min_int.

Definition add (a b : Z) : Z := wrap (a + b).
Definition sub (a b : Z) : Z := wrap (a - b).

Definition in_range (z : Z) : Prop := min_int <= z <= max_int.

End Int64.

(** ** Data model *)

(** [type GFSParameter struct]; the fields [Parameter] and [Type] and the
    field [End] of [RangeDownload] carry a trailing underscore, their names
    being reserved words here. *)
Record GFSParameter : Type := mkGFSParameter {
  Number : Z;
  Offset : Z;
  Date : string;
  Parameter_ : string;
  Level : string;
  Type_ : string
}.

(** [type RangeDownload struct]. *)
Record RangeDownload : Type := mkRange {
  Start : Z;
  End_ : Z
}.

(** [Config.Parameters], a [map[string][]string]. *)
Abbreviation Request := (gmap string (list string)).

(** Go [error] values.  Every [fmt.Errorf] call site of the program has a
    constructor that keeps the values it formats. *)
#[warnings="-register-all"]
Inductive error : Type :=
| EOs (msg : string)
| EWrap (ctx : string) (cause : error)
| EStatus (code : Z)
| ERange (start end_ : Z) (cause : error)
| EMany (count : nat) (errs : list error).

(** ** parseIDXFile *)

(** [strings.Split(s, sep)] for a one-byte separator: the fields between
    the separators, one more than there are separators. *)
Fixpoint Split (sep : ascii) (s : string) : list string :=
  match s with
  | EmptyString => [EmptyString]
  | String c rest =>
      let fields := Split sep rest in
      if Ascii.eqb c sep then EmptyString :: fields
      else String c (hd EmptyString fields) :: tl fields
  end.

(** The value of a decimal digit, as [strconv] reads it. *)
Definition digit_value (c : ascii) : option Z :=
  let n := Z.of_N (N_of_ascii c) in
  if (48 <=? n) && (n <=? 57) then Some (n - 48) else None.

Fixpoint parse_digits (s : string) (acc : Z) : option Z :=
  match s with
  | EmptyString => Some acc
  | String c rest =>
      match digit_value c with
      | Some d => parse_digits rest (acc * 10 + d)
      | None => None
      end
  end.

(** [strconv.ParseInt(s, 10, 64)]: an optional sign, then one decimal digit
    or more, and a value that an int64 holds; [None] stands for the syntax
    and the range error alike. *)
Definition ParseInt (s : string) : option Z :=
  match s with
  | EmptyString => None
  | String c rest =>
      let neg := Ascii.eqb c "-" in
      let body := if Ascii.eqb c "+" || neg then rest else s in
      match body with
      | EmptyString => None
      | String _ _ =>
          match parse_digits body 0 with
          | None => None
          | Some n =>
              let v := if neg then - n else n in
              if (Int64.min_int <=? v) && (v <=? Int64.max_int) then Some v
              else None
          end
      end
  end.

(** [strconv.Atoi], with Go's [int] 64 bits wide. *)
Definition Atoi (s : string) : option Z := ParseInt s.

(** [strings.TrimPrefix(s, prefix)]. *)
Definition TrimPrefix (s pre : string) : string :=
  if String.prefix pre s
  then String.substring (String.length pre)
         (String.length s - String.length pre) s
  else s.

(** [parts[i]], read only after the check of [len(parts)]. *)
Definition part (parts : list string) (i : nat) : string :=
  default EmptyString (parts !! i).

(** One iteration of [for scanner.Scan()]: each [continue] leaves
    [parameters] as it is. *)
Definition parse_step (parameters : list GFSParameter) (line : string)
    : list GFSParameter :=
  let parts := Split ":" line in
  if (Z.of_nat (length parts) <? 6) then parameters
  else
    match Atoi (part parts 0) with
    | None => parameters
    | Some number =>
        match ParseInt (part parts 1) with
        | None => parameters
        | Some offset =>
            parameters ++
              [ {| Number := number;
                   Offset := offset;
                   Date := TrimPrefix (part parts 2) "d=";
                   Parameter_ := part parts 3;
                   Level := part parts 4;
                   Type_ := part parts 5 |} ]
        end
    end.

(** What [os.Open] and the [bufio.Scanner] give for a path: the open fails,
    or the scanner delivers [lines] one by one and then reports [scan_err]. *)
Inductive idx_source : Type :=
| OpenFails (e : error)
| Scanned (lines : list string) (scan_err : option error).

Definition parseIDXFile (open : string -> idx_source) (idxPath : string)
    : list GFSParameter * option error :=
  match open idxPath with
  | OpenFails e => ([], Some (EWrap "error opening idx file" e))
  | Scanned lines scan_err =>
      let parameters := fold_left parse_step lines [] in
      match scan_err with
      | Some e => ([], Some (EWrap "error reading idx file" e))
      | None => (parameters, None)
      end
  end.

(** ** generateRanges *)

(** The inner loop over [levels], with its [break]. *)
Fixpoint level_in (levels : list string) (lvl : string) : bool :=
  match levels with
  | [] => false
  | level :: rest => if String.eqb level lvl then true else level_in rest lvl
  end.

(** [levelRequested] after the [if len(levels) == 0 ... else ...]. *)
Definition levelRequested (levels : list string) (lvl : string) : bool :=
  if (Z.of_nat (length levels) =? 0) then true else level_in levels lvl.

Definition MiB : Z := 1024 * 1024.

(** [endOffset] for the entry [param] at index [i].  The read of
    [parameters[i+1]] is guarded by [i < len(parameters)-1], so the [None]
    branch of the lookup is never taken (lemma [endOffset_next]). *)
Definition endOffset (parameters : list GFSParameter) (i : nat)
    (param : GFSParameter) : Z :=
  if (Z.of_nat i <? Z.of_nat (length parameters) - 1) then
    match parameters !! (i + 1)%nat with
    | Some next => Int64.sub (Offset next) 1
    | None => 0
    end
  else Int64.add (Offset param) MiB.

(** One iteration of [for i, param := range parameters]: the two
    [continue]s leave [ranges] as it is, otherwise a range is appended. *)
Definition select_step (parameters : list GFSParameter) (requestedParams : Request)
    (ranges : list RangeDownload) (i : nat) (param : GFSParameter)
    : list RangeDownload :=
  match requestedParams !! Parameter_ param with
  | None => ranges
  | Some levels =>
      if levelRequested levels (Level param) then
        ranges ++ [ {| Start := Offset param;
                       End_ := endOffset parameters i param |} ]
      else ranges
  end.

(** The selection loop, from index [i] on; [rest] is [parameters[i:]]. *)
Fixpoint select_loop (parameters : list GFSParameter) (requestedParams : Request)
    (i : nat) (rest : list GFSParameter) (ranges : list RangeDownload)
    : list RangeDownload :=
  match rest with
  | [] => ranges
  | param :: rest' =>
      select_loop parameters requestedParams (S i) rest'
        (select_step parameters requestedParams ranges i param)
  end.

(** The ranges before merging. *)
Definition provisional (parameters : list GFSParameter) (requestedParams : Request)
    : list RangeDownload :=
  select_loop parameters requestedParams 0 parameters [].

(** One iteration of the merge loop.  [last] points into [merged], so the
    assignment to [last.End] updates the slice in place. *)
Definition merge_step (merged : list RangeDownload) (current : RangeDownload)
    : list RangeDownload :=
  let k := (length merged - 1)%nat in
  match merged !! k with
  | Some last =>
      if (Start current <=? Int64.add (End_ last) 1) then
        if (End_ current >? End_ last) then
          <[ k := {| Start := Start last; End_ := End_ current |} ]> merged
        else merged
      else merged ++ [current]
  | None => merged
  end.

(** [if len(ranges) > 1 { ... ranges = merged }]. *)
Definition merge (ranges : list RangeDownload) : list RangeDownload :=
  if (1 <? Z.of_nat (length ranges)) then
    match ranges with
    | r0 :: rest => fold_left merge_step rest [r0]
    | [] => ranges
    end
  else ranges.

(** [generateRanges]: the ranges and the error, which is always [nil]. *)
Definition generateRanges (parameters : list GFSParameter) (requestedParams : Request)
    : list RangeDownload * option error :=
  (merge (provisional parameters requestedParams), None).

(** [totalSize] as [main] accumulates it over the ranges. *)
Definition range_size (r : RangeDownload) : Z :=
  Int64.add (Int64.sub (End_ r) (Start r)) 1.

Definition totalSize (ranges : list RangeDownload) : Z :=
  fold_left (fun acc r => Int64.add acc (range_size r)) ranges 0.

(** ** Index lines, as the specification words them *)

Definition is_digit (c : ascii) : bool :=
  let n := Z.of_N (N_of_ascii c) in (48 <=? n) && (n <=? 57).

Fixpoint all_digits (s : string) : bool :=
  match s with
  | EmptyString => true
  | String c rest => is_digit c && all_digits rest
  end.

(** The number a string of decimal digits writes, digit by position. *)
Fixpoint decimal_value (s : string) : Z :=
  match s with
  | EmptyString => 0
  | String c rest =>
      (Z.of_N (N_of_ascii c) - 48) * 10 ^ Z.of_nat (String.length rest)
      + decimal_value rest
  end.

Definition is_negative (s : string) : bool :=
  match s with
  | String c _ => Ascii.eqb c "-"
  | EmptyString => false
  end.

(** The string without its sign, if it has one. *)
Definition unsigned_part (s : string) : string :=
  match s with
  | String c rest => if Ascii.eqb c "+" || Ascii.eqb c "-" then rest else s
  | EmptyString => EmptyString
  end.

Definition integer_value (s : string) : Z :=
  if is_negative s then - decimal_value (unsigned_part s)
  else decimal_value (unsigned_part s).

(** A valid integer: an optional sign, one decimal digit or more, and a
    value that fits the 64 bits of the field it is read into. *)
Definition valid_integer (s : string) : Prop :=
  unsigned_part s <> EmptyString /\
  all_digits (unsigned_part s) = true /\
  Int64.in_range (integer_value s).

#[global] Instance valid_integer_dec s : Decision (valid_integer s).
Proof. unfold valid_integer, Int64.in_range. apply _. Defined.

(** The occurrences of [sep] in [s]. *)
Fixpoint count_sep (sep : ascii) (s : string) : nat :=
  match s with
  | EmptyString => 0
  | String c rest => (if Ascii.eqb c sep then 1 else 0) + count_sep sep rest
  end.

(** The fields put together again, [sep] between them. *)
Fixpoint join (sep : ascii) (fields : list string) : string :=
  match fields with
  | [] => EmptyString
  | [f] => f
  | f :: rest => f ++ String sep (join sep rest)
  end.

(** A line that gives an entry: six colon-separated fields or more, the
    first and the second of them valid integers. *)
Definition well_formed (line : string) : Prop :=
  (6 <= length (Split ":" line))%nat /\
  valid_integer (part (Split ":" line) 0) /\
  valid_integer (part (Split ":" line) 1).

#[global] Instance well_formed_dec line : Decision (well_formed line).
Proof. unfold well_formed. apply _. Defined.

(** The entry of a well-formed line. *)
Definition entry_of_line (line : string) : GFSParameter :=
  let parts := Split ":" line in
  {| Number := integer_value (part parts 0);
     Offset := integer_value (part parts 1);
     Date := TrimPrefix (part parts 2) "d=";
     Parameter_ := part parts 3;
     Level := part parts 4;
     Type_ := part parts 5 |}.

(** ** The selection and the ranges, as the specification words them *)

(** [R] holds of every two neighbours of the list. *)
Fixpoint consecutive {A : Type} (R : A -> A -> Prop) (l : list A) : Prop :=
  match l with
  | a :: (b :: _) as t => R a b /\ consecutive R t
  | _ => True
  end.

(** An entry is included when its parameter name is a key of the request
    and the level list of that key is empty or has the entry's level. *)
Definition included (requestedParams : Request) (e : GFSParameter) : Prop :=
  match requestedParams !! Parameter_ e with
  | Some levels => levels = [] \/ Level e ∈ levels
  | None => False
  end.

#[global] Instance included_dec requestedParams e :
  Decision (included requestedParams e).
Proof. unfold included. destruct (requestedParams !! Parameter_ e); apply _. Defined.

(** The provisional range of the entry [e] at position [i]: up to the byte
    before the next entry when there is one, one MiB long past the start
    otherwise; the arithmetic is that of int64. *)
Definition entry_range (entries : list GFSParameter) (i : nat) (e : GFSParameter)
    : RangeDownload :=
  {| Start := Offset e;
     End_ := match entries !! S i with
             | Some next => Int64.sub (Offset next) 1
             | None => Int64.add (Offset e) 1048576
             end |}.

(** The provisional range of an entry, when the entry is included. *)
Definition select_entry (entries : list GFSParameter) (requestedParams : Request)
    (ie : nat * GFSParameter) : option RangeDownload :=
  if decide (included requestedParams ie.2)
  then Some (entry_range entries ie.1 ie.2)
  else None.

(** The byte offset [x] lies in the range [r]. *)
Definition covers (r : RangeDownload) (x : Z) : Prop :=
  Start r <= x <= End_ r.

(** The index invariant: offsets are non-negative int64 values that do not
    decrease along the sequence. *)
Definition nonneg_offsets (entries : list GFSParameter) : Prop :=
  Forall (fun e => 0 <= Offset e <= Int64.max_int) entries.

Definition nondecreasing_offsets (entries : list GFSParameter) : Prop :=
  consecutive (fun a b => Offset a <= Offset b) entries.

Definition increasing_offsets (entries : list GFSParameter) : Prop :=
  consecutive (fun a b => Offset a < Offset b) entries.

(** A range that is not empty and starts at a non-negative offset. *)
Definition proper (r : RangeDownload) : Prop :=
  Start r <= End_ r /\ 0 <= Start r.

(** ** Shapes of range lists *)

(** The test of the merge loop fails between [a] and [b]. *)
Definition apart (a b : RangeDownload) : Prop :=
  Int64.add (End_ a) 1 < Start b.

(** [b] starts after [a] does and leaves at least one byte free after the
    end of [a]. *)
Definition separated (a b : RangeDownload) : Prop :=
  Start a < Start b /\ End_ a + 1 < Start b.

(** What the merge loop needs of a range [a] that another range [b]
    follows: [b] does not start before [a], and [a] is an int64 range that
    is at worst empty and ends below the largest int64. *)
Definition feeds (a b : RangeDownload) : Prop :=
  Start a <= Start b /\ Int64.min_int <= Start a /\
  Start a - 1 <= End_ a < Int64.max_int.

(** The ranges that take the place of the last merged range [last] when the
    loop meets [current]. *)
Definition merge_last (last current : RangeDownload) : list RangeDownload :=
  if (Start current <=? Int64.add (End_ last) 1) then
    if (End_ current >? End_ last)
    then [ {| Start := Start last; End_ := End_ current |} ]
    else [last]
  else [last; current].

(** ** The destination file, downloadRange and downloadRanges *)

Abbreviation byte := Byte.byte.
Abbreviation Files := (gmap string (list byte)).

(** The calls of [downloadRanges] that leave the process, in the order
    they are made. *)
Inductive event : Type :=
| EvCreate (path : string)
| EvTruncate (path : string) (size : Z)
| EvRequest (r : RangeDownload)
| EvWrite (path : string) (pos : Z) (data : list byte).

Record Sys : Type := mkSys {
  files : Files;
  log : list event
}.

Definition emit (ev : event) (s : Sys) : Sys :=
  {| files := files s; log := log s ++ [ev] |}.

Definition set_file (path : string) (content : list byte) (s : Sys) : Sys :=
  {| files := <[ path := content ]> (files s); log := log s |}.

(** A positioned write of [data] at [pos]: bytes from [pos] on are
    replaced, a hole before [pos] reads as zeros, and writing nothing
    changes nothing. *)
Definition write_at (content : list byte) (pos : nat) (data : list byte)
    : list byte :=
  match data with
  | [] => content
  | _ :: _ =>
      take pos content ++ replicate (pos - length content)%nat Byte.x00
        ++ data ++ drop (pos + length data)%nat content
  end.

Record Response : Type := mkResponse {
  StatusCode : Z;
  Body : list byte
}.

(** What the network and the operating system answer to the calls of one
    [downloadRange]. *)
Record FetchEnv : Type := mkFetchEnv {
  new_request_err : option error;
  do_result : error + Response;
  open_err : option error;
  seek_err : option error;
  copy_err : option (nat * error)
}.

Definition StatusPartialContent : Z := 206.

(** [downloadRange], from [mutex.Lock()] on: open, seek, copy. *)
Definition write_range (env : FetchEnv) (rangeSpec : RangeDownload)
    (outputFile : string) (resp : Response) (s : Sys) : Sys * option error :=
  match open_err env, files s !! outputFile with
  | Some e, _ => (s, Some (EWrap "error opening output file" e))
  | None, None =>
      (s, Some (EWrap "error opening output file" (EOs "no such file or directory")))
  | None, Some content =>
      match (if Start rangeSpec <? 0 then Some (EOs "invalid argument")
             else seek_err env) with
      | Some e => (s, Some (EWrap "error seeking in file" e))
      | None =>
          let pos := Z.to_nat (Start rangeSpec) in
          let put data :=
            emit (EvWrite outputFile (Start rangeSpec) data)
              (set_file outputFile (write_at content pos data) s) in
          match copy_err env with
          | Some (n, e) =>
              (put (take n (Body resp)), Some (EWrap "error copying data" e))
          | None => (put (Body resp), None)
          end
      end
  end.

Definition downloadRange (env : FetchEnv) (rangeSpec : RangeDownload)
    (outputFile : string) (s : Sys) : Sys * option error :=
  match new_request_err env with
  | Some e => (s, Some (EWrap "error creating request" e))
  | None =>
      let s := emit (EvRequest rangeSpec) s in
      match do_result env with
      | inl e => (s, Some (EWrap "error making request" e))
      | inr resp =>
          if negb (StatusCode resp =? StatusPartialContent)
          then (s, Some (EStatus (StatusCode resp)))
          else write_range env rangeSpec outputFile resp s
      end
  end.

(** What surrounds one run of [downloadRanges]: the answers of the
    operating system to the create and the truncate, the answers to the
    calls of the goroutine of each range (by the index of the range), the
    order in which the goroutines run their [downloadRange] (the mutex
    makes the file operations of one goroutine one step), and the order in
    which they reach the send on the [errors] channel. *)
Record World : Type := mkWorld {
  create_err : option error;
  truncate_err : option error;
  fetch_env : nat -> FetchEnv;
  run_order : list nat;
  send_order : list nat
}.

(** [for _, r := range ranges { if r.End > maxEnd { maxEnd = r.End } }]. *)
Definition maxEnd_step (maxEnd : Z) (r : RangeDownload) : Z :=
  if (End_ r >? maxEnd) then End_ r else maxEnd.

Definition maxEnd (ranges : list RangeDownload) : Z :=
  fold_left maxEnd_step ranges 0.

(** The outcome of each goroutine that has run: [Some None] for a
    [downloadRange] that returned [nil]. *)
Abbreviation Outcomes := (gmap nat (option error)).

(** The goroutine of [ranges[i]] runs its [downloadRange]. *)
Definition run_task (w : World) (ranges : list RangeDownload)
    (outputFile : string) (st : Sys * Outcomes) (i : nat) : Sys * Outcomes :=
  match ranges !! i with
  | None => st
  | Some r =>
      let '(s, res) := downloadRange (fetch_env w i) r outputFile st.1 in
      (s, <[ i := res ]> st.2)
  end.

(** The goroutine of [ranges[i]] reaches [errors <- ...], if it failed. *)
Definition sent (ranges : list RangeDownload) (outcomes : Outcomes) (i : nat)
    : option error :=
  match ranges !! i, outcomes !! i with
  | Some r, Some (Some e) => Some (ERange (Start r) (End_ r) e)
  | _, _ => None
  end.

(** [if len(errorsList) > 0 { return fmt.Errorf(...) }; return nil]. *)
Definition report (errorsList : list error) : option error :=
  if (Z.of_nat (length errorsList) >? 0)
  then Some (EMany (length errorsList) errorsList)
  else None.

(** [downloadRanges], from [var wg sync.WaitGroup] on: every goroutine
    runs, [wg.Wait()] returns, and the channel is drained. *)
Definition fetch_all (w : World) (ranges : list RangeDownload)
    (outputFile : string) (s : Sys) : Sys * Outcomes * option error :=
  let '(s, outcomes) :=
    fold_left (run_task w ranges outputFile) (run_order w) (s, ∅) in
  let errorsList := omap (sent ranges outcomes) (send_order w) in
  (s, outcomes, report errorsList).

(** The create and the pre-allocation at the head of [downloadRanges]. *)
Definition preallocate (w : World) (ranges : list RangeDownload)
    (outputFile : string) (s : Sys) : Sys * option error :=
  let s := emit (EvCreate outputFile) s in
  match create_err w with
  | Some e => (s, Some (EWrap "error creating output file" e))
  | None =>
      let s := set_file outputFile [] s in
      let size := Int64.add (maxEnd ranges) 1 in
      let s := emit (EvTruncate outputFile size) s in
      match (if size <? 0 then Some (EOs "invalid argument")
             else truncate_err w) with
      | Some e => (s, Some (EWrap "error pre-allocating file" e))
      | None =>
          (set_file outputFile (replicate (Z.to_nat size) Byte.x00) s, None)
      end
  end.

Definition downloadRanges (w : World) (url : string)
    (ranges : list RangeDownload) (outputFile : string) (s : Sys)
    : Sys * option error :=
  match preallocate w ranges outputFile s with
  | (s, Some e) => (s, Some e)
  | (s, None) =>
      let '(s, _, result) := fetch_all w ranges outputFile s in (s, result)
  end.

(** ** What a run leaves behind, as the specification words it *)

(** The events of the fetch phase. *)
Definition is_fetch_event (ev : event) : Prop :=
  match ev with
  | EvRequest _ | EvWrite _ _ _ => True
  | EvCreate _ | EvTruncate _ _ => False
  end.

(** The bytes [data] stand in [content] from position [pos] on. *)
Definition holds_at (content : list byte) (pos : nat) (data : list byte) : Prop :=
  forall k b, data !! k = Some b -> content !! (pos + k)%nat = Some b.


(** The bytes that the goroutine of another range may write lie off the
    bytes of the response to the range [r] at index [i]. *)
Definition writes_apart (w : World) (ranges : list RangeDownload) (i : nat)
    (r : RangeDownload) (resp : Response) : Prop :=
  forall j rj respj, j <> i -> ranges !! j = Some rj ->
    do_result (fetch_env w j) = inr respj ->
    Start rj + Z.of_nat (length (Body respj)) <= Start r \/
    Start r + Z.of_nat (length (Body resp)) <= Start rj.

(** ** main, from the parsed configuration on *)

Record Config : Type := mkConfig {
  IdxURL : string;
  Parameters : Request
}.

(** [strings.TrimSuffix(s, suffix)]. *)
Definition TrimSuffix (s suf : string) : string :=
  let n := String.length s in
  let k := String.length suf in
  if (k <=? n)%nat && String.eqb (String.substring (n - k) k s) suf
  then String.substring 0 (n - k) s
  else s.

(** What the network and the operating system answer to the calls of
    [downloadFile]. *)
Record GetEnv : Type := mkGetEnv {
  get_result : error + Response;
  file_create_err : option error;
  file_copy_err : option (nat * error)
}.

Definition StatusOK : Z := 200.

(** [downloadFile]: the body of the response becomes the content of
    [localPath]. *)
Definition downloadFile (env : GetEnv) (url localPath : string) (s : Sys)
    : Sys * option error :=
  match get_result env with
  | inl e => (s, Some (EWrap "error downloading file" e))
  | inr resp =>
      if negb (StatusCode resp =? StatusOK)
      then (s, Some (EStatus (StatusCode resp)))
      else
        match file_create_err env with
        | Some e => (s, Some (EWrap "error creating file" e))
        | None =>
            match file_copy_err env with
            | Some (n, e) =>
                (set_file localPath (take n (Body resp)) s,
                 Some (EWrap "error saving file" e))
            | None => (set_file localPath (Body resp) s, None)
            end
        end
  end.

(** What [main] meets: the name [filepath.Base] gives for the index URL,
    the answers to the download of the index, what opening a path and
    scanning it gives, and the world of [downloadRanges]. *)
Record MainEnv : Type := mkMainEnv {
  base_name : string;
  idx_get : GetEnv;
  idx_open : string -> idx_source;
  world : World
}.

(** How [main] ends; the printed lines follow from it. *)
Inductive outcome : Type :=
| IdxDownloadError (e : error)
| IdxParseError (e : error)
| GenerateError (e : error)
| DownloadError (ranges : list RangeDownload) (total : Z) (e : error)
| Completed (ranges : list RangeDownload) (total : Z).

Definition main (env : MainEnv) (config : Config) (s : Sys) : Sys * outcome :=
  let idxFileName := base_name env in
  let gribFileName := TrimSuffix idxFileName ".idx" in
  let gribFileURL := TrimSuffix (IdxURL config) ".idx" in
  match downloadFile (idx_get env) (IdxURL config) idxFileName s with
  | (s, Some e) => (s, IdxDownloadError e)
  | (s, None) =>
      match parseIDXFile (idx_open env) idxFileName with
      | (_, Some e) => (s, IdxParseError e)
      | (parameters, None) =>
          match generateRanges parameters (Parameters config) with
          | (_, Some e) => (s, GenerateError e)
          | (ranges, None) =>
              let total := totalSize ranges in
              match downloadRanges (world env) gribFileURL ranges gribFileName s with
              | (s, Some e) => (s, DownloadError ranges total e)
              | (s, None) => (s, Completed ranges total)
              end
          end
      end
  end.

(** ** Sample inputs *)

Definition entry (offset : Z) (parameter level : string) : GFSParameter :=
  {| Number := 0; Offset := offset; Date := ""; Parameter_ := parameter;
     Level := level; Type_ := "" |}.

(** The index and the request of the scenario of the specification. *)
Definition scenario_entries : list GFSParameter :=
  [ entry 0 "A" "sfc"; entry 1000 "B" "sfc"; entry 2500 "A" "850mb" ].

Definition all_levels_of_A : Request := {[ "A"%string := [] ]}.

(** Two entries at one offset. *)
Definition twin_entries : list GFSParameter :=
  [ entry 5 "A" "sfc"; entry 5 "B" "sfc" ].

(** Offsets out of order. *)
Definition unordered_entries : list GFSParameter :=
  [ entry 100 "A" "sfc"; entry 0 "B" "sfc"; entry 50 "A" "sfc" ].

Definition unordered_all_A : list GFSParameter :=
  [ entry 100 "A" "sfc"; entry 0 "A" "sfc"; entry 50 "A" "sfc" ].

(** Offsets in order that start at the least int64. *)
Definition lowest_entries : list GFSParameter :=
  [ entry Int64.min_int "A" "sfc"; entry Int64.min_int "B" "sfc";
    entry 5 "A" "sfc" ].

(** An index of four lines: a good one, one of five fields, one whose
    number is not an integer, and a good one with a field to spare. *)
Definition sample_lines : list string :=
  [ "1:0:d=2024010100:TMP:2 m above ground:anl:";
    "2:100:d=2024010100:UGRD:anl";
    "3.1:200:d=2024010100:UGRD:10 m above ground:anl:";
    "4:+300:2024010100:VGRD:10 m above ground:anl:x:y" ]%string.

(** Three ranges; the second is refused with status 404, the goroutines
    run in the order 2, 0, 1 and send in the order 1, 2, 0. *)
Definition three_ranges : list RangeDownload :=
  [ mkRange 0 1; mkRange 4 5; mkRange 8 9 ].

Definition answer (status : Z) (body : list byte) : FetchEnv :=
  {| new_request_err := None;
     do_result := inr {| StatusCode := status; Body := body |};
     open_err := None; seek_err := None; copy_err := None |}.

Definition one_refused : World :=
  {| create_err := None;
     truncate_err := None;
     fetch_env := fun i =>
       match i with
       | 0%nat => answer 206 [Byte.x41; Byte.x42]
       | 1%nat => answer 404 []
       | _ => answer 206 [Byte.x43; Byte.x44]
       end;
     run_order := [2; 0; 1]%nat;
     send_order := [1; 2; 0]%nat |}.

Definition no_files : Sys := {| files := ∅; log := [] |}.

(** A world without ranges to fetch in which every call succeeds. *)
Definition quiet : World :=
  {| create_err := None; truncate_err := None;
     fetch_env := fun _ => answer 206 [];
     run_order := []; send_order := [] |}.

(** Two entries at offset 0. *)
Definition twin_zero_entries : list GFSParameter :=
  [ entry 0 "A" "sfc"; entry 0 "B" "sfc" ].

(** A run of main in which every call succeeds and the index is the
    sample index. *)
Definition sample_env : MainEnv :=
  {| base_name := "gfs.t00z.pgrb2.0p25.f000.idx";
     idx_get := {| get_result := inr {| StatusCode := 200; Body := [] |};
                  file_create_err := None; file_copy_err := None |};
     idx_open := fun _ => Scanned sample_lines None;
     world := quiet |}.

(** A request none of whose parameter and level pairs is in the scenario
    index. *)
Definition unmatched_request : Request :=
  {[ "A"%string := ["1000mb"%string]; "C"%string := [] ]}.

Definition sample_config : Config :=
  {| IdxURL := "https://host/gfs.t00z.pgrb2.0p25.f000.idx";
     Parameters := unmatched_request |}.

(** ** Further notions for the range selector *)

(** [b] starts at the byte after the end of [a] and does not end before
    [a]; [a] ends below the largest int64. *)
Definition chained (a b : RangeDownload) : Prop :=
  Start b = End_ a + 1 /\ End_ a <= End_ b /\
  Int64.min_int <= End_ a + 1 /\ End_ a < Int64.max_int.

(** The sum of the lengths of the ranges, in the integers. *)
Definition sum_sizes (ranges : list RangeDownload) : Z :=
  foldr (fun r acc => (End_ r - Start r + 1) + acc) 0 ranges.

(** A request that asks for every level of A and of B. *)
Definition all_levels_of_A_and_B : Request :=
  {[ "A"%string := []; "B"%string := [] ]}.

(** A request for every level of B alone. *)
Definition all_levels_of_B : Request := {[ "B"%string := [] ]}.

(** ** Decimal output and the lines of an index *)

(** The character of a decimal digit. *)
Definition digit_char (d : Z) : ascii := ascii_of_N (Z.to_N (48 + d)).

(** The decimal digits of [n] put before [acc], the last digit first in
    the loop; [fuel] bounds the number of digits. *)
Fixpoint digits (fuel : nat) (n : Z) (acc : string) : string :=
  match fuel with
  | O => acc
  | S fuel' =>
      let acc' := String (digit_char (n mod 10)) acc in
      if n <? 10 then acc' else digits fuel' (n / 10) acc'
  end.

(** The [%d] of [fmt] for an int64: no leading zeros, a minus sign for a
    negative number.  An int64 has at most 19 digits. *)
Definition format_int (z : Z) : string :=
  if z <? 0 then String "-" (digits 20 (- z) EmptyString)
  else digits 20 z EmptyString.

(** [fmt.Sprintf("bytes=%d-%d", rangeSpec.Start, rangeSpec.End)], the value
    [downloadRange] gives the Range header. *)
Definition rangeHeader (rangeSpec : RangeDownload) : string :=
  String.append "bytes="
    (String.append (format_int (Start rangeSpec))
       (String "-" (format_int (End_ rangeSpec)))).

(** The line of the index format for the entry [e], with the fields
    [extra] after the six that count. *)
Definition index_line (e : GFSParameter) (extra : list string) : string :=
  join ":"
    (format_int (Number e) :: format_int (Offset e)
     :: String.append "d=" (Date e) :: Parameter_ e :: Level e :: Type_ e
     :: extra).

(** No colon in the text fields of the entry nor in the extra fields, and
    numbers that are int64 values. *)
Definition writable (rec : GFSParameter * list string) : Prop :=
  Int64.in_range (Number rec.1) /\ Int64.in_range (Offset rec.1) /\
  Forall (fun f => count_sep ":" f = 0%nat)
    (Date rec.1 :: Parameter_ rec.1 :: Level rec.1 :: Type_ rec.1 :: rec.2).

(** Two records, the second with the empty field that the colon at the
    end of a line makes. *)
Definition sample_records : list (GFSParameter * list string) :=
  [ (mkGFSParameter 1 0 "2024010100" "PRMSL" "mean sea level" "anl", []);
    (mkGFSParameter 2 (-7) "2024010100" "TMP" "2 m above ground" "anl",
     [EmptyString]) ].

(** ** Further notions for the transfer *)

(** The events [downloadRanges] may add for the plan [ranges] and the
    destination [outputFile]: the create and the truncation of the
    destination, a request for a range of the plan, a write into the
    destination at the start of a range of the plan. *)
Definition plan_event (ranges : list RangeDownload) (outputFile : string)
    (ev : event) : Prop :=
  match ev with
  | EvCreate path => path = outputFile
  | EvTruncate path _ => path = outputFile
  | EvRequest r => r ∈ ranges
  | EvWrite path pos _ =>
      path = outputFile /\ exists r, r ∈ ranges /\ pos = Start r /\ 0 <= pos
  end.

(** Every response is no longer than the range it answers. *)
Definition bodies_fit (w : World) (ranges : list RangeDownload) : Prop :=
  forall i r resp, ranges !! i = Some r ->
    do_result (fetch_env w i) = inr resp ->
    Z.of_nat (length (Body resp)) <= End_ r - Start r + 1.

(** The position [p] is off the bytes any goroutine may write. *)
Definition untouched (w : World) (ranges : list RangeDownload) (p : nat) : Prop :=
  forall i r resp, ranges !! i = Some r ->
    do_result (fetch_env w i) = inr resp ->
    Z.of_nat p < Start r \/ Start r + Z.of_nat (length (Body resp)) <= Z.of_nat p.

(** A store with a file that the transfer does not concern. *)
Definition other_file : Sys :=
  {| files := {[ "notes.txt"%string := [Byte.x68; Byte.x69] ]}; log := [] |}.

(** ** Notions for the independence of the schedule *)

(** The same files and the same outcomes; the logs may differ. *)
Definition same_store (st st' : Sys * Outcomes) : Prop :=
  files st.1 = files st'.1 /\ st.2 = st'.2.

(** No two goroutines may write the same byte. *)
Definition all_writes_apart (w : World) (ranges : list RangeDownload) : Prop :=
  forall i r resp, ranges !! i = Some r ->
    do_result (fetch_env w i) = inr resp -> writes_apart w ranges i r resp.

(** The world [w] with the goroutines scheduled otherwise. *)
Definition rescheduled (w : World) (run send : list nat) : World :=
  {| create_err := create_err w;
     truncate_err := truncate_err w;
     fetch_env := fetch_env w;
     run_order := run;
     send_order := send |}.

(** Two results of [downloadRanges] that differ at most in the order in
    which the failed ranges are listed. *)
Definition same_report (x y : option error) : Prop :=
  x = y \/
  exists n errs errs',
    x = Some (EMany n errs) /\ y = Some (EMany n errs') /\ errs ≡ₚ errs'.

(** What one [downloadRange] writes, and where, when the destination
    exists: nothing unless it gets as far as the copy. *)
Definition write_of (env : FetchEnv) (r : RangeDownload)
    : option (nat * list byte) :=
  match new_request_err env, do_result env with
  | None, inr resp =>
      if negb (StatusCode resp =? StatusPartialContent) then None
      else
        match open_err env,
              (if Start r <? 0 then Some (EOs "invalid argument")
               else seek_err env) with
        | None, None =>
            Some (Z.to_nat (Start r),
                  match copy_err env with
                  | Some (n, _) => take n (Body resp)
                  | None => Body resp
                  end)
        | _, _ => None
        end
  | _, _ => None
  end.

(** The sample world with the goroutines in the order of the plan. *)
Definition in_plan_order : list nat := [0; 1; 2]%nat.

(** A run of main whose index has no [.idx] at the end of its name. *)
Definition bare_env : MainEnv :=
  {| base_name := "inventory";
     idx_get := {| get_result := inr {| StatusCode := 200; Body := [] |};
                  file_create_err := None; file_copy_err := None |};
     idx_open := fun _ => Scanned sample_lines None;
     world := quiet |}.

(** [main] got as far as the call of [downloadRanges]. *)
Definition reached_transfer (o : outcome) : Prop :=
  match o with
  | DownloadError _ _ _ | Completed _ _ => True
  | IdxDownloadError _ | IdxParseError _ | GenerateError _ => False
  end.

(** A run of main whose index cannot be fetched. *)
Definition offline_env : MainEnv :=
  {| base_name := "gfs.t00z.pgrb2.0p25.f000.idx";
     idx_get := {| get_result := inl (EOs "no route to host");
                  file_create_err := None; file_copy_err := None |};
     idx_open := fun _ => OpenFails (EOs "no such file or directory");
     world := quiet |}.

(** A request for every level of TMP, and a run of main on the sample
    index in which the one range of the plan is answered with two bytes. *)
Definition all_levels_of_TMP : Config :=
  {| IdxURL := "https://host/gfs.t00z.pgrb2.0p25.f000.idx";
     Parameters := {[ "TMP"%string := [] ]} |}.

Definition one_answer_env : MainEnv :=
  {| base_name := "gfs.t00z.pgrb2.0p25.f000.idx";
     idx_get := {| get_result := inr {| StatusCode := 200; Body := [] |};
                  file_create_err := None; file_copy_err := None |};
     idx_open := fun _ => Scanned sample_lines None;
     world := {| create_err := None; truncate_err := None;
                 fetch_env := fun _ => answer 206 [Byte.x47; Byte.x52];
                 run_order := [0%nat]; send_order := [0%nat] |} |}.

(** A plan that ends at the largest int64. *)
Definition top_range : list RangeDownload :=
  [ mkRange 0 9223372036854775807 ].

(* ===================================================================== *)
(** * Theorems *)
(* ===================================================================== *)

(** ** int64 arithmetic *)

Lemma wrap_exact z : Int64.in_range z -> Int64.wrap z = z.
Proof.
  unfold Int64.in_range, Int64.wrap, Int64.min_int, Int64.max_int, Int64.modulus.
  intros H. rewrite Z.mod_small; lia.
Qed.

Lemma wrap_in_range z : Int64.in_range (Int64.wrap z).
Proof.
  unfold Int64.in_range, Int64.wrap, Int64.min_int, Int64.max_int, Int64.modulus.
  pose proof (Z.mod_pos_bound (z - - 2 ^ 63) (2 ^ 64)). lia.
Qed.

Lemma add_exact a b : Int64.in_range (a + b) -> Int64.add a b = a + b.
Proof. apply wrap_exact. Qed.

Lemma sub_exact a b : Int64.in_range (a - b) -> Int64.sub a b = a - b.
Proof. apply wrap_exact. Qed.

Ltac int64_consts :=
  unfold Int64.in_range, Int64.min_int, Int64.max_int, Int64.modulus, MiB in *.

(** ** The selection loop *)

Section Selection.

Context (parameters : list GFSParameter) (requestedParams : Request).

Lemma level_in_elem levels lvl : level_in levels lvl = true <-> lvl ∈ levels.
Proof.
  induction levels as [|level rest IH]; simpl.
  - split; [discriminate | intros H; inversion H].
  - destruct (String.eqb level lvl) eqn:E.
    + apply String.eqb_eq in E. subst. split; [intros _; left | reflexivity].
    + apply String.eqb_neq in E. rewrite IH. split.
      * intros H. right. exact H.
      * intros H. apply elem_of_cons in H as [H|H]; [congruence | exact H].
Qed.

Lemma levelRequested_spec levels lvl :
  levelRequested levels lvl = true <-> levels = [] \/ lvl ∈ levels.
Proof.
  unfold levelRequested. destruct levels as [|l0 ls].
  - simpl. tauto.
  - change (Z.of_nat (length (l0 :: ls)) =? 0) with false.
    rewrite level_in_elem. split; [tauto | intros [H|H]; [discriminate | exact H]].
Qed.

(** The guarded read of [parameters[i+1]] finds the next entry whenever
    the guard holds, and the guard fails only on the last index. *)
Lemma endOffset_next i param :
  endOffset parameters i param = End_ (entry_range parameters i param).
Proof.
  unfold endOffset, entry_range. simpl.
  replace (i + 1)%nat with (S i) by lia.
  destruct (Z.ltb_spec (Z.of_nat i) (Z.of_nat (length parameters) - 1)) as [Hlt|Hge].
  - destruct (lookup_lt_is_Some_2 parameters (S i)) as [next Hnext]; [lia|].
    rewrite Hnext. reflexivity.
  - rewrite (lookup_ge_None_2 parameters (S i)) by lia. reflexivity.
Qed.

Lemma select_step_spec ranges i param :
  select_step parameters requestedParams ranges i param
  = ranges ++ option_list (select_entry parameters requestedParams (i, param)).
Proof.
  unfold select_step, select_entry. simpl.
  destruct (decide (included requestedParams param)) as [Hy|Hn];
    unfold included in *;
    destruct (requestedParams !! Parameter_ param) as [levels|]; simpl.
  - apply levelRequested_spec in Hy. rewrite Hy, endOffset_next. reflexivity.
  - destruct Hy.
  - destruct (levelRequested levels (Level param)) eqn:Hlvl.
    + apply levelRequested_spec in Hlvl. tauto.
    + symmetry. apply app_nil_r.
  - symmetry. apply app_nil_r.
Qed.

Lemma select_loop_spec rest i ranges :
  select_loop parameters requestedParams i rest ranges
  = ranges ++ omap (select_entry parameters requestedParams)
               (imap (fun j e => ((i + j)%nat, e)) rest).
Proof.
  revert i ranges. induction rest as [|param rest IH]; intros i ranges; simpl.
  - symmetry. apply app_nil_r.
  - rewrite IH, select_step_spec, <- app_assoc. f_equal.
    replace (i + 0)%nat with i by lia.
    assert (Hshift :
      imap (fun j e => ((S i + j)%nat, e)) rest
      = imap ((fun j (e : GFSParameter) => ((i + j)%nat, e)) ∘ S) rest)
      by (apply imap_ext; intros j e _; simpl; f_equal; lia).
    rewrite Hshift. destruct (select_entry _ _ (i, param)); reflexivity.
Qed.

Lemma provisional_spec :
  provisional parameters requestedParams
  = omap (select_entry parameters requestedParams) (imap pair parameters).
Proof. unfold provisional. rewrite select_loop_spec. reflexivity. Qed.

End Selection.

(** ** Neighbours in a list *)

Section Consecutive.

Context {A : Type} (R : A -> A -> Prop).

Lemma consecutive_snoc d l c :
  consecutive R (d ++ [l]) -> R l c -> consecutive R ((d ++ [l]) ++ [c]).
Proof.
  induction d as [|a d IH]; simpl; [tauto|].
  destruct d as [|b d]; simpl in *; tauto.
Qed.

Lemma consecutive_change_last d l l' :
  consecutive R (d ++ [l]) -> (forall a, R a l -> R a l') ->
  consecutive R (d ++ [l']).
Proof.
  induction d as [|a d IH]; simpl; [tauto|].
  destruct d as [|b d]; simpl in *; intros [Hab Hrest] Hl.
  - auto.
  - split; [exact Hab|]. apply IH; assumption.
Qed.

Lemma consecutive_tail a l : consecutive R (a :: l) -> consecutive R l.
Proof. destruct l; simpl; tauto. Qed.

Lemma consecutive_app_r d l : consecutive R (d ++ l) -> consecutive R l.
Proof.
  induction d as [|a d IH]; simpl; [tauto|].
  intros H. apply IH. destruct (d ++ l); simpl in *; tauto.
Qed.

Lemma consecutive_lookup l i a b :
  consecutive R l -> l !! i = Some a -> l !! S i = Some b -> R a b.
Proof.
  revert i. induction l as [|x l IH]; intros i Hc Ha Hb; [discriminate|].
  destruct i as [|i]; simpl in *.
  - destruct l as [|y l]; [discriminate|]. simpl in *.
    injection Ha as ->. injection Hb as ->. tauto.
  - apply (IH i); auto. eapply consecutive_tail; eauto.
Qed.

End Consecutive.

(** ** The merge loop *)

Section Merge.

Lemma merge_step_snoc d l c :
  merge_step (d ++ [l]) c = d ++ merge_last l c.
Proof.
  unfold merge_step, merge_last.
  replace (length (d ++ [l]) - 1)%nat with (length d + 0)%nat
    by (rewrite length_app; simpl; lia).
  rewrite lookup_app_r by lia.
  replace (length d + 0 - length d)%nat with 0%nat by lia. simpl.
  destruct (Start c <=? Int64.add (End_ l) 1).
  - destruct (End_ c >? End_ l); [|reflexivity].
    rewrite insert_app_r. reflexivity.
  - rewrite <- app_assoc. reflexivity.
Qed.

(** Whatever the input, no two neighbours of the merged list pass the
    test of the loop. *)
Lemma merge_loop_apart rest : forall d l,
  consecutive apart (d ++ [l]) ->
  consecutive apart (fold_left merge_step rest (d ++ [l])).
Proof.
  induction rest as [|c rest IH]; intros d l Hd; simpl; [exact Hd|].
  rewrite merge_step_snoc. unfold merge_last.
  destruct (Z.leb_spec (Start c) (Int64.add (End_ l) 1)) as [Hle|Hgt].
  - destruct (End_ c >? End_ l).
    + apply IH. eapply consecutive_change_last; [exact Hd|].
      intros a Ha. exact Ha.
    + apply IH, Hd.
  - change (d ++ [l; c]) with (d ++ [l] ++ [c]). rewrite app_assoc.
    apply IH. apply consecutive_snoc; [exact Hd|]. exact Hgt.
Qed.

(** On a list whose neighbours all fail the test, the loop only copies. *)
Lemma merge_loop_id rest : forall d l,
  consecutive apart (d ++ l :: rest) ->
  fold_left merge_step rest (d ++ [l]) = d ++ l :: rest.
Proof.
  induction rest as [|c rest IH]; intros d l Hd; simpl; [reflexivity|].
  rewrite merge_step_snoc. unfold merge_last.
  assert (Hlc : apart l c).
  { apply consecutive_app_r in Hd. simpl in Hd. tauto. }
  unfold apart in Hlc.
  destruct (Z.leb_spec (Start c) (Int64.add (End_ l) 1)) as [Hle|Hgt]; [lia|].
  change (d ++ [l; c]) with (d ++ [l] ++ [c]). rewrite app_assoc.
  rewrite IH; rewrite <- app_assoc; [reflexivity | exact Hd].
Qed.

Lemma merge_apart ranges : consecutive apart (merge ranges).
Proof.
  unfold merge. destruct (1 <? Z.of_nat (length ranges)) eqn:Hlen.
  - destruct ranges as [|r0 rest]; [exact I|].
    apply (merge_loop_apart rest [] r0). exact I.
  - destruct ranges as [|r0 [|r1 rest]]; simpl; try exact I.
    simpl in Hlen. apply Z.ltb_ge in Hlen. lia.
Qed.

Lemma merge_fixed ranges : consecutive apart ranges -> merge ranges = ranges.
Proof.
  intros H. unfold merge. destruct (1 <? Z.of_nat (length ranges)); [|reflexivity].
  destruct ranges as [|r0 rest]; [reflexivity|].
  apply (merge_loop_id rest [] r0). exact H.
Qed.

Lemma merge_idempotent ranges : merge (merge ranges) = merge ranges.
Proof. apply merge_fixed, merge_apart. Qed.

End Merge.

(** ** The merge loop on ranges in index order *)

Section MergeOrdered.

Lemma feeds_add_exact a b : feeds a b -> Int64.add (End_ a) 1 = End_ a + 1.
Proof. unfold feeds. intros H. apply add_exact. int64_consts. lia. Qed.

(** The three ways the loop goes on keep what it needs of its input. *)
Lemma feeds_extend l c rest :
  consecutive feeds (l :: c :: rest) -> End_ l < End_ c ->
  consecutive feeds ({| Start := Start l; End_ := End_ c |} :: rest).
Proof.
  simpl. intros [Hlc Hrest] Hlt. destruct rest as [|r rest]; [exact I|].
  destruct Hrest as [Hcr Hrest]. split; [|exact Hrest].
  unfold feeds in *. simpl. lia.
Qed.

Lemma feeds_skip l c rest :
  consecutive feeds (l :: c :: rest) -> consecutive feeds (l :: rest).
Proof.
  simpl. intros [Hlc Hrest]. destruct rest as [|r rest]; [exact I|].
  destruct Hrest as [Hcr Hrest]. split; [|exact Hrest].
  unfold feeds in *. lia.
Qed.

Lemma merge_loop_separated rest : forall d l,
  consecutive feeds (l :: rest) ->
  consecutive separated (d ++ [l]) ->
  consecutive separated (fold_left merge_step rest (d ++ [l])).
Proof.
  induction rest as [|c rest IH]; intros d l Hin Hd; simpl; [exact Hd|].
  rewrite merge_step_snoc. unfold merge_last.
  assert (Hlc : feeds l c) by (simpl in Hin; tauto).
  rewrite (feeds_add_exact l c Hlc).
  destruct (Z.leb_spec (Start c) (End_ l + 1)) as [Hle|Hgt].
  - destruct (Z.gtb_spec (End_ c) (End_ l)) as [Hext|Hkeep].
    + apply IH; [apply feeds_extend; [exact Hin | lia]|].
      eapply consecutive_change_last; [exact Hd|].
      intros a Ha. exact Ha.
    + apply IH; [eapply feeds_skip; exact Hin | exact Hd].
  - change (d ++ [l; c]) with (d ++ [l] ++ [c]). rewrite app_assoc.
    apply IH; [eapply consecutive_tail; exact Hin|].
    apply consecutive_snoc; [exact Hd|].
    unfold separated, feeds in *. lia.
Qed.

(** Nothing an input range covers is lost. *)
Lemma merge_loop_covers rest : forall d l r x,
  consecutive feeds (l :: rest) ->
  r ∈ d ++ l :: rest -> covers r x ->
  exists r', r' ∈ fold_left merge_step rest (d ++ [l]) /\ covers r' x.
Proof.
  induction rest as [|c rest IH]; intros d l r x Hin Hr Hx; simpl.
  - exists r. split; assumption.
  - rewrite merge_step_snoc. unfold merge_last.
    assert (Hlc : feeds l c) by (simpl in Hin; tauto).
    rewrite (feeds_add_exact l c Hlc).
    apply elem_of_app in Hr as [Hr|Hr];
      [|apply elem_of_cons in Hr as [->|Hr];
        [|apply elem_of_cons in Hr as [->|Hr]]].
    all: destruct (Z.leb_spec (Start c) (End_ l + 1)) as [Hle|Hgt];
      [destruct (Z.gtb_spec (End_ c) (End_ l)) as [Hext|Hkeep]|].
    all: try (change (d ++ [l; c]) with (d ++ [l] ++ [c]); rewrite app_assoc).
    all: unfold feeds, covers in *.
    (* r in d *)
    + eapply (IH d _ r); [apply feeds_extend; [exact Hin|lia] | | exact Hx].
      apply elem_of_app. left. exact Hr.
    + eapply (IH d _ r); [eapply feeds_skip; exact Hin | | exact Hx].
      apply elem_of_app. left. exact Hr.
    + eapply (IH _ _ r); [eapply consecutive_tail; exact Hin | | exact Hx].
      apply elem_of_app. left. apply elem_of_app. left. exact Hr.
    (* r is the last merged range *)
    + eapply (IH d _ {| Start := Start l; End_ := End_ c |});
        [apply feeds_extend; [exact Hin|lia] | | simpl; lia].
      apply elem_of_app. right. left.
    + eapply (IH d _ l); [eapply feeds_skip; exact Hin | | exact Hx].
      apply elem_of_app. right. left.
    + eapply (IH _ _ l); [eapply consecutive_tail; exact Hin | | exact Hx].
      apply elem_of_app. left. apply elem_of_app. right. left.
    (* r is the current range *)
    + eapply (IH d _ {| Start := Start l; End_ := End_ c |});
        [apply feeds_extend; [exact Hin|lia] | | simpl; lia].
      apply elem_of_app. right. left.
    + eapply (IH d _ l); [eapply feeds_skip; exact Hin | | lia].
      apply elem_of_app. right. left.
    + eapply (IH _ _ c); [eapply consecutive_tail; exact Hin | | exact Hx].
      apply elem_of_app. right. left.
    (* r is still to come *)
    + eapply (IH d _ r); [apply feeds_extend; [exact Hin|lia] | | exact Hx].
      apply elem_of_app. right. right. exact Hr.
    + eapply (IH d _ r); [eapply feeds_skip; exact Hin | | exact Hx].
      apply elem_of_app. right. right. exact Hr.
    + eapply (IH _ _ r); [eapply consecutive_tail; exact Hin | | exact Hx].
      apply elem_of_app. right. right. exact Hr.
Qed.

Lemma merge_separated ranges :
  consecutive feeds ranges -> consecutive separated (merge ranges).
Proof.
  intros Hin. unfold merge. destruct (1 <? Z.of_nat (length ranges)) eqn:Hlen.
  - destruct ranges as [|r0 rest]; [exact I|].
    apply (merge_loop_separated rest [] r0); [exact Hin | exact I].
  - destruct ranges as [|r0 [|r1 rest]]; simpl; try exact I.
    simpl in Hlen. apply Z.ltb_ge in Hlen. lia.
Qed.

Lemma merge_covers ranges r x :
  consecutive feeds ranges -> r ∈ ranges -> covers r x ->
  exists r', r' ∈ merge ranges /\ covers r' x.
Proof.
  intros Hin Hr Hx. unfold merge. destruct (1 <? Z.of_nat (length ranges)).
  - destruct ranges as [|r0 rest]; [inversion Hr|].
    apply (merge_loop_covers rest [] r0 r x); assumption.
  - exists r. split; assumption.
Qed.

(** Separated neighbours make every later range start past the end of
    every earlier one. *)
Lemma separated_pairwise l : consecutive separated l ->
  forall j i a b, (i < j)%nat -> l !! i = Some a -> l !! j = Some b ->
    Start a < Start b /\ End_ a + 1 < Start b.
Proof.
  intros Hc. induction j as [|j IH]; intros i a b Hij Ha Hb; [lia|].
  destruct (lookup_lt_is_Some_2 l j) as [m Hm].
  { apply lookup_lt_Some in Hb. lia. }
  pose proof (consecutive_lookup separated l j m b Hc Hm Hb) as [Hs Hg].
  destruct (decide (i = j)) as [->|Hne].
  - rewrite Hm in Ha. injection Ha as ->. split; assumption.
  - destruct (IH i a m) as [Hs' Hg']; [lia | assumption | assumption |].
    split; lia.
Qed.

Lemma separated_disjoint l i j a b x :
  consecutive separated l ->
  l !! i = Some a -> l !! j = Some b -> covers a x -> covers b x -> i = j.
Proof.
  intros Hc Ha Hb Hxa Hxb. unfold covers in *.
  destruct (Nat.lt_trichotomy i j) as [Hlt|[Heq|Hgt]]; [|exact Heq|].
  - destruct (separated_pairwise l Hc j i a b Hlt Ha Hb). lia.
  - destruct (separated_pairwise l Hc i j b a Hgt Hb Ha). lia.
Qed.

End MergeOrdered.

(** ** The provisional ranges of an index that keeps its invariant *)

Section OrderedIndex.

Context (parameters : list GFSParameter) (requestedParams : Request).
Hypothesis Hnonneg : nonneg_offsets parameters.
Hypothesis Hmono : nondecreasing_offsets parameters.

Lemma offset_bounds i e :
  parameters !! i = Some e -> 0 <= Offset e <= Int64.max_int.
Proof.
  intros H. unfold nonneg_offsets in Hnonneg.
  rewrite Forall_forall in Hnonneg. apply Hnonneg.
  eapply list_elem_of_lookup_2. exact H.
Qed.

Lemma offsets_monotone j : forall i a b, (i <= j)%nat ->
  parameters !! i = Some a -> parameters !! j = Some b -> Offset a <= Offset b.
Proof.
  induction j as [|j IH]; intros i a b Hij Ha Hb.
  - assert (i = 0%nat) as -> by lia. rewrite Ha in Hb. injection Hb as ->. lia.
  - destruct (decide (i = S j)) as [->|Hne].
    + rewrite Ha in Hb. injection Hb as ->. lia.
    + destruct (lookup_lt_is_Some_2 parameters j) as [m Hm].
      { apply lookup_lt_Some in Hb. lia. }
      pose proof (IH i a m ltac:(lia) Ha Hm).
      pose proof (consecutive_lookup _ _ j m b Hmono Hm Hb) as Hstep.
      simpl in Hstep. lia.
Qed.

(** The range of an entry that another entry follows. *)
Lemma entry_range_inner i e next :
  parameters !! i = Some e -> parameters !! S i = Some next ->
  entry_range parameters i e
  = {| Start := Offset e; End_ := Offset next - 1 |}.
Proof.
  intros He Hnext. unfold entry_range. rewrite Hnext. f_equal.
  apply sub_exact. pose proof (offset_bounds _ _ Hnext). int64_consts. lia.
Qed.

Lemma select_from_cons i e rest :
  omap (select_entry parameters requestedParams)
    (imap (fun j x => ((i + j)%nat, x)) (e :: rest))
  = option_list (select_entry parameters requestedParams (i, e))
    ++ omap (select_entry parameters requestedParams)
         (imap (fun j x => ((S i + j)%nat, x)) rest).
Proof.
  assert (Hshift :
    imap ((fun j (x : GFSParameter) => ((i + j)%nat, x)) ∘ S) rest
    = imap (fun j x => ((S i + j)%nat, x)) rest)
    by (apply imap_ext; intros j x _; simpl; f_equal; lia).
  rewrite <- Hshift. simpl. replace (i + 0)%nat with i by lia.
  destruct (select_entry _ _ (i, e)); reflexivity.
Qed.

Lemma provisional_from_feeds rest : forall i,
  (forall j e, rest !! j = Some e -> parameters !! (i + j)%nat = Some e) ->
  consecutive feeds
    (omap (select_entry parameters requestedParams)
       (imap (fun j e => ((i + j)%nat, e)) rest)) /\
  (forall r,
      r ∈ omap (select_entry parameters requestedParams)
            (imap (fun j e => ((i + j)%nat, e)) rest) ->
      exists j e, rest !! j = Some e /\ r = entry_range parameters (i + j) e).
Proof.
  induction rest as [|e rest IH]; intros i Hsuffix.
  - split; [exact I|]. intros r Hr. inversion Hr.
  - rewrite select_from_cons.
    destruct (IH (S i)) as [IHc IHe].
    { intros j x Hx. replace (S i + j)%nat with (i + S j)%nat by lia.
      apply Hsuffix. exact Hx. }
    set (T := omap (select_entry parameters requestedParams)
                (imap (fun j e => ((S i + j)%nat, e)) rest)) in *.
    assert (He : parameters !! i = Some e).
    { replace i with (i + 0)%nat by lia. apply Hsuffix. reflexivity. }
    assert (Htail : forall r, r ∈ T ->
      exists j x, (e :: rest) !! j = Some x /\
                  r = entry_range parameters (i + j) x).
    { intros r Hr. destruct (IHe r Hr) as (j & x & Hx & ->).
      exists (S j), x. split; [exact Hx|]. f_equal. lia. }
    unfold select_entry. cbn [fst snd].
    destruct (decide (included requestedParams e)) as [Hinc|Hexc];
      cbn [option_list app].
    + split.
      * destruct T as [|t out] eqn:Hout; [exact I|].
        split; [|exact IHc].
        destruct (IHe t) as (j & x & Hx & ->); [left|].
        assert (Hx' : parameters !! (S i + j)%nat = Some x).
        { replace (S i + j)%nat with (i + S j)%nat by lia.
          apply Hsuffix. exact Hx. }
        destruct (lookup_lt_is_Some_2 parameters (S i)) as [next Hnext].
        { apply lookup_lt_Some in Hx'. lia. }
        rewrite (entry_range_inner i e next He Hnext).
        pose proof (offset_bounds _ _ He).
        pose proof (offset_bounds _ _ Hnext).
        pose proof (offsets_monotone (S i) i e next ltac:(lia) He Hnext).
        pose proof (offsets_monotone (S i + j) i e x ltac:(lia) He Hx').
        unfold feeds, entry_range. simpl. int64_consts. lia.
      * intros r Hr. apply elem_of_cons in Hr as [->|Hr].
        -- exists 0%nat, e. split; [reflexivity|]. f_equal. lia.
        -- apply Htail. exact Hr.
    + split; [exact IHc | exact Htail].
Qed.

Lemma provisional_feeds :
  consecutive feeds (provisional parameters requestedParams).
Proof.
  rewrite provisional_spec.
  apply (provisional_from_feeds parameters 0). intros j e H. exact H.
Qed.

End OrderedIndex.

(** ** Every provisional range is the range of an included entry *)

Lemma elem_of_provisional parameters requestedParams r :
  r ∈ provisional parameters requestedParams <->
  exists i e, parameters !! i = Some e /\ included requestedParams e /\
              r = entry_range parameters i e.
Proof.
  rewrite provisional_spec, list_elem_of_omap. split.
  - intros ([i e] & Hin & Hsel). apply elem_of_lookup_imap in Hin.
    destruct Hin as (i' & e' & Heq & Hlook). injection Heq as -> ->.
    unfold select_entry in Hsel. simpl in Hsel.
    destruct (decide (included requestedParams e')) as [Hinc|]; [|discriminate].
    injection Hsel as <-. exists i', e'. auto.
  - intros (i & e & Hlook & Hinc & ->). exists (i, e). split.
    + apply elem_of_lookup_imap. exists i, e. auto.
    + unfold select_entry. simpl.
      destruct (decide (included requestedParams e)); [reflexivity | contradiction].
Qed.

Lemma provisional_nil parameters requestedParams :
  (forall e, e ∈ parameters -> ~ included requestedParams e) ->
  provisional parameters requestedParams = [].
Proof.
  intros Hnone. destruct (provisional parameters requestedParams) as [|r rs] eqn:Hp;
    [reflexivity|].
  assert (Hr : r ∈ provisional parameters requestedParams) by (rewrite Hp; left).
  apply elem_of_provisional in Hr as (i & e & Hlook & Hinc & _).
  exfalso. apply (Hnone e); [|exact Hinc]. eapply list_elem_of_lookup_2. exact Hlook.
Qed.

(** ** Merging keeps proper ranges proper *)

Lemma merge_loop_proper rest : forall d l,
  Forall proper (d ++ l :: rest) ->
  Forall proper (fold_left merge_step rest (d ++ [l])).
Proof.
  induction rest as [|c rest IH]; intros d l H; simpl; [exact H|].
  rewrite merge_step_snoc. unfold merge_last.
  apply Forall_app in H as [Hd H].
  apply Forall_cons in H as [Hl H]. apply Forall_cons in H as [Hc Hrest].
  destruct (Start c <=? Int64.add (End_ l) 1).
  - destruct (Z.gtb_spec (End_ c) (End_ l)) as [Hext|Hkeep].
    + apply IH. apply Forall_app. split; [exact Hd|].
      apply Forall_cons. split; [|exact Hrest].
      unfold proper in *. simpl. lia.
    + apply IH. apply Forall_app. split; [exact Hd|].
      apply Forall_cons. split; assumption.
  - change (d ++ [l; c]) with (d ++ [l] ++ [c]). rewrite app_assoc.
    apply IH. apply Forall_app. split.
    + apply Forall_app. split; [exact Hd|]. apply Forall_cons. split; [exact Hl|constructor].
    + apply Forall_cons. split; assumption.
Qed.

Lemma merge_proper ranges : Forall proper ranges -> Forall proper (merge ranges).
Proof.
  intros H. unfold merge. destruct (1 <? Z.of_nat (length ranges)); [|exact H].
  destruct ranges as [|r0 rest]; [exact H|].
  apply (merge_loop_proper rest [] r0). exact H.
Qed.


(** ** The range selector: claims *)

(** C4.  The list of provisional ranges holds, in index order, one range
    for each included entry and nothing else: an entry is included exactly
    when its parameter name is a key of the request and the level list of
    that key is empty or contains the entry's level; the range of the entry
    at position [i] starts at its offset and ends one byte before the
    offset of entry [i+1] when that entry exists, and 1048576 bytes past
    its own offset when [i] is the last position (int64 arithmetic). *)
Theorem provisional_selects parameters requestedParams :
  provisional parameters requestedParams
  = omap (select_entry parameters requestedParams) (imap pair parameters)
  /\ (forall r, r ∈ provisional parameters requestedParams <->
        exists i e, parameters !! i = Some e /\ included requestedParams e /\
                    r = entry_range parameters i e).
Proof.
  split; [apply provisional_spec | intros r; apply elem_of_provisional].
Qed.

(** C8.  When no entry is included by the request, generateRanges returns
    the empty range list and a nil error, and the total size is 0. *)
Theorem no_match_no_ranges parameters requestedParams :
  (forall e, e ∈ parameters -> ~ included requestedParams e) ->
  generateRanges parameters requestedParams = ([], None)
  /\ totalSize (generateRanges parameters requestedParams).1 = 0.
Proof.
  intros Hnone. unfold generateRanges.
  rewrite (provisional_nil _ _ Hnone). split; reflexivity.
Qed.

Lemma no_match_no_ranges_witness :
  (forall e, e ∈ scenario_entries -> ~ included unmatched_request e)
  /\ generateRanges scenario_entries unmatched_request = ([], None)
  /\ totalSize (generateRanges scenario_entries unmatched_request).1 = 0.
Proof.
  assert (H : forall e, e ∈ scenario_entries -> ~ included unmatched_request e).
  { apply Forall_forall. apply (bool_decide_unpack _). vm_compute. exact I. }
  split; [exact H | apply (no_match_no_ranges _ _ H)].
Defined.

(** C9.  For the index with entries at offsets 0 (A, sfc), 1000 (B, sfc) and
    2500 (A, 850mb), whatever their other fields, and the request that maps
    A to the empty level list, the provisional ranges are [0,999] and
    [2500, 2500+1048576], merging leaves them as they are, and the total
    size is 1000 + 1048577. *)
Theorem scenario_ranges n1 d1 t1 n2 d2 t2 n3 d3 t3 :
  let entries :=
    [ mkGFSParameter n1 0 d1 "A" "sfc" t1;
      mkGFSParameter n2 1000 d2 "B" "sfc" t2;
      mkGFSParameter n3 2500 d3 "A" "850mb" t3 ] in
  let plan := [ mkRange 0 999; mkRange 2500 (2500 + 1048576) ] in
  provisional entries all_levels_of_A = plan
  /\ generateRanges entries all_levels_of_A = (plan, None)
  /\ totalSize (generateRanges entries all_levels_of_A).1 = 1000 + 1048577.
Proof. repeat split; vm_compute; reflexivity. Qed.

(** C3 (amended).  When the offsets are non-negative, strictly increasing
    along the index, and the last offset plus 1048576 is still an int64,
    every range generateRanges returns has Start <= End and Start >= 0. *)
Theorem generateRanges_proper parameters requestedParams r :
  nonneg_offsets parameters ->
  increasing_offsets parameters ->
  (forall e, last parameters = Some e -> Offset e + 1048576 <= Int64.max_int) ->
  r ∈ (generateRanges parameters requestedParams).1 ->
  Start r <= End_ r /\ Start r >= 0.
Proof.
  intros Hnonneg Hinc Hlast Hr. simpl in Hr.
  assert (Hall : Forall proper (provisional parameters requestedParams)).
  { apply Forall_forall. intros p Hp.
    apply elem_of_provisional in Hp as (i & e & He & _ & ->).
    pose proof (offset_bounds parameters Hnonneg i e He) as Hb.
    unfold proper, entry_range. simpl.
    destruct (parameters !! S i) as [next|] eqn:Hnext.
    - pose proof (offset_bounds parameters Hnonneg (S i) next Hnext) as Hb'.
      pose proof (consecutive_lookup _ _ i e next Hinc He Hnext) as Hlt.
      simpl in Hlt. rewrite sub_exact; int64_consts; lia.
    - assert (Hl : last parameters = Some e).
      { rewrite last_lookup. rewrite <- He. f_equal.
        apply lookup_lt_Some in He. apply lookup_ge_None in Hnext. lia. }
      specialize (Hlast e Hl). rewrite add_exact; int64_consts; lia. }
  apply merge_proper in Hall. rewrite Forall_forall in Hall.
  destruct (Hall r Hr). lia.
Qed.

Lemma generateRanges_proper_witness :
  nonneg_offsets scenario_entries
  /\ increasing_offsets scenario_entries
  /\ (forall e, last scenario_entries = Some e ->
        Offset e + 1048576 <= Int64.max_int)
  /\ mkRange 0 999 ∈ (generateRanges scenario_entries all_levels_of_A).1
  /\ (Start (mkRange 0 999) <= End_ (mkRange 0 999)
      /\ Start (mkRange 0 999) >= 0).
Proof.
  assert (H1 : nonneg_offsets scenario_entries).
  { unfold nonneg_offsets, scenario_entries.
    repeat (constructor; [simpl; int64_consts; lia|]). constructor. }
  assert (H2 : increasing_offsets scenario_entries).
  { unfold increasing_offsets. simpl. lia. }
  assert (H3 : forall e, last scenario_entries = Some e ->
                 Offset e + 1048576 <= Int64.max_int).
  { intros e He. injection He as <-. simpl. int64_consts. lia. }
  assert (H4 : mkRange 0 999 ∈ (generateRanges scenario_entries all_levels_of_A).1).
  { vm_compute. left. }
  split; [exact H1 | split; [exact H2 | split; [exact H3 | split; [exact H4|]]]].
  exact (generateRanges_proper scenario_entries all_levels_of_A
           (mkRange 0 999) H1 H2 H3 H4).
Defined.

(** C3 as stated fails: two entries may share an offset in a
    non-decreasing index, and the range of the first one, selected alone,
    is [5,4]. *)
Lemma twin_offsets_empty_range :
  ~ (forall parameters requestedParams r,
       nonneg_offsets parameters -> nondecreasing_offsets parameters ->
       r ∈ (generateRanges parameters requestedParams).1 ->
       Start r <= End_ r /\ Start r >= 0).
Proof.
  intros H.
  destruct (H twin_entries all_levels_of_A (mkRange 5 4)) as [Hle _].
  - unfold nonneg_offsets, twin_entries.
    repeat (constructor; [simpl; int64_consts; lia|]). constructor.
  - unfold nondecreasing_offsets. simpl. lia.
  - vm_compute. left.
  - simpl in Hle. lia.
Qed.

(** The other way to an improper range: the MiB added to the last offset
    leaves the int64 range. *)
Lemma last_offset_overflow :
  generateRanges [entry Int64.max_int "A" "sfc"] all_levels_of_A
  = ([mkRange 9223372036854775807 (-9223372036853727233)], None).
Proof. vm_compute. reflexivity. Qed.

(** C2 (amended).  When the offsets are non-negative and do not decrease
    along the index, the ranges generateRanges returns are in strictly
    ascending order of Start, every range starts more than one byte after
    the end of the range before it, and merging them again changes
    nothing. *)
Theorem generateRanges_sorted_separated_fixed parameters requestedParams :
  nonneg_offsets parameters ->
  nondecreasing_offsets parameters ->
  (forall i j a b, (i < j)%nat ->
     (generateRanges parameters requestedParams).1 !! i = Some a ->
     (generateRanges parameters requestedParams).1 !! j = Some b ->
     Start a < Start b)
  /\ (forall i a b,
     (generateRanges parameters requestedParams).1 !! i = Some a ->
     (generateRanges parameters requestedParams).1 !! S i = Some b ->
     Start b > End_ a + 1)
  /\ merge (generateRanges parameters requestedParams).1
     = (generateRanges parameters requestedParams).1.
Proof.
  intros Hnonneg Hmono. simpl.
  pose proof (merge_separated _
    (provisional_feeds parameters requestedParams Hnonneg Hmono)) as Hsep.
  split; [|split].
  - intros i j a b Hij Ha Hb.
    destruct (separated_pairwise _ Hsep j i a b Hij Ha Hb). assumption.
  - intros i a b Ha Hb.
    destruct (separated_pairwise _ Hsep (S i) i a b ltac:(lia) Ha Hb). lia.
  - apply merge_idempotent.
Qed.

Lemma generateRanges_sorted_separated_fixed_witness :
  nonneg_offsets scenario_entries
  /\ nondecreasing_offsets scenario_entries
  /\ (forall i j a b, (i < j)%nat ->
        (generateRanges scenario_entries all_levels_of_A).1 !! i = Some a ->
        (generateRanges scenario_entries all_levels_of_A).1 !! j = Some b ->
        Start a < Start b)
  /\ (forall i a b,
        (generateRanges scenario_entries all_levels_of_A).1 !! i = Some a ->
        (generateRanges scenario_entries all_levels_of_A).1 !! S i = Some b ->
        Start b > End_ a + 1)
  /\ merge (generateRanges scenario_entries all_levels_of_A).1
     = (generateRanges scenario_entries all_levels_of_A).1.
Proof.
  assert (H1 : nonneg_offsets scenario_entries).
  { unfold nonneg_offsets, scenario_entries.
    repeat (constructor; [simpl; int64_consts; lia|]). constructor. }
  assert (H2 : nondecreasing_offsets scenario_entries).
  { unfold nondecreasing_offsets. simpl. lia. }
  split; [exact H1 | split; [exact H2|]].
  exact (generateRanges_sorted_separated_fixed
           scenario_entries all_levels_of_A H1 H2).
Defined.

(** C2 as stated fails: on an index whose offsets are out of order the
    output is [100,-1], [50,1048626], which is not in ascending order of
    Start. *)
Lemma unordered_index_unsorted_ranges :
  ~ (forall parameters requestedParams,
       (forall i j a b, (i < j)%nat ->
          (generateRanges parameters requestedParams).1 !! i = Some a ->
          (generateRanges parameters requestedParams).1 !! j = Some b ->
          Start a <= Start b)
       /\ (forall i a b,
          (generateRanges parameters requestedParams).1 !! i = Some a ->
          (generateRanges parameters requestedParams).1 !! S i = Some b ->
          Start b > End_ a + 1)
       /\ merge (generateRanges parameters requestedParams).1
          = (generateRanges parameters requestedParams).1).
Proof.
  intros H. destruct (H unordered_entries all_levels_of_A) as [Hsorted _].
  specialize (Hsorted 0%nat 1%nat (mkRange 100 (-1)) (mkRange 50 1048626)
                ltac:(lia) eq_refl eq_refl).
  simpl in Hsorted. lia.
Qed.

(** Whatever the index, the merged list has no two neighbours that the
    test of the merge loop would join, and merging is idempotent. *)
Lemma generateRanges_merge_fixed parameters requestedParams :
  consecutive apart (generateRanges parameters requestedParams).1
  /\ merge (generateRanges parameters requestedParams).1
     = (generateRanges parameters requestedParams).1.
Proof. split; [apply merge_apart | apply merge_idempotent]. Qed.

(** C1 (amended).  When the offsets are non-negative and do not decrease
    along the index, every byte offset in the provisional range of an
    included entry lies in exactly one range of the merged output. *)
Theorem coverage_exactly_once parameters requestedParams r x :
  nonneg_offsets parameters ->
  nondecreasing_offsets parameters ->
  r ∈ provisional parameters requestedParams ->
  covers r x ->
  exists j r',
    (generateRanges parameters requestedParams).1 !! j = Some r'
    /\ covers r' x
    /\ forall k r'',
         (generateRanges parameters requestedParams).1 !! k = Some r'' ->
         covers r'' x -> k = j.
Proof.
  intros Hnonneg Hmono Hr Hx. simpl.
  pose proof (provisional_feeds parameters requestedParams Hnonneg Hmono) as Hin.
  destruct (merge_covers _ r x Hin Hr Hx) as (r' & Hr' & Hx').
  apply list_elem_of_lookup_1 in Hr' as [j Hj].
  exists j, r'. split; [exact Hj | split; [exact Hx'|]].
  intros k r'' Hk Hx''.
  exact (separated_disjoint _ k j r'' r' x (merge_separated _ Hin) Hk Hj Hx'' Hx').
Qed.

Lemma coverage_exactly_once_witness :
  nonneg_offsets scenario_entries
  /\ nondecreasing_offsets scenario_entries
  /\ mkRange 0 999 ∈ provisional scenario_entries all_levels_of_A
  /\ covers (mkRange 0 999) 500
  /\ exists j r',
       (generateRanges scenario_entries all_levels_of_A).1 !! j = Some r'
       /\ covers r' 500
       /\ forall k r'',
            (generateRanges scenario_entries all_levels_of_A).1 !! k = Some r'' ->
            covers r'' 500 -> k = j.
Proof.
  assert (H1 : nonneg_offsets scenario_entries).
  { unfold nonneg_offsets, scenario_entries.
    repeat (constructor; [simpl; int64_consts; lia|]). constructor. }
  assert (H2 : nondecreasing_offsets scenario_entries).
  { unfold nondecreasing_offsets. simpl. lia. }
  assert (H3 : mkRange 0 999 ∈ provisional scenario_entries all_levels_of_A).
  { vm_compute. left. }
  assert (H4 : covers (mkRange 0 999) 500).
  { unfold covers. simpl. lia. }
  split; [exact H1 | split; [exact H2 | split; [exact H3 | split; [exact H4|]]]].
  exact (coverage_exactly_once scenario_entries all_levels_of_A
           (mkRange 0 999) 500 H1 H2 H3 H4).
Defined.

(** C1 as stated fails, even on an index whose offsets do not decrease:
    with the least int64 as the offset of the first two entries, the range
    of the first entry ends at the largest int64 and byte 5 lies in both
    ranges of the output. *)
Lemma lowest_offset_double_coverage :
  ~ (forall parameters requestedParams r x,
       Forall (fun e => Int64.in_range (Offset e)) parameters ->
       nondecreasing_offsets parameters ->
       r ∈ provisional parameters requestedParams ->
       covers r x ->
       exists j r',
         (generateRanges parameters requestedParams).1 !! j = Some r'
         /\ covers r' x
         /\ forall k r'',
              (generateRanges parameters requestedParams).1 !! k = Some r'' ->
              covers r'' x -> k = j).
Proof.
  intros H.
  destruct (H lowest_entries all_levels_of_A (mkRange 5 1048581) 5)
    as (j & r' & _ & _ & Huniq).
  - unfold lowest_entries.
    repeat (constructor; [simpl; int64_consts; lia|]). constructor.
  - unfold nondecreasing_offsets. simpl. int64_consts. lia.
  - vm_compute. right. left.
  - unfold covers. simpl. lia.
  - assert (H0 : 0%nat = j).
    { apply (Huniq 0%nat (mkRange Int64.min_int Int64.max_int)); [reflexivity|].
      unfold covers. simpl. int64_consts. lia. }
    assert (H1 : 1%nat = j).
    { apply (Huniq 1%nat (mkRange 5 1048581)); [reflexivity|].
      unfold covers. simpl. lia. }
    lia.
Qed.

(** On an index whose offsets are out of order coverage is dropped: the
    second entry claims bytes 0 to 49, and the one merged range starts at
    byte 100. *)
Lemma unordered_index_drops_coverage :
  mkRange 0 49 ∈ provisional unordered_all_A all_levels_of_A
  /\ covers (mkRange 0 49) 0
  /\ (generateRanges unordered_all_A all_levels_of_A).1 = [mkRange 100 1048626]
  /\ ~ covers (mkRange 100 1048626) 0.
Proof.
  split; [vm_compute; right; left|].
  split; [unfold covers; simpl; lia|].
  split; [vm_compute; reflexivity|].
  unfold covers. simpl. lia.
Qed.

(** ** The index parser *)

Section Parser.

Lemma Split_length sep s : length (Split sep s) = S (count_sep sep s).
Proof.
  induction s as [|c rest IH]; simpl; [reflexivity|].
  destruct (Ascii.eqb c sep); simpl.
  - rewrite IH. reflexivity.
  - destruct (Split sep rest); [discriminate|]. simpl in *. exact IH.
Qed.

Lemma join_cons sep f g fs :
  join sep (f :: g :: fs) = String.append f (String sep (join sep (g :: fs))).
Proof. reflexivity. Qed.

Lemma Split_join sep s : join sep (Split sep s) = s.
Proof.
  induction s as [|c rest IH]; simpl; [reflexivity|].
  pose proof (Split_length sep rest) as Hlen.
  destruct (Split sep rest) as [|f fs]; [discriminate|].
  destruct (Ascii.eqb_spec c sep) as [->|Hne].
  - rewrite join_cons.
    change (String sep (join sep (f :: fs)) = String sep rest).
    f_equal. exact IH.
  - cbn [hd tl]. destruct fs as [|g fs].
    + simpl in *. f_equal. exact IH.
    + rewrite join_cons in *.
      change (String c (String.append f (String sep (join sep (g :: fs))))
              = String c rest).
      f_equal. exact IH.
Qed.

Lemma digit_value_spec c :
  digit_value c = if is_digit c then Some (Z.of_N (N_of_ascii c) - 48) else None.
Proof. reflexivity. Qed.

Lemma parse_digits_spec s : forall acc,
  parse_digits s acc
  = if all_digits s
    then Some (acc * 10 ^ Z.of_nat (String.length s) + decimal_value s)
    else None.
Proof.
  induction s as [|c rest IH]; intros acc.
  - simpl. f_equal. lia.
  - cbn [parse_digits all_digits decimal_value String.length].
    rewrite digit_value_spec. destruct (is_digit c); [|reflexivity].
    rewrite IH. simpl andb. destruct (all_digits rest); [|reflexivity].
    f_equal. rewrite Nat2Z.inj_succ, Z.pow_succ_r by lia. lia.
Qed.

Lemma ParseInt_spec s :
  ParseInt s = if decide (valid_integer s) then Some (integer_value s) else None.
Proof.
  unfold ParseInt. destruct s as [|c rest].
  - case_decide as Hv; [|reflexivity]. destruct Hv as [H _]. simpl in H. congruence.
  - cbn zeta.
    change (if Ascii.eqb c "+" || Ascii.eqb c "-" then rest else String c rest)
      with (unsigned_part (String c rest)).
    change (Ascii.eqb c "-") with (is_negative (String c rest)).
    set (s := String c rest).
    destruct (unsigned_part s) as [|b body] eqn:Hbody.
    + case_decide as Hv; [|reflexivity]. destruct Hv as [H _]. congruence.
    + rewrite parse_digits_spec. rewrite <- Hbody.
      destruct (all_digits (unsigned_part s)) eqn:Hdig.
      * replace (0 * 10 ^ Z.of_nat (String.length (unsigned_part s))
                 + decimal_value (unsigned_part s))
          with (decimal_value (unsigned_part s)) by lia.
        fold (integer_value s).
        destruct (Z.leb_spec Int64.min_int (integer_value s)) as [Hlo|Hlo];
          destruct (Z.leb_spec (integer_value s) Int64.max_int) as [Hhi|Hhi];
          simpl; case_decide as Hv; try reflexivity;
          try (destruct Hv as (_ & _ & Hr); unfold Int64.in_range in Hr; lia).
        exfalso. apply Hv. split; [congruence|]. split; [exact Hdig|].
        unfold Int64.in_range. lia.
      * case_decide as Hv; [|reflexivity]. destruct Hv as (_ & H & _). congruence.
Qed.

Lemma parse_step_spec parameters line :
  parse_step parameters line
  = parameters ++ (if decide (well_formed line) then [entry_of_line line] else []).
Proof.
  unfold parse_step, Atoi. rewrite !ParseInt_spec.
  destruct (Z.ltb_spec (Z.of_nat (length (Split ":" line))) 6) as [Hshort|Hlong].
  - case_decide as Hw; [|symmetry; apply app_nil_r].
    destruct Hw as [H _]. lia.
  - destruct (decide (valid_integer (part (Split ":" line) 0))) as [H0|H0].
    + destruct (decide (valid_integer (part (Split ":" line) 1))) as [H1|H1].
      * case_decide as Hw; [reflexivity|].
        exfalso. apply Hw. split; [lia|]. split; assumption.
      * case_decide as Hw; [|symmetry; apply app_nil_r].
        destruct Hw as (_ & _ & H). contradiction.
    + case_decide as Hw; [|symmetry; apply app_nil_r].
      destruct Hw as (_ & H & _). contradiction.
Qed.

Lemma parse_loop_spec lines : forall parameters,
  fold_left parse_step lines parameters
  = parameters ++ (entry_of_line <$> filter well_formed lines).
Proof.
  induction lines as [|line lines IH]; intros parameters; simpl.
  - symmetry. apply app_nil_r.
  - rewrite IH, parse_step_spec, <- app_assoc. f_equal.
    rewrite filter_cons. destruct (decide (well_formed line)); reflexivity.
Qed.

End Parser.



(** ** Positioned writes *)

Section Writes.

Lemma write_at_inside content pos data k b :
  data !! k = Some b -> write_at content pos data !! (pos + k)%nat = Some b.
Proof.
  intros Hk. unfold write_at. destruct data as [|d0 ds]; [discriminate|].
  set (data := d0 :: ds) in *.
  assert (Hlen : length (take pos content
                         ++ replicate (pos - length content) Byte.x00) = pos).
  { rewrite length_app, length_take, length_replicate. lia. }
  rewrite app_assoc, lookup_app_r by lia.
  rewrite Hlen. replace (pos + k - pos)%nat with k by lia.
  rewrite lookup_app_l; [exact Hk|]. apply lookup_lt_Some in Hk. exact Hk.
Qed.

Lemma write_at_outside content pos data p b :
  content !! p = Some b -> (p < pos \/ pos + length data <= p)%nat ->
  write_at content pos data !! p = Some b.
Proof.
  intros Hp Hout. unfold write_at. destruct data as [|d0 ds]; [exact Hp|].
  set (data := d0 :: ds) in *.
  pose proof (lookup_lt_Some _ _ _ Hp) as Hlt.
  destruct Hout as [Hbefore|Hafter].
  - rewrite lookup_app_l by (rewrite length_take; lia).
    rewrite lookup_take_lt by lia. exact Hp.
  - assert (Hlen : length (take pos content
                           ++ replicate (pos - length content) Byte.x00) = pos).
    { rewrite length_app, length_take, length_replicate. lia. }
    rewrite app_assoc, lookup_app_r by lia. rewrite Hlen.
    rewrite lookup_app_r by lia. rewrite lookup_drop. rewrite <- Hp. f_equal. lia.
Qed.

Lemma holds_at_written content pos data :
  holds_at (write_at content pos data) pos data.
Proof. intros k b Hk. apply write_at_inside. exact Hk. Qed.

Lemma holds_at_kept content pos data pos' data' :
  holds_at content pos data ->
  (pos' + length data' <= pos \/ pos + length data <= pos')%nat ->
  holds_at (write_at content pos' data') pos data.
Proof.
  intros H Hapart k b Hk. apply write_at_outside; [apply H; exact Hk|].
  apply lookup_lt_Some in Hk. lia.
Qed.

End Writes.

(** ** One goroutine *)

Section Task.

Context (env : FetchEnv) (r : RangeDownload) (outputFile : string).

(** What [downloadRange] may do to the files: nothing, or one positioned
    write of the first bytes of the response at [r.Start]. *)
Lemma downloadRange_files s :
  files (downloadRange env r outputFile s).1 = files s \/
  exists resp content data,
    do_result env = inr resp /\ files s !! outputFile = Some content /\
    0 <= Start r /\ (length data <= length (Body resp))%nat /\
    files (downloadRange env r outputFile s).1
    = <[ outputFile := write_at content (Z.to_nat (Start r)) data ]> (files s).
Proof.
  unfold downloadRange. destruct (new_request_err env); [left; reflexivity|].
  destruct (do_result env) as [e|resp] eqn:Hdo; [left; reflexivity|].
  destruct (negb _); [left; reflexivity|].
  unfold write_range. simpl.
  destruct (open_err env); [left; reflexivity|].
  destruct (files s !! outputFile) as [content|] eqn:Hfile; [|left; reflexivity].
  destruct (Z.ltb_spec (Start r) 0) as [Hneg|Hpos]; [left; reflexivity|].
  destruct (seek_err env); [left; reflexivity|].
  destruct (copy_err env) as [[n e]|]; right.
  - exists resp, content, (take n (Body resp)).
    repeat split; try assumption; try reflexivity.
    rewrite length_take. lia.
  - exists resp, content, (Body resp).
    repeat split; try assumption; try reflexivity.
Qed.

(** A [downloadRange] that returns [nil] has written the whole response
    at [r.Start]. *)
Lemma downloadRange_nil s :
  (downloadRange env r outputFile s).2 = None ->
  exists resp content,
    do_result env = inr resp /\ files s !! outputFile = Some content /\
    0 <= Start r /\
    files (downloadRange env r outputFile s).1
    = <[ outputFile := write_at content (Z.to_nat (Start r)) (Body resp) ]> (files s).
Proof.
  unfold downloadRange. destruct (new_request_err env); [discriminate|].
  destruct (do_result env) as [e|resp] eqn:Hdo; [discriminate|].
  destruct (negb _); [discriminate|].
  unfold write_range. simpl.
  destruct (open_err env); [discriminate|].
  destruct (files s !! outputFile) as [content|] eqn:Hfile; [|discriminate].
  destruct (Z.ltb_spec (Start r) 0) as [Hneg|Hpos]; [discriminate|].
  destruct (seek_err env); [discriminate|].
  destruct (copy_err env) as [[n e]|]; [discriminate|]. intros _.
  exists resp, content. repeat split; try assumption; reflexivity.
Qed.

(** [downloadRange] adds fetch events to the log and nothing else. *)
Lemma downloadRange_log s :
  exists evs, log (downloadRange env r outputFile s).1 = log s ++ evs
              /\ Forall is_fetch_event evs.
Proof.
  unfold downloadRange.
  destruct (new_request_err env); [exists []; rewrite app_nil_r; split; [reflexivity|constructor]|].
  assert (Hreq : Forall is_fetch_event [EvRequest r]) by (repeat constructor).
  destruct (do_result env) as [e|resp]; [exists [EvRequest r]; split; [reflexivity|exact Hreq]|].
  destruct (negb _); [exists [EvRequest r]; split; [reflexivity|exact Hreq]|].
  unfold write_range. simpl.
  destruct (open_err env); [exists [EvRequest r]; split; [reflexivity|exact Hreq]|].
  destruct (files s !! outputFile) as [content|];
    [|exists [EvRequest r]; split; [reflexivity|exact Hreq]].
  destruct (Start r <? 0); [exists [EvRequest r]; split; [reflexivity|exact Hreq]|].
  destruct (seek_err env); [exists [EvRequest r]; split; [reflexivity|exact Hreq]|].
  destruct (copy_err env) as [[n e]|]; simpl; eexists [_; _];
    (split; [rewrite <- app_assoc; reflexivity | repeat constructor]).
Qed.

End Task.

(** ** All goroutines *)

Section Tasks.

Context (w : World) (ranges : list RangeDownload) (outputFile : string).

Lemma run_task_in st i r :
  ranges !! i = Some r ->
  run_task w ranges outputFile st i
  = ((downloadRange (fetch_env w i) r outputFile st.1).1,
     <[ i := (downloadRange (fetch_env w i) r outputFile st.1).2 ]> st.2).
Proof.
  intros Hi. unfold run_task. rewrite Hi.
  destruct (downloadRange _ _ _ _). reflexivity.
Qed.

Lemma run_task_out st i :
  ranges !! i = None -> run_task w ranges outputFile st i = st.
Proof. intros Hi. unfold run_task. rewrite Hi. reflexivity. Qed.

Lemma run_tasks_log order : forall st,
  exists evs,
    log (fold_left (run_task w ranges outputFile) order st).1 = log st.1 ++ evs
    /\ Forall is_fetch_event evs.
Proof.
  induction order as [|i order IH]; intros st; simpl.
  - exists []. rewrite app_nil_r. split; [reflexivity|constructor].
  - destruct (IH (run_task w ranges outputFile st i)) as (evs & Hlog & Hevs).
    destruct (ranges !! i) as [r|] eqn:Hi.
    + rewrite (run_task_in st i r Hi) in *. simpl in Hlog.
      destruct (downloadRange_log (fetch_env w i) r outputFile st.1)
        as (evs0 & Hlog0 & Hevs0).
      exists (evs0 ++ evs). rewrite Hlog, Hlog0, app_assoc.
      split; [reflexivity | apply Forall_app; split; assumption].
    + rewrite (run_task_out st i Hi) in *. exists evs. split; assumption.
Qed.

(** Every goroutine that is scheduled leaves an outcome. *)
Lemma run_tasks_outcomes order : forall st i,
  is_Some ((fold_left (run_task w ranges outputFile) order st).2 !! i) <->
  is_Some (st.2 !! i) \/ (i ∈ order /\ (i < length ranges)%nat).
Proof.
  induction order as [|j order IH]; intros st i; simpl.
  - split; [auto|]. intros [H|[H _]]; [exact H | inversion H].
  - rewrite IH. destruct (ranges !! j) as [r|] eqn:Hj.
    + rewrite (run_task_in st j r Hj). simpl.
      destruct (decide (i = j)) as [->|Hne].
      * rewrite lookup_insert_eq. split; [|intros _; left; eauto].
        intros _. right. split; [left|]. eapply lookup_lt_Some; eauto.
      * rewrite lookup_insert_ne by congruence. rewrite elem_of_cons.
        split; [tauto|]. intros [H|[[H|H] Hlt]]; [tauto | congruence | tauto].
    + rewrite (run_task_out st j Hj). rewrite elem_of_cons.
      split; [tauto|]. intros [H|[[->|H] Hlt]]; [tauto | | tauto].
      apply lookup_ge_None in Hj. lia.
Qed.

(** The bytes of a goroutine that returned [nil] stay where it wrote them,
    as long as no other goroutine writes over them. *)
Lemma run_tasks_written i r resp order :
  ranges !! i = Some r ->
  do_result (fetch_env w i) = inr resp ->
  writes_apart w ranges i r resp ->
  forall st,
    (st.2 !! i = Some None ->
     0 <= Start r /\ exists content, files st.1 !! outputFile = Some content
       /\ holds_at content (Z.to_nat (Start r)) (Body resp)) ->
    (fold_left (run_task w ranges outputFile) order st).2 !! i = Some None ->
    0 <= Start r /\ exists content,
      files (fold_left (run_task w ranges outputFile) order st).1 !! outputFile
      = Some content
      /\ holds_at content (Z.to_nat (Start r)) (Body resp).
Proof.
  intros Hi Hresp Hapart.
  induction order as [|j order IH]; intros st Hst; simpl; [exact Hst|].
  apply IH. clear IH.
  destruct (ranges !! j) as [rj|] eqn:Hj;
    [|rewrite (run_task_out st j Hj); exact Hst].
  rewrite (run_task_in st j rj Hj). simpl.
  destruct (decide (j = i)) as [->|Hne].
  - rewrite lookup_insert_eq. intros Hnil. injection Hnil as Hnil.
    rewrite Hi in Hj. injection Hj as <-.
    destruct (downloadRange_nil _ _ _ _ Hnil) as (resp' & content & Hdo & Hfile & Hpos & Hfiles).
    rewrite Hresp in Hdo. injection Hdo as <-.
    split; [exact Hpos|]. rewrite Hfiles, lookup_insert_eq.
    eexists. split; [reflexivity | apply holds_at_written].
  - rewrite lookup_insert_ne by congruence. intros Hdone.
    destruct (Hst Hdone) as (Hpos & content & Hfile & Hholds).
    split; [exact Hpos|].
    destruct (downloadRange_files (fetch_env w j) rj outputFile st.1)
      as [Hsame|(respj & content' & data & Hdo & Hfile' & Hposj & Hlen & Hfiles)].
    + rewrite Hsame. exists content. split; assumption.
    + rewrite Hfile in Hfile'. injection Hfile' as <-.
      rewrite Hfiles, lookup_insert_eq. eexists. split; [reflexivity|].
      apply holds_at_kept; [exact Hholds|].
      destruct (Hapart j rj respj Hne Hj Hdo); lia.
Qed.

Lemma fetch_all_unfold s :
  fetch_all w ranges outputFile s
  = let st := fold_left (run_task w ranges outputFile) (run_order w) (s, ∅) in
    (st.1, st.2, report (omap (sent ranges st.2) (send_order w))).
Proof. unfold fetch_all. destruct (fold_left _ _ _). reflexivity. Qed.

End Tasks.

(** ** The report *)

Lemma report_nil errs : report errs = None <-> errs = [].
Proof.
  unfold report. destruct errs as [|e errs]; simpl; [tauto|].
  split; discriminate.
Qed.



(** ** The maximum of the ends *)

Lemma maxEnd_loop ranges : forall m,
  m <= fold_left maxEnd_step ranges m
  /\ (forall r, r ∈ ranges -> End_ r <= fold_left maxEnd_step ranges m)
  /\ (fold_left maxEnd_step ranges m = m
      \/ exists r, r ∈ ranges /\ End_ r = fold_left maxEnd_step ranges m).
Proof.
  induction ranges as [|r ranges IH]; intros m; simpl.
  - split; [lia|]. split; [intros r Hr; inversion Hr | left; reflexivity].
  - destruct (IH (maxEnd_step m r)) as (Hge & Hall & Hin).
    assert (Hstep : m <= maxEnd_step m r /\ End_ r <= maxEnd_step m r
                    /\ (maxEnd_step m r = m \/ maxEnd_step m r = End_ r)).
    { unfold maxEnd_step. destruct (Z.gtb_spec (End_ r) m); lia. }
    split; [lia|]. split.
    + intros r' Hr'. apply elem_of_cons in Hr' as [->|Hr']; [lia | auto].
    + destruct Hin as [Heq|(r' & Hr' & Heq)].
      * destruct Hstep as (_ & _ & [Hm|Hr]).
        -- left. congruence.
        -- right. exists r. split; [left | congruence].
      * right. exists r'. split; [right; exact Hr' | exact Heq].
Qed.

(** ** The transfer orchestrator: claims *)



(** The run of the sample world: the refused range is reported alone, with
    its bounds, and the two other ranges are in the file. *)
Lemma one_refused_run :
  let after := downloadRanges one_refused "https://host/gfs" three_ranges
                 "out.grib2" no_files in
  after.2 = Some (EMany 1 [ERange 4 5 (EStatus 404)])
  /\ files after.1 !! "out.grib2"%string
     = Some [ Byte.x41; Byte.x42; Byte.x00; Byte.x00; Byte.x00; Byte.x00;
              Byte.x00; Byte.x00; Byte.x43; Byte.x44 ].
Proof. split; vm_compute; reflexivity. Qed.

(** C7 (amended).  downloadRanges first creates the destination file and
    asks for its truncation to maxEnd + 1 bytes, where maxEnd is the
    largest End of the plan, or 0 when the plan is empty or has no positive
    End.  When the create or the truncation fails, downloadRanges returns
    that error and no request has been made; when they succeed the file
    holds exactly maxEnd + 1 zero bytes, and every event of the fetch phase
    comes after the create and the truncation. *)
Theorem downloadRanges_preallocates_first w url ranges outputFile s :
  Forall (fun r => Int64.in_range (End_ r)) ranges ->
  (forall r, r ∈ ranges -> End_ r <= maxEnd ranges)
  /\ 0 <= maxEnd ranges
  /\ (maxEnd ranges = 0 \/ exists r, r ∈ ranges /\ End_ r = maxEnd ranges)
  /\ match preallocate w ranges outputFile s with
     | (s1, Some e) =>
         downloadRanges w url ranges outputFile s = (s1, Some e)
         /\ (log s1 = log s ++ [EvCreate outputFile]
             \/ log s1 = log s ++ [EvCreate outputFile;
                                   EvTruncate outputFile
                                     (Int64.add (maxEnd ranges) 1)])
     | (s1, None) =>
         files s1 !! outputFile
         = Some (replicate (Z.to_nat (maxEnd ranges + 1)) Byte.x00)
         /\ log s1 = log s ++ [EvCreate outputFile;
                               EvTruncate outputFile (maxEnd ranges + 1)]
         /\ exists evs,
              log (downloadRanges w url ranges outputFile s).1 = log s1 ++ evs
              /\ Forall is_fetch_event evs
     end.
Proof.
  intros Hends.
  destruct (maxEnd_loop ranges 0) as (Hnonneg & Hall & Hin).
  fold (maxEnd ranges) in *.
  split; [exact Hall|]. split; [exact Hnonneg|]. split; [exact Hin|].
  assert (Htop : maxEnd ranges <= Int64.max_int).
  { destruct Hin as [H0|(r & Hr & <-)]; [rewrite H0; int64_consts; lia|].
    rewrite Forall_forall in Hends. apply (Hends r Hr). }
  unfold downloadRanges, preallocate.
  destruct (create_err w) as [e|].
  { split; [reflexivity | left; reflexivity]. }
  destruct (Z.ltb_spec (Int64.add (maxEnd ranges) 1) 0) as [Hneg|Hpos].
  { split; [reflexivity|]. right. unfold emit, set_file. simpl.
    rewrite <- app_assoc. reflexivity. }
  destruct (truncate_err w) as [e|].
  { split; [reflexivity|]. right. unfold emit, set_file. simpl.
    rewrite <- app_assoc. reflexivity. }
  assert (Hsize : Int64.add (maxEnd ranges) 1 = maxEnd ranges + 1).
  { destruct (Z.eq_dec (maxEnd ranges) Int64.max_int) as [Heq|Hne].
    - rewrite Heq in Hpos. vm_compute in Hpos. exfalso. apply Hpos. reflexivity.
    - apply add_exact. int64_consts. lia. }
  rewrite Hsize. split; [apply lookup_insert_eq|].
  split. { unfold emit, set_file. simpl. rewrite <- app_assoc. reflexivity. }
  rewrite fetch_all_unfold. cbv zeta. cbn [fst snd].
  apply (run_tasks_log w ranges outputFile (run_order w)).
Qed.

Lemma downloadRanges_preallocates_first_witness :
  Forall (fun r => Int64.in_range (End_ r)) three_ranges
  /\ maxEnd three_ranges = 9
  /\ files (preallocate one_refused three_ranges "out.grib2" no_files).1
       !! "out.grib2"%string
     = Some (replicate 10 Byte.x00).
Proof.
  assert (H : Forall (fun r => Int64.in_range (End_ r)) three_ranges).
  { unfold three_ranges.
    repeat (constructor; [simpl; int64_consts; lia|]). constructor. }
  split; [exact H|]. split; [reflexivity|].
  pose proof (downloadRanges_preallocates_first one_refused "https://host/gfs"
                three_ranges "out.grib2" no_files H) as (_ & _ & _ & Hpre).
  destruct (preallocate one_refused three_ranges "out.grib2" no_files)
    as [s1 [e|]] eqn:Hrun.
  - vm_compute in Hrun. discriminate.
  - destruct Hpre as (Hfile & _). exact Hfile.
Defined.

(** C7 as stated fails: the plan of an index with two entries at offset 0
    is the one range [0,-1], whose largest End is -1, and the file gets 1
    byte, not 0. *)
Lemma negative_end_one_byte :
  ~ (forall w ranges outputFile s s1 m,
       m ∈ (End_ <$> ranges) -> (forall r, r ∈ ranges -> End_ r <= m) ->
       preallocate w ranges outputFile s = (s1, None) ->
       exists content, files s1 !! outputFile = Some content
                       /\ Z.of_nat (length content) = m + 1).
Proof.
  intros H.
  destruct (H quiet (generateRanges twin_zero_entries all_levels_of_A).1
              "out.grib2"%string no_files
              (preallocate quiet
                 (generateRanges twin_zero_entries all_levels_of_A).1
                 "out.grib2" no_files).1
              (-1))
    as (content & Hfile & Hlen).
  - vm_compute. left.
  - intros r Hr. vm_compute in Hr. apply list_elem_of_singleton in Hr.
    subst r. simpl. lia.
  - vm_compute. reflexivity.
  - vm_compute in Hfile. injection Hfile as <-. simpl in Hlen. lia.
Qed.

(** C10.  With an empty plan, and a file system that lets the file be
    created and truncated, downloadRanges leaves a destination file of
    exactly one byte, makes no request and returns nil; main calls it
    whatever the plan, so a run of main whose plan is empty ends with that
    one-byte file and reports completion. *)
Theorem empty_plan_one_byte_file env config parameters s s0 :
  create_err (world env) = None ->
  truncate_err (world env) = None ->
  downloadFile (idx_get env) (IdxURL config) (base_name env) s = (s0, None) ->
  parseIDXFile (idx_open env) (base_name env) = (parameters, None) ->
  (generateRanges parameters (Parameters config)).1 = [] ->
  let dest := TrimSuffix (base_name env) ".idx" in
  let after s :=
    {| files := <[ dest := [Byte.x00] ]> (files s);
       log := log s ++ [EvCreate dest; EvTruncate dest 1] |} in
  (forall url s, downloadRanges (world env) url [] dest s = (after s, None))
  /\ main env config s = (after s0, Completed [] 0).
Proof.
  intros Hcreate Htrunc Hidx Hparse Hplan dest after.
  assert (Hdl : forall url s,
            downloadRanges (world env) url [] dest s = (after s, None)).
  { intros url s'. unfold downloadRanges, preallocate.
    rewrite Hcreate, Htrunc. change (maxEnd []) with 0.
    change (Int64.add 0 1) with 1. change (1 <? 0) with false.
    cbv iota. rewrite fetch_all_unfold.
    assert (Hidle : forall order st,
              fold_left (run_task (world env) [] dest) order st = st).
    { induction order as [|i order IH]; intros st; simpl; [reflexivity|].
      rewrite run_task_out by apply lookup_nil. apply IH. }
    rewrite Hidle. cbv zeta. cbn [fst snd].
    assert (Hsent : forall order,
              omap (sent [] (∅ : Outcomes)) order = []).
    { induction order as [|i order IH]; [reflexivity|]. exact IH. }
    rewrite Hsent. unfold report, after, emit, set_file. simpl.
    rewrite insert_insert_eq, <- app_assoc. reflexivity. }
  split; [exact Hdl|].
  unfold main. rewrite Hidx, Hparse.
  destruct (generateRanges parameters (Parameters config)) as [ranges err] eqn:Hgen.
  simpl in Hplan. subst ranges.
  assert (err = None) as -> by (unfold generateRanges in Hgen; congruence).
  fold dest. rewrite Hdl. reflexivity.
Qed.

Lemma empty_plan_one_byte_file_witness :
  let parameters :=
    (parseIDXFile (idx_open sample_env) (base_name sample_env)).1 in
  let s0 :=
    (downloadFile (idx_get sample_env) (IdxURL sample_config)
       (base_name sample_env) no_files).1 in
  create_err (world sample_env) = None
  /\ truncate_err (world sample_env) = None
  /\ downloadFile (idx_get sample_env) (IdxURL sample_config)
       (base_name sample_env) no_files = (s0, None)
  /\ parseIDXFile (idx_open sample_env) (base_name sample_env)
     = (parameters, None)
  /\ (generateRanges parameters (Parameters sample_config)).1 = []
  /\ main sample_env sample_config no_files
     = ({| files := {[ "gfs.t00z.pgrb2.0p25.f000"%string := [Byte.x00];
                       "gfs.t00z.pgrb2.0p25.f000.idx"%string := [] ]};
           log := [ EvCreate "gfs.t00z.pgrb2.0p25.f000";
                    EvTruncate "gfs.t00z.pgrb2.0p25.f000" 1 ] |},
        Completed [] 0).
Proof.
  intros parameters s0.
  assert (H3 : downloadFile (idx_get sample_env) (IdxURL sample_config)
                 (base_name sample_env) no_files = (s0, None)) by reflexivity.
  assert (H4 : parseIDXFile (idx_open sample_env) (base_name sample_env)
               = (parameters, None)) by reflexivity.
  assert (H5 : (generateRanges parameters (Parameters sample_config)).1 = [])
    by (vm_compute; reflexivity).
  split; [reflexivity | split; [reflexivity | split; [exact H3|]]].
  split; [exact H4 | split; [exact H5|]].
  rewrite (proj2 (empty_plan_one_byte_file sample_env sample_config parameters
                    no_files s0 eq_refl eq_refl H3 H4 H5)).
  vm_compute. reflexivity.
Defined.

(** ** The range selector: further properties *)

Lemma lookup_consecutive {A : Type} (R : A -> A -> Prop) (l : list A) :
  (forall i a b, l !! i = Some a -> l !! S i = Some b -> R a b) ->
  consecutive R l.
Proof.
  induction l as [|x l IH]; intros H; simpl; [exact I|].
  destruct l as [|y l]; [exact I|]. split.
  - apply (H 0%nat); reflexivity.
  - apply IH. intros i a b Ha Hb. apply (H (S i)); assumption.
Qed.

Lemma consecutive_impl {A : Type} (R R' : A -> A -> Prop) (l : list A) :
  (forall a b, R a b -> R' a b) -> consecutive R l -> consecutive R' l.
Proof.
  intros HR. induction l as [|x l IH]; simpl; [tauto|].
  destruct l as [|y l]; [tauto|]. intros [Hxy Hrest]. split; auto.
Qed.

(** Every byte of a merged range is a byte of an input range. *)
Lemma merge_loop_exact rest : forall d l r' x,
  consecutive feeds (l :: rest) ->
  r' ∈ fold_left merge_step rest (d ++ [l]) -> covers r' x ->
  exists r, r ∈ d ++ l :: rest /\ covers r x.
Proof.
  induction rest as [|c rest IH]; intros d l r' x Hin Hr Hx; simpl in Hr.
  - exists r'. split; assumption.
  - rewrite merge_step_snoc in Hr. unfold merge_last in Hr.
    assert (Hlc : feeds l c) by (simpl in Hin; tauto).
    rewrite (feeds_add_exact l c Hlc) in Hr.
    destruct (Z.leb_spec (Start c) (End_ l + 1)) as [Hle|Hgt].
    + destruct (Z.gtb_spec (End_ c) (End_ l)) as [Hext|Hkeep].
      * destruct (IH d _ r' x (feeds_extend l c rest Hin ltac:(lia)) Hr Hx)
          as (r & Hr0 & Hx0).
        apply elem_of_app in Hr0 as [Hr0|Hr0].
        { exists r. split; [apply elem_of_app; left; exact Hr0 | exact Hx0]. }
        apply elem_of_cons in Hr0 as [->|Hr0].
        { unfold covers in *. simpl in Hx0.
          destruct (Z.le_gt_cases x (End_ l)).
          - exists l. split; [apply elem_of_app; right; left | lia].
          - exists c. split; [apply elem_of_app; right; right; left | lia]. }
        exists r. split; [|exact Hx0].
        apply elem_of_app. right. right. right. exact Hr0.
      * destruct (IH d l r' x (feeds_skip l c rest Hin) Hr Hx) as (r & Hr0 & Hx0).
        exists r. split; [|exact Hx0].
        apply elem_of_app in Hr0 as [Hr0|Hr0]; apply elem_of_app; [left; exact Hr0|].
        right. apply elem_of_cons in Hr0 as [->|Hr0]; [left | right; right; exact Hr0].
    + change (d ++ [l; c]) with (d ++ [l] ++ [c]) in Hr. rewrite app_assoc in Hr.
      destruct (IH _ c r' x (consecutive_tail _ _ _ Hin) Hr Hx) as (r & Hr0 & Hx0).
      exists r. split; [|exact Hx0]. rewrite <- app_assoc in Hr0. exact Hr0.
Qed.

Lemma merge_exact ranges r' x :
  consecutive feeds ranges -> r' ∈ merge ranges -> covers r' x ->
  exists r, r ∈ ranges /\ covers r x.
Proof.
  intros Hin Hr Hx. unfold merge in Hr.
  destruct (1 <? Z.of_nat (length ranges)).
  - destruct ranges as [|r0 rest]; [inversion Hr|].
    apply (merge_loop_exact rest [] r0 r' x); assumption.
  - exists r'. split; assumption.
Qed.

(** X1.  On an index whose offsets are non-negative and do not decrease,
    every byte of a range that generateRanges returns is a byte of the
    provisional range of an included entry: merging bridges no gap. *)
Theorem merged_bytes_are_selected parameters requestedParams r' x :
  nonneg_offsets parameters ->
  nondecreasing_offsets parameters ->
  r' ∈ (generateRanges parameters requestedParams).1 ->
  covers r' x ->
  exists i e, parameters !! i = Some e /\ included requestedParams e
              /\ covers (entry_range parameters i e) x.
Proof.
  intros Hnonneg Hmono Hr Hx. simpl in Hr.
  destruct (merge_exact _ r' x
              (provisional_feeds parameters requestedParams Hnonneg Hmono) Hr Hx)
    as (r & Hr0 & Hx0).
  apply elem_of_provisional in Hr0 as (i & e & He & Hinc & ->).
  exists i, e. auto.
Qed.

Lemma scenario_invariant :
  nonneg_offsets scenario_entries /\ nondecreasing_offsets scenario_entries.
Proof.
  split.
  - unfold nonneg_offsets, scenario_entries.
    repeat (constructor; [simpl; int64_consts; lia|]). constructor.
  - unfold nondecreasing_offsets. simpl. lia.
Defined.

Lemma merged_bytes_are_selected_witness :
  nonneg_offsets scenario_entries
  /\ nondecreasing_offsets scenario_entries
  /\ mkRange 0 999 ∈ (generateRanges scenario_entries all_levels_of_A).1
  /\ covers (mkRange 0 999) 7
  /\ exists i e, scenario_entries !! i = Some e /\ included all_levels_of_A e
                 /\ covers (entry_range scenario_entries i e) 7.
Proof.
  destruct scenario_invariant as [H1 H2].
  assert (H3 : mkRange 0 999 ∈ (generateRanges scenario_entries all_levels_of_A).1)
    by (vm_compute; left).
  assert (H4 : covers (mkRange 0 999) 7) by (unfold covers; simpl; lia).
  split; [exact H1 | split; [exact H2 | split; [exact H3 | split; [exact H4|]]]].
  exact (merged_bytes_are_selected scenario_entries all_levels_of_A
           (mkRange 0 999) 7 H1 H2 H3 H4).
Defined.

(** X2.  On an index whose offsets are non-negative and do not decrease,
    no byte of the range of an entry that is not included lies in a range
    that generateRanges returns. *)
Theorem excluded_bytes_are_not_fetched parameters requestedParams i e x r' :
  nonneg_offsets parameters ->
  nondecreasing_offsets parameters ->
  parameters !! i = Some e ->
  ~ included requestedParams e ->
  covers (entry_range parameters i e) x ->
  r' ∈ (generateRanges parameters requestedParams).1 ->
  ~ covers r' x.
Proof.
  intros Hnonneg Hmono He Hexc Hx Hr Hx'. simpl in Hr.
  destruct (merge_exact _ r' x
              (provisional_feeds parameters requestedParams Hnonneg Hmono) Hr Hx')
    as (r & Hr0 & Hx0).
  apply elem_of_provisional in Hr0 as (j & ej & Hej & Hinc & ->).
  assert (Hne : j <> i).
  { intros ->. rewrite He in Hej. injection Hej as <-. contradiction. }
  unfold covers in *.
  destruct (Nat.lt_trichotomy j i) as [Hlt|[Heq|Hgt]]; [|contradiction|].
  - destruct (lookup_lt_is_Some_2 parameters (S j)) as [next Hnext].
    { apply lookup_lt_Some in He. lia. }
    rewrite (entry_range_inner parameters Hnonneg j ej next Hej Hnext) in Hx0.
    pose proof (offsets_monotone parameters Hmono i (S j) next e ltac:(lia) Hnext He).
    simpl in *. lia.
  - destruct (lookup_lt_is_Some_2 parameters (S i)) as [next Hnext].
    { apply lookup_lt_Some in Hej. lia. }
    rewrite (entry_range_inner parameters Hnonneg i e next He Hnext) in Hx.
    pose proof (offsets_monotone parameters Hmono j (S i) next ej ltac:(lia) Hnext Hej).
    simpl in *. lia.
Qed.

Lemma excluded_bytes_are_not_fetched_witness :
  nonneg_offsets scenario_entries
  /\ nondecreasing_offsets scenario_entries
  /\ scenario_entries !! 1%nat = Some (entry 1000 "B" "sfc")
  /\ ~ included all_levels_of_A (entry 1000 "B" "sfc")
  /\ covers (entry_range scenario_entries 1 (entry 1000 "B" "sfc")) 1500
  /\ mkRange 2500 1051076 ∈ (generateRanges scenario_entries all_levels_of_A).1
  /\ ~ covers (mkRange 2500 1051076) 1500.
Proof.
  destruct scenario_invariant as [H1 H2].
  assert (H3 : scenario_entries !! 1%nat = Some (entry 1000 "B" "sfc"))
    by reflexivity.
  assert (H4 : ~ included all_levels_of_A (entry 1000 "B" "sfc")).
  { apply (bool_decide_unpack _). vm_compute. exact I. }
  assert (H5 : covers (entry_range scenario_entries 1 (entry 1000 "B" "sfc")) 1500).
  { unfold covers. vm_compute. split; discriminate. }
  assert (H6 : mkRange 2500 1051076
               ∈ (generateRanges scenario_entries all_levels_of_A).1)
    by (vm_compute; right; left).
  split; [exact H1 | split; [exact H2 | split; [exact H3|]]].
  split; [exact H4 | split; [exact H5 | split; [exact H6|]]].
  exact (excluded_bytes_are_not_fetched scenario_entries all_levels_of_A
           1 (entry 1000 "B" "sfc") 1500 (mkRange 2500 1051076)
           H1 H2 H3 H4 H5 H6).
Defined.

(** ** What merging keeps of its input, whatever the input *)

Lemma elem_of_middle {A : Type} (d rest : list A) (l a : A) :
  a ∈ d ++ l :: rest <-> a ∈ d \/ a = l \/ a ∈ rest.
Proof. rewrite elem_of_app, elem_of_cons. tauto. Qed.

Lemma merge_loop_bounds rest : forall d l r',
  r' ∈ fold_left merge_step rest (d ++ [l]) ->
  (exists a, a ∈ d ++ l :: rest /\ Start r' = Start a)
  /\ (exists b, b ∈ d ++ l :: rest /\ End_ r' = End_ b).
Proof.
  induction rest as [|c rest IH]; intros d l r' Hr; simpl in Hr.
  - split; exists r'; auto.
  - rewrite merge_step_snoc in Hr. unfold merge_last in Hr.
    destruct (Start c <=? Int64.add (End_ l) 1).
    + destruct (End_ c >? End_ l).
      * destruct (IH d _ r' Hr) as [(a & Ha & Hsa) (b & Hb & Heb)].
        apply elem_of_middle in Ha as [Ha|[->|Ha]];
          apply elem_of_middle in Hb as [Hb|[->|Hb]].
        all: split;
          [first [ exists a; split; [rewrite elem_of_app, !elem_of_cons; tauto | exact Hsa]
                 | exists l; split; [rewrite elem_of_app, !elem_of_cons; tauto | exact Hsa] ]
          |first [ exists b; split; [rewrite elem_of_app, !elem_of_cons; tauto | exact Heb]
                 | exists c; split; [rewrite elem_of_app, !elem_of_cons; tauto | exact Heb] ]].
      * destruct (IH d l r' Hr) as [(a & Ha & Hsa) (b & Hb & Heb)].
        rewrite elem_of_app, elem_of_cons in Ha, Hb.
        split; [exists a | exists b]; (split; [|assumption]);
          rewrite elem_of_app, !elem_of_cons; tauto.
    + change (d ++ [l; c]) with (d ++ [l] ++ [c]) in Hr. rewrite app_assoc in Hr.
      destruct (IH _ c r' Hr) as [(a & Ha & Hsa) (b & Hb & Heb)].
      rewrite <- app_assoc in Ha, Hb. split; [exists a | exists b]; auto.
Qed.

Lemma merge_loop_length rest : forall d l,
  (1 <= length (fold_left merge_step rest (d ++ [l]))
   <= length d + 1 + length rest)%nat.
Proof.
  induction rest as [|c rest IH]; intros d l; simpl.
  - rewrite length_app. simpl. lia.
  - rewrite merge_step_snoc. unfold merge_last.
    destruct (Start c <=? Int64.add (End_ l) 1).
    + destruct (End_ c >? End_ l); [specialize (IH d {| Start := Start l; End_ := End_ c |})
                                   | specialize (IH d l)]; lia.
    + change (d ++ [l; c]) with (d ++ [l] ++ [c]). rewrite app_assoc.
      specialize (IH (d ++ [l]) c). rewrite length_app in IH. simpl in IH. lia.
Qed.

Lemma merge_bounds ranges r' :
  r' ∈ merge ranges ->
  (exists a, a ∈ ranges /\ Start r' = Start a)
  /\ (exists b, b ∈ ranges /\ End_ r' = End_ b).
Proof.
  intros Hr. unfold merge in Hr. destruct (1 <? Z.of_nat (length ranges)).
  - destruct ranges as [|r0 rest]; [inversion Hr|].
    apply (merge_loop_bounds rest [] r0 r' Hr).
  - split; exists r'; auto.
Qed.

Lemma merge_length ranges :
  (length (merge ranges) <= length ranges)%nat
  /\ (merge ranges = [] <-> ranges = []).
Proof.
  unfold merge. destruct (1 <? Z.of_nat (length ranges)); [|split; [lia|tauto]].
  destruct ranges as [|r0 rest]; [split; [lia|tauto]|].
  pose proof (merge_loop_length rest [] r0) as Hlen. simpl in *.
  split; [lia|]. split; [|discriminate].
  intros Hnil. rewrite Hnil in Hlen. simpl in Hlen. lia.
Qed.

Lemma length_omap_le {A B : Type} (f : A -> option B) (l : list A) :
  (length (omap f l) <= length l)%nat.
Proof.
  induction l as [|x l IH]; simpl; [lia|].
  unfold omap in IH. destruct (f x); simpl; lia.
Qed.

(** X3.  Whatever the index and the request: generateRanges returns no
    more ranges than there are included entries; every range it returns
    starts at the offset of an included entry and ends where the
    provisional range of an included entry ends; and the plan is empty only
    when no entry is included. *)
Theorem plan_made_of_selected_bounds parameters requestedParams :
  (length (generateRanges parameters requestedParams).1
   <= length (provisional parameters requestedParams) <= length parameters)%nat
  /\ (forall r', r' ∈ (generateRanges parameters requestedParams).1 ->
        (exists i e, parameters !! i = Some e /\ included requestedParams e
                     /\ Start r' = Offset e)
        /\ (exists i e, parameters !! i = Some e /\ included requestedParams e
                        /\ End_ r' = End_ (entry_range parameters i e)))
  /\ ((generateRanges parameters requestedParams).1 = [] <->
      forall e, e ∈ parameters -> ~ included requestedParams e).
Proof.
  simpl. split; [|split].
  - split; [apply merge_length|].
    rewrite provisional_spec.
    etransitivity; [apply length_omap_le|]. rewrite length_imap. lia.
  - intros r' Hr. destruct (merge_bounds _ r' Hr) as [(a & Ha & Hsa) (b & Hb & Heb)].
    apply elem_of_provisional in Ha as (i & e & He & Hinc & ->).
    apply elem_of_provisional in Hb as (j & e' & He' & Hinc' & ->).
    split; [exists i, e | exists j, e']; auto.
  - rewrite (proj2 (merge_length _)). split.
    + intros Hnil e He Hinc. apply list_elem_of_lookup_1 in He as [i He].
      assert (Hin : entry_range parameters i e
                    ∈ provisional parameters requestedParams).
      { apply elem_of_provisional. exists i, e. auto. }
      rewrite Hnil in Hin. inversion Hin.
    + apply provisional_nil.
Qed.

(** The ends of the ranges of a plan are int64 values. *)
Lemma plan_ends_in_range parameters requestedParams r' :
  r' ∈ (generateRanges parameters requestedParams).1 -> Int64.in_range (End_ r').
Proof.
  intros Hr. simpl in Hr. destruct (merge_bounds _ r' Hr) as [_ (b & Hb & ->)].
  apply elem_of_provisional in Hb as (i & e & _ & _ & ->).
  unfold entry_range. simpl.
  destruct (parameters !! S i); apply wrap_in_range.
Qed.

(** ** Selecting every entry *)

Lemma merge_loop_chained rest : forall d l rl,
  consecutive chained (l :: rest) ->
  last (l :: rest) = Some rl ->
  fold_left merge_step rest (d ++ [l])
  = d ++ [ {| Start := Start l; End_ := End_ rl |} ].
Proof.
  induction rest as [|c rest IH]; intros d l rl Hch Hlast; simpl.
  - injection Hlast as <-. destruct l. reflexivity.
  - rewrite merge_step_snoc. unfold merge_last.
    destruct Hch as [(Hstart & Hends & Hlo & Hhi) Hrest].
    rewrite add_exact by (int64_consts; lia).
    destruct (Z.leb_spec (Start c) (End_ l + 1)) as [_|Hgt]; [|lia].
    rewrite last_cons_cons in Hlast.
    destruct (Z.gtb_spec (End_ c) (End_ l)) as [Hext|Hkeep].
    + destruct rest as [|r rest].
      * simpl in *. injection Hlast as <-. reflexivity.
      * rewrite (IH d {| Start := Start l; End_ := End_ c |} rl); [reflexivity| |].
        -- destruct Hrest as [Hcr Hrest].
           split; [|exact Hrest]. unfold chained in *. simpl. lia.
        -- rewrite last_cons_cons in *. exact Hlast.
    + assert (Heq : End_ c = End_ l) by lia.
      destruct rest as [|r rest].
      * simpl in *. injection Hlast as <-. rewrite Heq. destruct l. reflexivity.
      * apply IH.
        -- destruct Hrest as [Hcr Hrest].
           split; [|exact Hrest]. unfold chained in *. lia.
        -- rewrite last_cons_cons in *. exact Hlast.
Qed.

Lemma omap_all_some {A B : Type} (f : A -> option B) (g : A -> B) (l : list A) :
  (forall x, x ∈ l -> f x = Some (g x)) -> omap f l = g <$> l.
Proof.
  induction l as [|x l IH]; intros H; [reflexivity|].
  simpl. rewrite (H x) by left. simpl. f_equal.
  apply IH. intros y Hy. apply H. right. exact Hy.
Qed.

Lemma provisional_all parameters requestedParams :
  (forall e, e ∈ parameters -> included requestedParams e) ->
  provisional parameters requestedParams
  = imap (entry_range parameters) parameters.
Proof.
  intros Hall. rewrite provisional_spec.
  rewrite (omap_all_some _ (fun ie => entry_range parameters ie.1 ie.2)).
  - rewrite fmap_imap. apply imap_ext. reflexivity.
  - intros [i e] Hin. apply elem_of_lookup_imap in Hin as (i' & e' & Heq & He).
    injection Heq as -> ->. unfold select_entry. simpl.
    destruct (decide (included requestedParams e')) as [_|Hn]; [reflexivity|].
    exfalso. apply Hn, Hall. eapply list_elem_of_lookup_2. exact He.
Qed.

Lemma last_entry_range parameters i e :
  nonneg_offsets parameters ->
  parameters !! i = Some e -> parameters !! S i = None ->
  Offset e + 1048576 <= Int64.max_int ->
  entry_range parameters i e
  = {| Start := Offset e; End_ := Offset e + 1048576 |}.
Proof.
  intros Hnonneg He Hnone Hfit. unfold entry_range. rewrite Hnone. f_equal.
  pose proof (offset_bounds parameters Hnonneg i e He).
  apply add_exact. int64_consts. lia.
Qed.

Lemma last_is_final {A : Type} (l : list A) i x :
  l !! i = Some x -> l !! S i = None -> last l = Some x.
Proof.
  intros Hx Hnone. rewrite last_lookup, <- Hx. f_equal.
  apply lookup_lt_Some in Hx. apply lookup_ge_None in Hnone. lia.
Qed.

Lemma final_is_last {A : Type} (l : list A) x :
  last l = Some x ->
  l !! pred (length l) = Some x /\ l !! S (pred (length l)) = None.
Proof.
  intros Hlast. rewrite last_lookup in Hlast. split; [exact Hlast|].
  apply lookup_ge_None. apply lookup_lt_Some in Hlast. lia.
Qed.

(** The ranges of all the entries of an index follow each other without
    a gap. *)
Lemma all_ranges_chained parameters e_last :
  nonneg_offsets parameters ->
  nondecreasing_offsets parameters ->
  last parameters = Some e_last ->
  Offset e_last + 1048576 <= Int64.max_int ->
  consecutive chained (imap (entry_range parameters) parameters).
Proof.
  intros Hnonneg Hmono Hlast Hfit. apply lookup_consecutive.
  intros k a b Ha Hb. rewrite list_lookup_imap in Ha, Hb.
  destruct (parameters !! k) as [ek|] eqn:Hk; [|discriminate].
  destruct (parameters !! S k) as [ek1|] eqn:Hk1; [|discriminate].
  injection Ha as <-. injection Hb as <-.
  rewrite (entry_range_inner parameters Hnonneg k ek ek1 Hk Hk1).
  pose proof (offset_bounds parameters Hnonneg _ _ Hk1) as Hb1.
  destruct (parameters !! S (S k)) as [ek2|] eqn:Hk2.
  - rewrite (entry_range_inner parameters Hnonneg (S k) ek1 ek2 Hk1 Hk2).
    pose proof (offsets_monotone parameters Hmono (S (S k)) (S k) ek1 ek2
                  ltac:(lia) Hk1 Hk2).
    unfold chained. simpl. int64_consts. lia.
  - assert (ek1 = e_last) as ->.
    { pose proof (last_is_final parameters (S k) ek1 Hk1 Hk2). congruence. }
    rewrite (last_entry_range parameters (S k) e_last Hnonneg Hk1 Hk2 Hfit).
    unfold chained. simpl. int64_consts. lia.
Qed.

(** X4.  On an index whose offsets are non-negative and do not decrease,
    and whose last offset leaves room for the MiB, a request that includes
    every entry gives one range: from the offset of the first entry to
    1048576 bytes past the offset of the last. *)
Theorem select_all_one_range parameters requestedParams first e_last :
  nonneg_offsets parameters ->
  nondecreasing_offsets parameters ->
  (forall e, e ∈ parameters -> included requestedParams e) ->
  head parameters = Some first ->
  last parameters = Some e_last ->
  Offset e_last + 1048576 <= Int64.max_int ->
  (generateRanges parameters requestedParams).1
  = [ {| Start := Offset first; End_ := Offset e_last + 1048576 |} ].
Proof.
  intros Hnonneg Hmono Hall Hhead Hlast Hfit. simpl.
  rewrite (provisional_all _ _ Hall).
  pose proof (all_ranges_chained parameters e_last Hnonneg Hmono Hlast Hfit) as Hch.
  destruct (final_is_last parameters e_last Hlast) as [Hfin Hnone].
  assert (Hlast' : last (imap (entry_range parameters) parameters)
                   = Some {| Start := Offset e_last;
                             End_ := Offset e_last + 1048576 |}).
  { rewrite last_lookup, length_imap, list_lookup_imap, Hfin. simpl. f_equal.
    apply last_entry_range; assumption. }
  destruct parameters as [|e0 tail]; [discriminate|].
  injection Hhead as ->.
  destruct tail as [|e1 tail].
  - injection Hlast as <-.
    change (merge [entry_range [first] 0 first]
            = [ {| Start := Offset first; End_ := Offset first + 1048576 |} ]).
    rewrite (last_entry_range [first] 0 first Hnonneg eq_refl eq_refl Hfit).
    reflexivity.
  - set (P := first :: e1 :: tail) in *.
    change (imap (entry_range P) P)
      with (entry_range P 0 first :: imap (entry_range P ∘ S) (e1 :: tail)) in *.
    set (rest := imap (entry_range P ∘ S) (e1 :: tail)) in *.
    unfold merge.
    destruct (1 <? Z.of_nat (length (entry_range P 0 first :: rest))) eqn:Hlen.
    + exact (merge_loop_chained rest [] _ _ Hch Hlast').
    + apply Z.ltb_ge in Hlen. unfold rest in Hlen. simpl in Hlen. lia.
Qed.

Lemma select_all_one_range_witness :
  nonneg_offsets scenario_entries
  /\ nondecreasing_offsets scenario_entries
  /\ (forall e, e ∈ scenario_entries -> included all_levels_of_A_and_B e)
  /\ head scenario_entries = Some (entry 0 "A" "sfc")
  /\ last scenario_entries = Some (entry 2500 "A" "850mb")
  /\ Offset (entry 2500 "A" "850mb") + 1048576 <= Int64.max_int
  /\ (generateRanges scenario_entries all_levels_of_A_and_B).1
     = [ {| Start := Offset (entry 0 "A" "sfc");
            End_ := Offset (entry 2500 "A" "850mb") + 1048576 |} ].
Proof.
  destruct scenario_invariant as [H1 H2].
  assert (H3 : forall e, e ∈ scenario_entries ->
                 included all_levels_of_A_and_B e).
  { apply Forall_forall. apply (bool_decide_unpack _). vm_compute. exact I. }
  assert (H6 : Offset (entry 2500 "A" "850mb") + 1048576 <= Int64.max_int)
    by (simpl; int64_consts; lia).
  split; [exact H1 | split; [exact H2 | split; [exact H3|]]].
  split; [reflexivity | split; [reflexivity | split; [exact H6|]]].
  exact (select_all_one_range scenario_entries all_levels_of_A_and_B
           (entry 0 "A" "sfc") (entry 2500 "A" "850mb")
           H1 H2 H3 eq_refl eq_refl H6).
Defined.

(** ** The plan of an index with increasing offsets *)

Section IncreasingIndex.

Context (parameters : list GFSParameter) (requestedParams : Request).
Hypothesis Hnonneg : nonneg_offsets parameters.
Hypothesis Hinc : increasing_offsets parameters.
Hypothesis Hfit :
  forall e, last parameters = Some e -> Offset e + 1048576 <= Int64.max_int.

Lemma increasing_nondecreasing : nondecreasing_offsets parameters.
Proof.
  unfold nondecreasing_offsets. eapply consecutive_impl; [|exact Hinc].
  intros a b H. simpl in H. lia.
Qed.

Lemma provisional_proper :
  Forall proper (provisional parameters requestedParams).
Proof.
  apply Forall_forall. intros p Hp.
  apply elem_of_provisional in Hp as (i & e & He & _ & ->).
  pose proof (offset_bounds parameters Hnonneg i e He) as Hb.
  destruct (parameters !! S i) as [next|] eqn:Hnext.
  - rewrite (entry_range_inner parameters Hnonneg i e next He Hnext).
    pose proof (consecutive_lookup _ _ i e next Hinc He Hnext) as Hlt.
    unfold proper. simpl in *. lia.
  - rewrite (last_entry_range parameters i e Hnonneg He Hnext
               (Hfit e (last_is_final parameters i e He Hnext))).
    unfold proper. simpl. lia.
Qed.

Lemma plan_proper :
  Forall proper (generateRanges parameters requestedParams).1.
Proof. apply merge_proper, provisional_proper. Qed.

Lemma plan_separated :
  consecutive separated (generateRanges parameters requestedParams).1.
Proof.
  apply merge_separated, provisional_feeds;
    [exact Hnonneg | exact increasing_nondecreasing].
Qed.

End IncreasingIndex.

(** On ranges that are proper and in separated order the loop of [maxEnd]
    ends with the end of the last range. *)
Lemma maxEnd_loop_sorted L : forall r m rl,
  Forall proper (r :: L) -> consecutive separated (r :: L) ->
  m <= End_ r -> last (r :: L) = Some rl ->
  fold_left maxEnd_step (r :: L) m = End_ rl.
Proof.
  induction L as [|r2 L IH]; intros r m rl Hprop Hsep Hm Hlast.
  - injection Hlast as <-. simpl. unfold maxEnd_step.
    destruct (Z.gtb_spec (End_ r) m); lia.
  - rewrite last_cons_cons in Hlast.
    change (fold_left maxEnd_step (r :: r2 :: L) m)
      with (fold_left maxEnd_step (r2 :: L) (maxEnd_step m r)).
    apply Forall_cons in Hprop as [Hr Hprop].
    destruct Hsep as [[Hs Hg] Hsep].
    apply IH; try assumption.
    apply Forall_cons in Hprop as [[Hr2 _] _].
    unfold maxEnd_step. destruct (Z.gtb_spec (End_ r) m); lia.
Qed.

(** What a successful pre-allocation leaves. *)
Lemma preallocate_ok w ranges outputFile s s1 :
  Forall (fun r => Int64.in_range (End_ r)) ranges ->
  preallocate w ranges outputFile s = (s1, None) ->
  files s1 = <[ outputFile := replicate (Z.to_nat (maxEnd ranges + 1)) Byte.x00 ]>
               (files s)
  /\ log s1 = log s ++ [EvCreate outputFile;
                        EvTruncate outputFile (maxEnd ranges + 1)].
Proof.
  intros Hends. destruct (maxEnd_loop ranges 0) as (Hnonneg & Hall & Hin).
  fold (maxEnd ranges) in *.
  assert (Htop : maxEnd ranges <= Int64.max_int).
  { destruct Hin as [H0|(r & Hr & <-)]; [rewrite H0; int64_consts; lia|].
    rewrite Forall_forall in Hends. apply (Hends r Hr). }
  unfold preallocate. destruct (create_err w); [discriminate|].
  destruct (Z.ltb_spec (Int64.add (maxEnd ranges) 1) 0) as [Hneg|Hpos];
    [discriminate|].
  destruct (truncate_err w); [discriminate|].
  assert (Hsize : Int64.add (maxEnd ranges) 1 = maxEnd ranges + 1).
  { destruct (Z.eq_dec (maxEnd ranges) Int64.max_int) as [Heq|Hne].
    - rewrite Heq in Hpos. vm_compute in Hpos. exfalso. apply Hpos. reflexivity.
    - apply add_exact. int64_consts. lia. }
  rewrite Hsize. intros Heq. injection Heq as <-.
  unfold emit, set_file. simpl. split.
  - apply insert_insert_eq.
  - rewrite <- app_assoc. reflexivity.
Qed.

(** X5.  On an index whose offsets are non-negative and strictly
    increasing and whose last offset leaves room for the MiB, the largest
    End that downloadRanges finds in the plan of generateRanges is the End
    of the last range of the plan, and a pre-allocation that succeeds
    leaves a destination file of exactly that End plus one zero bytes. *)
Theorem plan_file_ends_with_last_range
    parameters requestedParams rl w outputFile s s1 :
  nonneg_offsets parameters ->
  increasing_offsets parameters ->
  (forall e, last parameters = Some e -> Offset e + 1048576 <= Int64.max_int) ->
  last (generateRanges parameters requestedParams).1 = Some rl ->
  preallocate w (generateRanges parameters requestedParams).1 outputFile s
  = (s1, None) ->
  maxEnd (generateRanges parameters requestedParams).1 = End_ rl
  /\ files s1 !! outputFile
     = Some (replicate (Z.to_nat (End_ rl + 1)) Byte.x00).
Proof.
  intros Hnonneg Hinc Hfit Hlast Hpre.
  pose proof (plan_proper parameters requestedParams Hnonneg Hinc Hfit) as Hprop.
  pose proof (plan_separated parameters requestedParams Hnonneg Hinc) as Hsep.
  assert (Hmax : maxEnd (generateRanges parameters requestedParams).1 = End_ rl).
  { destruct (generateRanges parameters requestedParams).1 as [|r L] eqn:Hplan;
      [discriminate|].
    apply maxEnd_loop_sorted; try assumption.
    apply Forall_cons in Hprop as [[Hr Hr0] _]. lia. }
  split; [exact Hmax|].
  destruct (preallocate_ok w (generateRanges parameters requestedParams).1
              outputFile s s1) as [Hfiles _]; [|exact Hpre|].
  - apply Forall_forall. intros r Hr. eapply plan_ends_in_range. exact Hr.
  - rewrite Hfiles, lookup_insert_eq, Hmax. reflexivity.
Qed.

Lemma scenario_increasing :
  increasing_offsets scenario_entries
  /\ (forall e, last scenario_entries = Some e ->
        Offset e + 1048576 <= Int64.max_int)
  /\ (forall e, last scenario_entries = Some e ->
        Offset e + 1048576 < Int64.max_int).
Proof.
  split; [unfold increasing_offsets; simpl; lia|].
  split; intros e He; injection He as <-; simpl; int64_consts; lia.
Defined.

Lemma plan_file_ends_with_last_range_witness :
  let plan := (generateRanges scenario_entries all_levels_of_B).1 in
  let s1 := (preallocate quiet plan "out.grib2" no_files).1 in
  nonneg_offsets scenario_entries
  /\ increasing_offsets scenario_entries
  /\ (forall e, last scenario_entries = Some e ->
        Offset e + 1048576 <= Int64.max_int)
  /\ last plan = Some (mkRange 1000 2499)
  /\ preallocate quiet plan "out.grib2" no_files = (s1, None)
  /\ maxEnd plan = End_ (mkRange 1000 2499)
  /\ files s1 !! "out.grib2"%string
     = Some (replicate (Z.to_nat (End_ (mkRange 1000 2499) + 1)) Byte.x00).
Proof.
  intros plan s1.
  destruct scenario_invariant as [H1 _].
  destruct scenario_increasing as (H2 & H3 & _).
  assert (H4 : last plan = Some (mkRange 1000 2499)) by (vm_compute; reflexivity).
  assert (H5 : preallocate quiet plan "out.grib2" no_files = (s1, None))
    by (vm_compute; reflexivity).
  split; [exact H1 | split; [exact H2 | split; [exact H3|]]].
  split; [exact H4 | split; [exact H5|]].
  exact (plan_file_ends_with_last_range scenario_entries all_levels_of_B
           (mkRange 1000 2499) quiet "out.grib2" no_files s1 H1 H2 H3 H4 H5).
Defined.

(** ** The total size *)

Lemma sum_sizes_nonneg L : Forall proper L -> 0 <= sum_sizes L.
Proof.
  induction L as [|r L IH]; intros H; simpl; [lia|].
  apply Forall_cons in H as [[Hr _] H]. specialize (IH H). lia.
Qed.

(** Separated ranges are no longer, taken together, than the span from the
    start of the first to the end of the last. *)
Lemma sum_sizes_span L : forall r rl,
  Forall proper (r :: L) -> consecutive separated (r :: L) ->
  last (r :: L) = Some rl ->
  sum_sizes (r :: L) <= End_ rl - Start r + 1.
Proof.
  induction L as [|r2 L IH]; intros r rl Hprop Hsep Hlast.
  - injection Hlast as <-. simpl. lia.
  - rewrite last_cons_cons in Hlast.
    apply Forall_cons in Hprop as [Hr Hprop]. destruct Hsep as [[Hs Hg] Hsep].
    specialize (IH r2 rl Hprop Hsep Hlast).
    change (sum_sizes (r :: r2 :: L))
      with ((End_ r - Start r + 1) + sum_sizes (r2 :: L)).
    lia.
Qed.

(** As long as the sum stays an int64, [totalSize] is the sum. *)
Lemma totalSize_loop_exact L : forall acc,
  Forall proper L -> 0 <= acc -> acc + sum_sizes L <= Int64.max_int ->
  fold_left (fun acc r => Int64.add acc (range_size r)) L acc
  = acc + sum_sizes L.
Proof.
  induction L as [|r L IH]; intros acc Hprop Hacc Hfit; simpl in *; [lia|].
  apply Forall_cons in Hprop as [[Hr Hr0] Hprop].
  pose proof (sum_sizes_nonneg L Hprop) as Hpos.
  assert (Hsize : range_size r = End_ r - Start r + 1).
  { unfold range_size. rewrite sub_exact by (int64_consts; lia).
    apply add_exact. int64_consts. lia. }
  rewrite Hsize, add_exact by (int64_consts; lia).
  rewrite IH; [lia | exact Hprop | lia | lia].
Qed.

(** X6.  On an index whose offsets are non-negative and strictly
    increasing and whose last offset plus the MiB stays below the largest
    int64, the total size main computes for the plan is the sum of the
    lengths of its ranges, without overflow, and is at most the size
    downloadRanges gives the destination file. *)
Theorem total_size_within_file parameters requestedParams :
  nonneg_offsets parameters ->
  increasing_offsets parameters ->
  (forall e, last parameters = Some e -> Offset e + 1048576 < Int64.max_int) ->
  totalSize (generateRanges parameters requestedParams).1
  = sum_sizes (generateRanges parameters requestedParams).1
  /\ 0 <= totalSize (generateRanges parameters requestedParams).1
       <= maxEnd (generateRanges parameters requestedParams).1 + 1.
Proof.
  intros Hnonneg Hinc Hfit.
  assert (Hfit' : forall e, last parameters = Some e ->
                    Offset e + 1048576 <= Int64.max_int).
  { intros e He. specialize (Hfit e He). lia. }
  pose proof (plan_proper parameters requestedParams Hnonneg Hinc Hfit') as Hprop.
  pose proof (plan_separated parameters requestedParams Hnonneg Hinc) as Hsep.
  assert (Hbelow : forall r, r ∈ (generateRanges parameters requestedParams).1 ->
                     End_ r < Int64.max_int).
  { intros r Hr. simpl in Hr. destruct (merge_bounds _ r Hr) as [_ (b & Hb & ->)].
    apply elem_of_provisional in Hb as (i & e & He & _ & ->).
    destruct (parameters !! S i) as [next|] eqn:Hnext.
    - rewrite (entry_range_inner parameters Hnonneg i e next He Hnext).
      pose proof (offset_bounds parameters Hnonneg _ _ Hnext). simpl. lia.
    - pose proof (Hfit e (last_is_final parameters i e He Hnext)) as Hlt.
      rewrite (last_entry_range parameters i e Hnonneg He Hnext ltac:(lia)).
      simpl. lia. }
  destruct (generateRanges parameters requestedParams).1 as [|r L] eqn:Hplan.
  - split; [reflexivity|]. vm_compute. split; discriminate.
  - destruct (last (r :: L)) as [rl|] eqn:Hlast;
      [|apply last_None in Hlast; discriminate].
    pose proof (sum_sizes_span L r rl Hprop Hsep Hlast) as Hspan.
    assert (Hmax : maxEnd (r :: L) = End_ rl).
    { apply maxEnd_loop_sorted; try assumption.
      apply Forall_cons in Hprop as [[Hr Hr0] _]. lia. }
    pose proof (Hbelow rl (last_Some_elem_of _ _ Hlast)) as Hrl.
    pose proof (sum_sizes_nonneg _ Hprop) as Hpos.
    assert (Hstart : 0 <= Start r).
    { apply Forall_cons in Hprop as [[_ Hr0] _]. exact Hr0. }
    assert (Htotal : totalSize (r :: L) = sum_sizes (r :: L)).
    { unfold totalSize. rewrite totalSize_loop_exact; [lia | exact Hprop | lia | lia]. }
    rewrite Htotal, Hmax. split; [reflexivity | lia].
Qed.

Lemma total_size_within_file_witness :
  nonneg_offsets scenario_entries
  /\ increasing_offsets scenario_entries
  /\ (forall e, last scenario_entries = Some e ->
        Offset e + 1048576 < Int64.max_int)
  /\ totalSize (generateRanges scenario_entries all_levels_of_A).1
     = sum_sizes (generateRanges scenario_entries all_levels_of_A).1
  /\ 0 <= totalSize (generateRanges scenario_entries all_levels_of_A).1
       <= maxEnd (generateRanges scenario_entries all_levels_of_A).1 + 1.
Proof.
  destruct scenario_invariant as [H1 _].
  destruct scenario_increasing as (H2 & _ & H3).
  split; [exact H1 | split; [exact H2 | split; [exact H3|]]].
  exact (total_size_within_file scenario_entries all_levels_of_A H1 H2 H3).
Defined.

(** ** Decimal output read back *)

Section Decimal.

Lemma digit_cases d :
  0 <= d < 10 ->
  d = 0 \/ d = 1 \/ d = 2 \/ d = 3 \/ d = 4 \/ d = 5 \/ d = 6 \/ d = 7
  \/ d = 8 \/ d = 9.
Proof. lia. Qed.

Lemma digit_char_value d : 0 <= d < 10 -> digit_value (digit_char d) = Some d.
Proof.
  intros H. destruct (digit_cases d H) as [->|[->|[->|[->|[->|[->|[->|[->|[->| ->]]]]]]]]];
    reflexivity.
Qed.

Lemma digit_char_is_digit d : 0 <= d < 10 -> is_digit (digit_char d) = true.
Proof.
  intros H. destruct (digit_cases d H) as [->|[->|[->|[->|[->|[->|[->|[->|[->| ->]]]]]]]]];
    reflexivity.
Qed.

Lemma is_digit_no_sep c sep :
  is_digit sep = false -> is_digit c = true -> Ascii.eqb c sep = false.
Proof.
  intros Hsep Hc. destruct (Ascii.eqb_spec c sep) as [->|_]; [congruence | reflexivity].
Qed.

(** Reading the digits of [n] multiplies what was read by a power of ten
    and adds [n]. *)
Lemma parse_digits_digits fuel : forall n,
  0 <= n < 10 ^ Z.of_nat fuel ->
  exists k, 0 <= k /\ forall acc a,
    parse_digits (digits fuel n acc) a = parse_digits acc (a * 10 ^ k + n).
Proof.
  induction fuel as [|fuel IH]; intros n Hn.
  - exists 0. split; [lia|]. intros acc a. simpl in *. f_equal. lia.
  - pose proof (Z.mod_pos_bound n 10 ltac:(lia)) as Hmod.
    pose proof (Z.div_mod n 10 ltac:(lia)) as Hdiv.
    cbn [digits]. destruct (Z.ltb_spec n 10) as [Hsmall|Hbig].
    + exists 1. split; [lia|]. intros acc a. cbn [parse_digits].
      rewrite digit_char_value by lia. rewrite Z.mod_small by lia.
      f_equal; lia.
    + destruct (IH (n / 10)) as (k & Hk & Hparse).
      { rewrite Nat2Z.inj_succ, Z.pow_succ_r in Hn by lia.
        split; [apply Z.div_pos; lia|].
        apply Z.div_lt_upper_bound; lia. }
      exists (k + 1). split; [lia|]. intros acc a. rewrite Hparse.
      cbn [parse_digits]. rewrite digit_char_value by lia.
      f_equal; rewrite Z.pow_add_r by lia; lia.
Qed.

Lemma digits_head fuel : forall n acc,
  0 <= n ->
  (fuel <> 0%nat \/ exists c rest, acc = String c rest /\ is_digit c = true) ->
  exists c rest, digits fuel n acc = String c rest /\ is_digit c = true.
Proof.
  induction fuel as [|fuel IH]; intros n acc Hn Hstart.
  - destruct Hstart as [H|H]; [congruence | exact H].
  - pose proof (Z.mod_pos_bound n 10 ltac:(lia)) as Hmod.
    cbn [digits]. destruct (n <? 10).
    + eexists _, _. split; [reflexivity | apply digit_char_is_digit; lia].
    + apply IH; [apply Z.div_pos; lia|]. right.
      eexists _, _. split; [reflexivity | apply digit_char_is_digit; lia].
Qed.

Lemma digits_no_sep sep fuel : forall n acc,
  is_digit sep = false -> 0 <= n ->
  count_sep sep (digits fuel n acc) = count_sep sep acc.
Proof.
  induction fuel as [|fuel IH]; intros n acc Hsep Hn; [reflexivity|].
  pose proof (Z.mod_pos_bound n 10 ltac:(lia)) as Hmod.
  assert (Hstep : count_sep sep (String (digit_char (n mod 10)) acc)
                  = count_sep sep acc).
  { simpl. rewrite (is_digit_no_sep _ sep Hsep) by (apply digit_char_is_digit; lia).
    reflexivity. }
  cbn [digits]. destruct (n <? 10); [exact Hstep|].
  rewrite IH by (try assumption; apply Z.div_pos; lia). exact Hstep.
Qed.

Lemma int64_below_fuel z : Int64.in_range z -> - 10 ^ 20 < z < 10 ^ 20.
Proof. int64_consts. lia. Qed.

Lemma ParseInt_digits (neg : bool) n c rest body :
  body = String c rest ->
  parse_digits body 0 = Some n ->
  Int64.in_range (if neg then - n else n) ->
  match body with
  | EmptyString => None
  | String _ _ =>
      match parse_digits body 0 with
      | None => None
      | Some n =>
          let v := if neg then - n else n in
          if (Int64.min_int <=? v) && (v <=? Int64.max_int) then Some v
          else None
      end
  end = Some (if neg then - n else n).
Proof.
  intros Hbody Hparse Hr. rewrite Hparse. rewrite Hbody. cbv zeta.
  unfold Int64.in_range in Hr.
  destruct (Z.leb_spec Int64.min_int (if neg then - n else n));
    destruct (Z.leb_spec (if neg then - n else n) Int64.max_int);
    try lia. reflexivity.
Qed.

Lemma ParseInt_format_int z :
  Int64.in_range z -> ParseInt (format_int z) = Some z.
Proof.
  intros Hz. pose proof (int64_below_fuel z Hz) as Hfuel.
  unfold format_int. destruct (Z.ltb_spec z 0) as [Hneg|Hpos].
  - destruct (parse_digits_digits 20 (- z)) as (k & _ & Hparse);
      [change (Z.of_nat 20) with 20; lia|].
    destruct (digits_head 20 (- z) EmptyString) as (c & rest & Hd & Hc);
      [lia | left; discriminate|].
    assert (H1 : parse_digits (digits 20 (- z) EmptyString) 0 = Some (- z)).
    { rewrite Hparse. cbn [parse_digits]. f_equal; lia. }
    assert (H2 : Int64.in_range (- - z)) by (rewrite Z.opp_involutive; exact Hz).
    rewrite <- (Z.opp_involutive z) at 2.
    exact (ParseInt_digits true (- z) c rest _ Hd H1 H2).
  - destruct (parse_digits_digits 20 z) as (k & _ & Hparse);
      [change (Z.of_nat 20) with 20; lia|].
    destruct (digits_head 20 z EmptyString) as (c & rest & Hd & Hc);
      [lia | left; discriminate|].
    assert (H1 : parse_digits (digits 20 z EmptyString) 0 = Some z).
    { rewrite Hparse. cbn [parse_digits]. f_equal; lia. }
    unfold ParseInt. rewrite Hd at 1. cbv zeta.
    rewrite (is_digit_no_sep c "+" eq_refl Hc), (is_digit_no_sep c "-" eq_refl Hc).
    cbn [orb].
    exact (ParseInt_digits false z c rest _ Hd H1 Hz).
Qed.

Lemma count_sep_cons sep c s :
  count_sep sep (String c s)
  = ((if Ascii.eqb c sep then 1 else 0) + count_sep sep s)%nat.
Proof. reflexivity. Qed.

Lemma format_int_no_colon z : count_sep ":" (format_int z) = 0%nat.
Proof.
  unfold format_int. destruct (Z.ltb_spec z 0).
  - rewrite count_sep_cons, digits_no_sep by (try reflexivity; lia). reflexivity.
  - rewrite digits_no_sep by (try reflexivity; lia). reflexivity.
Qed.

End Decimal.

(** ** Lines written in the index format *)

Section Lines.

Lemma Split_no_sep sep f : count_sep sep f = 0%nat -> Split sep f = [f].
Proof.
  induction f as [|c f IH]; [reflexivity|]. rewrite count_sep_cons.
  destruct (Ascii.eqb c sep) eqn:Hc; [discriminate|]. simpl. intros H.
  rewrite Hc, (IH H). reflexivity.
Qed.

Lemma Split_app sep f rest :
  count_sep sep f = 0%nat ->
  Split sep (String.append f (String sep rest)) = f :: Split sep rest.
Proof.
  induction f as [|c f IH].
  - intros _. simpl. rewrite Ascii.eqb_refl. reflexivity.
  - rewrite count_sep_cons.
    destruct (Ascii.eqb c sep) eqn:Hc; [discriminate|]. simpl. intros H.
    rewrite Hc, (IH H). reflexivity.
Qed.

(** Splitting what [join] put together gives the fields back. *)
Lemma Split_of_join sep f fields :
  Forall (fun f => count_sep sep f = 0%nat) (f :: fields) ->
  Split sep (join sep (f :: fields)) = f :: fields.
Proof.
  revert f. induction fields as [|g fields IH]; intros f Hall.
  - apply Split_no_sep. apply Forall_cons in Hall as [H _]. exact H.
  - apply Forall_cons in Hall as [Hf Hall].
    rewrite join_cons, (Split_app sep f _ Hf), (IH g Hall). reflexivity.
Qed.

Lemma prefix_append pre s : String.prefix pre (String.append pre s) = true.
Proof.
  induction pre as [|c pre IH]; simpl; [destruct s; reflexivity|].
  destruct (ascii_dec c c); [exact IH | congruence].
Qed.

Lemma substring_all s : String.substring 0 (String.length s) s = s.
Proof. induction s as [|c s IH]; simpl; [reflexivity | rewrite IH; reflexivity]. Qed.

Lemma substring_after pre s :
  String.substring (String.length pre)
    (String.length (String.append pre s) - String.length pre)
    (String.append pre s) = s.
Proof.
  induction pre as [|c pre IH]; simpl.
  - rewrite Nat.sub_0_r. apply substring_all.
  - exact IH.
Qed.

(** [TrimPrefix] takes off a prefix that is there. *)
Lemma TrimPrefix_append pre s : TrimPrefix (String.append pre s) pre = s.
Proof. unfold TrimPrefix. rewrite prefix_append. apply substring_after. Qed.

Lemma part_0 x l : part (x :: l) 0 = x.
Proof. reflexivity. Qed.

Lemma part_S x l i : part (x :: l) (S i) = part l i.
Proof. reflexivity. Qed.

Lemma parse_step_index_line parameters rec :
  writable rec ->
  parse_step parameters (index_line rec.1 rec.2) = parameters ++ [rec.1].
Proof.
  destruct rec as [e extra]. intros (Hn & Ho & Hfields). simpl in *.
  apply Forall_cons in Hfields as [Hdate Hfields].
  unfold parse_step, index_line.
  rewrite Split_of_join.
  - rewrite !part_S, !part_0. cbn [length].
    destruct (Z.ltb_spec (Z.of_nat (S (S (S (S (S (S (length extra)))))))) 6)
      as [Hlt|_]; [lia|].
    unfold Atoi. rewrite !ParseInt_format_int by assumption.
    rewrite TrimPrefix_append. destruct e. reflexivity.
  - apply Forall_cons. split; [apply format_int_no_colon|].
    apply Forall_cons. split; [apply format_int_no_colon|].
    apply Forall_cons. split; [exact Hdate | exact Hfields].
Qed.

Lemma parse_loop_index_lines recs : forall parameters,
  Forall writable recs ->
  fold_left parse_step ((fun rec => index_line rec.1 rec.2) <$> recs) parameters
  = parameters ++ recs.*1.
Proof.
  induction recs as [|rec recs IH]; intros parameters Hall; simpl.
  - symmetry. apply app_nil_r.
  - apply Forall_cons in Hall as [Hrec Hall].
    rewrite parse_step_index_line by exact Hrec.
    rewrite IH by exact Hall. rewrite <- app_assoc. reflexivity.
Qed.

End Lines.

(** ** The index parser: further properties *)

(** X7.  An index written in the format reads back as it was written:
    when every line is the number, the offset, [d=] and the date, the
    parameter, the level and the type of an entry, with colons between
    them and any further fields after them, the numbers being int64 values
    and no field having a colon, parseIDXFile returns exactly these
    entries, in order, and a nil error. *)
Theorem parseIDXFile_reads_back open idxPath recs :
  open idxPath
  = Scanned ((fun rec => index_line rec.1 rec.2) <$> recs) None ->
  Forall writable recs ->
  parseIDXFile open idxPath = (recs.*1, None).
Proof.
  intros Hopen Hall. unfold parseIDXFile. rewrite Hopen.
  rewrite (parse_loop_index_lines recs [] Hall). reflexivity.
Qed.

Lemma parseIDXFile_reads_back_witness :
  (fun _ : string =>
     Scanned ((fun rec => index_line rec.1 rec.2) <$> sample_records) None)
    "gfs.idx"%string
  = Scanned ((fun rec => index_line rec.1 rec.2) <$> sample_records) None
  /\ Forall writable sample_records
  /\ (fun rec => index_line rec.1 rec.2) <$> sample_records
     = [ "1:0:d=2024010100:PRMSL:mean sea level:anl";
         "2:-7:d=2024010100:TMP:2 m above ground:anl:" ]%string
  /\ parseIDXFile
       (fun _ =>
          Scanned ((fun rec => index_line rec.1 rec.2) <$> sample_records) None)
       "gfs.idx"
     = (sample_records.*1, None).
Proof.
  assert (H : Forall writable sample_records).
  { unfold sample_records, writable.
    repeat (constructor; [simpl; int64_consts;
                          repeat split; try lia; repeat constructor|]).
    constructor. }
  split; [reflexivity | split; [exact H | split; [vm_compute; reflexivity|]]].
  exact (parseIDXFile_reads_back _ "gfs.idx" sample_records eq_refl H).
Defined.

(** X8.  The number and the offset of every entry parseIDXFile returns
    are int64 values. *)
Theorem parsed_numbers_are_int64 open idxPath e :
  e ∈ (parseIDXFile open idxPath).1 ->
  Int64.in_range (Number e) /\ Int64.in_range (Offset e).
Proof.
  unfold parseIDXFile. destruct (open idxPath) as [err|lines scan_err].
  - intros H. inversion H.
  - destruct scan_err; [intros H; inversion H|].
    rewrite parse_loop_spec. simpl. intros H.
    apply list_elem_of_fmap in H as (line & -> & Hline).
    apply list_elem_of_filter in Hline as [(_ & (_ & _ & H0) & (_ & _ & H1)) _].
    split; assumption.
Qed.

Lemma parsed_numbers_are_int64_witness :
  mkGFSParameter 4 300 "2024010100" "VGRD" "10 m above ground" "anl"
    ∈ (parseIDXFile (fun _ => Scanned sample_lines None) "gfs.idx").1
  /\ Int64.in_range 4 /\ Int64.in_range 300.
Proof.
  assert (H : mkGFSParameter 4 300 "2024010100" "VGRD" "10 m above ground" "anl"
              ∈ (parseIDXFile (fun _ => Scanned sample_lines None) "gfs.idx").1).
  { vm_compute. right. left. }
  split; [exact H|].
  exact (parsed_numbers_are_int64 (fun _ => Scanned sample_lines None) "gfs.idx"
           _ H).
Defined.

(** ** The Range header *)

Lemma format_int_no_dash z : 0 <= z -> count_sep "-" (format_int z) = 0%nat.
Proof.
  intros Hz. unfold format_int. destruct (Z.ltb_spec z 0); [lia|].
  rewrite digits_no_sep by (try reflexivity; lia). reflexivity.
Qed.

(** X9.  For a range whose bounds are non-negative int64 values, the value
    downloadRange gives the Range header reads back as these bounds: after
    [bytes=], the two fields around the dash are the decimal forms that
    parse to Start and to End. *)
Theorem rangeHeader_reads_back r :
  0 <= Start r <= Int64.max_int ->
  0 <= End_ r <= Int64.max_int ->
  ParseInt <$> Split "-" (TrimPrefix (rangeHeader r) "bytes=")
  = [Some (Start r); Some (End_ r)].
Proof.
  intros Hs He. unfold rangeHeader. rewrite TrimPrefix_append.
  rewrite Split_app by (apply format_int_no_dash; lia).
  rewrite Split_no_sep by (apply format_int_no_dash; lia).
  simpl. rewrite !ParseInt_format_int by (int64_consts; lia). reflexivity.
Qed.

Lemma rangeHeader_reads_back_witness :
  0 <= Start (mkRange 2500 1051076) <= Int64.max_int
  /\ 0 <= End_ (mkRange 2500 1051076) <= Int64.max_int
  /\ rangeHeader (mkRange 2500 1051076) = "bytes=2500-1051076"%string
  /\ ParseInt <$> Split "-" (TrimPrefix (rangeHeader (mkRange 2500 1051076)) "bytes=")
     = [Some (Start (mkRange 2500 1051076)); Some (End_ (mkRange 2500 1051076))].
Proof.
  assert (H1 : 0 <= Start (mkRange 2500 1051076) <= Int64.max_int)
    by (simpl; int64_consts; lia).
  assert (H2 : 0 <= End_ (mkRange 2500 1051076) <= Int64.max_int)
    by (simpl; int64_consts; lia).
  split; [exact H1 | split; [exact H2 | split; [vm_compute; reflexivity|]]].
  exact (rangeHeader_reads_back (mkRange 2500 1051076) H1 H2).
Defined.


(** ** One goroutine: further properties *)

Lemma length_write_at content pos data :
  length (write_at content pos data)
  = match data with
    | [] => length content
    | _ :: _ => Nat.max (length content) (pos + length data)
    end.
Proof.
  unfold write_at. destruct data as [|d0 ds]; [reflexivity|].
  rewrite !length_app, length_take, length_replicate, length_drop. simpl. lia.
Qed.

(** X10.  downloadRange touches no file but the destination, and it
    leaves the destination as it was and returns an error when the
    destination does not exist, when the start of the range is negative,
    or when the status of the response is not 206. *)
Theorem downloadRange_writes_only_on_206 env r outputFile s :
  (forall path, path <> outputFile ->
     files (downloadRange env r outputFile s).1 !! path = files s !! path)
  /\ (files s !! outputFile = None \/ Start r < 0
      \/ (exists resp, do_result env = inr resp /\ StatusCode resp <> 206) ->
      files (downloadRange env r outputFile s).1 = files s
      /\ (downloadRange env r outputFile s).2 <> None).
Proof.
  split.
  - intros path Hne.
    destruct (downloadRange_files env r outputFile s)
      as [Hsame|(resp & content & data & _ & _ & _ & _ & Hfiles)].
    + rewrite Hsame. reflexivity.
    + rewrite Hfiles. apply lookup_insert_ne. congruence.
  - intros Hcase. unfold downloadRange.
    destruct (new_request_err env); [split; [reflexivity | discriminate]|].
    destruct (do_result env) as [e|resp] eqn:Hdo;
      [split; [reflexivity | discriminate]|].
    destruct (Z.eqb_spec (StatusCode resp) StatusPartialContent) as [Hok|Hbad];
      simpl; [|split; [reflexivity | discriminate]].
    unfold write_range. simpl.
    destruct (open_err env); [split; [reflexivity | discriminate]|].
    destruct (files s !! outputFile) as [content|] eqn:Hfile;
      [|split; [reflexivity | discriminate]].
    destruct (Z.ltb_spec (Start r) 0) as [Hneg|Hpos];
      [split; [reflexivity | discriminate]|].
    exfalso. destruct Hcase as [H|[H|(resp' & Hresp & Hstatus)]];
      [discriminate | lia |].
    injection Hresp as <-. apply Hstatus. exact Hok.
Qed.

(** ** All goroutines: further properties *)

Section TasksMore.

Context (w : World) (ranges : list RangeDownload) (outputFile : string).

Lemma run_tasks_frame order path : forall st,
  path <> outputFile ->
  files (fold_left (run_task w ranges outputFile) order st).1 !! path
  = files st.1 !! path.
Proof.
  induction order as [|i order IH]; intros st Hne; simpl; [reflexivity|].
  rewrite IH by exact Hne.
  destruct (ranges !! i) as [r|] eqn:Hi;
    [|rewrite (run_task_out w ranges outputFile st i Hi); reflexivity].
  rewrite (run_task_in w ranges outputFile st i r Hi). simpl.
  destruct (downloadRange_files (fetch_env w i) r outputFile st.1)
    as [Hsame|(resp & content & data & _ & _ & _ & _ & Hfiles)].
  - rewrite Hsame. reflexivity.
  - rewrite Hfiles. apply lookup_insert_ne. congruence.
Qed.

(** Responses that fit their ranges never change the length of a file
    that reaches past every range. *)
Lemma run_tasks_length order (n : nat) :
  bodies_fit w ranges ->
  (forall r, r ∈ ranges -> End_ r + 1 <= Z.of_nat n) ->
  forall st,
  (exists content, files st.1 !! outputFile = Some content
                   /\ length content = n) ->
  exists content,
    files (fold_left (run_task w ranges outputFile) order st).1 !! outputFile
    = Some content /\ length content = n.
Proof.
  intros Hfit Hends.
  induction order as [|i order IH]; intros st Hst; simpl; [exact Hst|].
  apply IH. clear IH.
  destruct (ranges !! i) as [r|] eqn:Hi;
    [|rewrite (run_task_out w ranges outputFile st i Hi); exact Hst].
  rewrite (run_task_in w ranges outputFile st i r Hi). simpl.
  destruct Hst as (content & Hfile & Hlen).
  destruct (downloadRange_files (fetch_env w i) r outputFile st.1)
    as [Hsame|(resp & content' & data & Hdo & Hfile' & Hpos & Hdata & Hfiles)].
  - rewrite Hsame. exists content. split; assumption.
  - rewrite Hfile in Hfile'. injection Hfile' as <-.
    rewrite Hfiles, lookup_insert_eq. eexists. split; [reflexivity|].
    rewrite length_write_at. destruct data as [|d0 ds] eqn:Hd; [exact Hlen|].
    rewrite <- Hd in *.
    specialize (Hfit i r resp Hi Hdo).
    specialize (Hends r (list_elem_of_lookup_2 _ _ _ Hi)). lia.
Qed.

(** A byte no goroutine may write keeps its value. *)
Lemma run_tasks_untouched order p b :
  untouched w ranges p ->
  forall st,
  (exists content, files st.1 !! outputFile = Some content
                   /\ content !! p = Some b) ->
  exists content,
    files (fold_left (run_task w ranges outputFile) order st).1 !! outputFile
    = Some content /\ content !! p = Some b.
Proof.
  intros Hoff.
  induction order as [|i order IH]; intros st Hst; simpl; [exact Hst|].
  apply IH. clear IH.
  destruct (ranges !! i) as [r|] eqn:Hi;
    [|rewrite (run_task_out w ranges outputFile st i Hi); exact Hst].
  rewrite (run_task_in w ranges outputFile st i r Hi). simpl.
  destruct Hst as (content & Hfile & Hp).
  destruct (downloadRange_files (fetch_env w i) r outputFile st.1)
    as [Hsame|(resp & content' & data & Hdo & Hfile' & Hpos & Hdata & Hfiles)].
  - rewrite Hsame. exists content. split; assumption.
  - rewrite Hfile in Hfile'. injection Hfile' as <-.
    rewrite Hfiles, lookup_insert_eq. eexists. split; [reflexivity|].
    apply write_at_outside; [exact Hp|].
    destruct (Hoff i r resp Hi Hdo); lia.
Qed.

(** The events of one goroutine: a request for its range, a write at the
    start of its range. *)
Lemma downloadRange_events env r s :
  exists evs, log (downloadRange env r outputFile s).1 = log s ++ evs
    /\ Forall (fun ev => ev = EvRequest r
                 \/ exists data, ev = EvWrite outputFile (Start r) data
                                 /\ 0 <= Start r) evs.
Proof.
  unfold downloadRange.
  destruct (new_request_err env);
    [exists []; rewrite app_nil_r; split; [reflexivity|constructor]|].
  assert (Hreq : Forall (fun ev => ev = EvRequest r
                 \/ exists data, ev = EvWrite outputFile (Start r) data
                                 /\ 0 <= Start r) [EvRequest r])
    by (repeat constructor).
  destruct (do_result env) as [e|resp];
    [exists [EvRequest r]; split; [reflexivity|exact Hreq]|].
  destruct (negb _); [exists [EvRequest r]; split; [reflexivity|exact Hreq]|].
  unfold write_range. simpl.
  destruct (open_err env); [exists [EvRequest r]; split; [reflexivity|exact Hreq]|].
  destruct (files s !! outputFile) as [content|];
    [|exists [EvRequest r]; split; [reflexivity|exact Hreq]].
  destruct (Z.ltb_spec (Start r) 0) as [Hneg|Hpos];
    [exists [EvRequest r]; split; [reflexivity|exact Hreq]|].
  destruct (seek_err env); [exists [EvRequest r]; split; [reflexivity|exact Hreq]|].
  destruct (copy_err env) as [[n e]|]; simpl; eexists [_; _];
    (split; [rewrite <- app_assoc; reflexivity|]);
    (apply Forall_cons; split; [left; reflexivity|]);
    (apply Forall_cons; split; [right; eexists; split; [reflexivity|exact Hpos]
                               | constructor]).
Qed.

Lemma run_tasks_events order : forall st,
  exists evs,
    log (fold_left (run_task w ranges outputFile) order st).1 = log st.1 ++ evs
    /\ Forall (plan_event ranges outputFile) evs.
Proof.
  induction order as [|i order IH]; intros st; simpl.
  - exists []. rewrite app_nil_r. split; [reflexivity|constructor].
  - destruct (IH (run_task w ranges outputFile st i)) as (evs & Hlog & Hevs).
    destruct (ranges !! i) as [r|] eqn:Hi.
    + rewrite (run_task_in w ranges outputFile st i r Hi) in *. simpl in Hlog.
      destruct (downloadRange_events (fetch_env w i) r st.1)
        as (evs0 & Hlog0 & Hevs0).
      exists (evs0 ++ evs). rewrite Hlog, Hlog0, app_assoc.
      split; [reflexivity|]. apply Forall_app. split; [|exact Hevs].
      eapply Forall_impl; [exact Hevs0|]. intros ev [->|(data & -> & Hpos)]; simpl.
      * eapply list_elem_of_lookup_2. exact Hi.
      * split; [reflexivity|]. exists r. split; [|auto].
        eapply list_elem_of_lookup_2. exact Hi.
    + rewrite (run_task_out w ranges outputFile st i Hi) in *.
      exists evs. split; assumption.
Qed.

Lemma preallocate_frame s path :
  path <> outputFile ->
  files (preallocate w ranges outputFile s).1 !! path = files s !! path.
Proof.
  intros Hne. unfold preallocate. destruct (create_err w); [reflexivity|].
  destruct (if Int64.add (maxEnd ranges) 1 <? 0 then _ else truncate_err w);
    unfold emit, set_file; simpl; rewrite !lookup_insert_ne by congruence;
    reflexivity.
Qed.

Lemma preallocate_events s :
  exists evs, log (preallocate w ranges outputFile s).1 = log s ++ evs
              /\ Forall (plan_event ranges outputFile) evs.
Proof.
  unfold preallocate. destruct (create_err w).
  - exists [EvCreate outputFile]. split; [reflexivity | repeat constructor].
  - exists [EvCreate outputFile;
            EvTruncate outputFile (Int64.add (maxEnd ranges) 1)].
    split; [|repeat constructor].
    destruct (if Int64.add (maxEnd ranges) 1 <? 0 then _ else truncate_err w);
      unfold emit, set_file; simpl; rewrite <- app_assoc; reflexivity.
Qed.

(** [downloadRanges] is the fetch phase after a pre-allocation that
    succeeded, and the pre-allocation alone otherwise. *)
Lemma downloadRanges_unfold url s :
  (downloadRanges w url ranges outputFile s).1
  = match (preallocate w ranges outputFile s).2 with
    | Some _ => (preallocate w ranges outputFile s).1
    | None =>
        (fold_left (run_task w ranges outputFile) (run_order w)
           ((preallocate w ranges outputFile s).1, ∅)).1
    end.
Proof.
  unfold downloadRanges.
  destruct (preallocate w ranges outputFile s) as [s1 [e|]]; [reflexivity|].
  rewrite fetch_all_unfold. reflexivity.
Qed.

End TasksMore.

(** ** The transfer orchestrator: further properties *)

(** X11.  downloadRanges leaves every file but the destination as it
    was, whatever the plan, the answers of the network and the schedule. *)
Theorem downloadRanges_touches_only_destination
    w url ranges outputFile s path :
  path <> outputFile ->
  files (downloadRanges w url ranges outputFile s).1 !! path = files s !! path.
Proof.
  intros Hne. rewrite downloadRanges_unfold.
  destruct (preallocate w ranges outputFile s).2.
  - apply preallocate_frame. exact Hne.
  - rewrite run_tasks_frame by exact Hne. simpl.
    apply preallocate_frame. exact Hne.
Qed.

Lemma downloadRanges_touches_only_destination_witness :
  "notes.txt"%string <> "out.grib2"%string
  /\ files (downloadRanges one_refused "https://host/gfs" three_ranges
              "out.grib2" other_file).1 !! "notes.txt"%string
     = Some [Byte.x68; Byte.x69].
Proof.
  assert (H : "notes.txt"%string <> "out.grib2"%string) by discriminate.
  split; [exact H|].
  rewrite (downloadRanges_touches_only_destination one_refused
             "https://host/gfs" three_ranges "out.grib2" other_file
             "notes.txt" H).
  reflexivity.
Defined.

Lemma three_ranges_int64 :
  Forall (fun r => Int64.in_range (End_ r)) three_ranges.
Proof.
  unfold three_ranges.
  repeat (constructor; [simpl; int64_consts; lia|]). constructor.
Defined.

Lemma one_refused_fits : bodies_fit one_refused three_ranges.
Proof.
  intros i r resp Hi Hdo.
  destruct i as [|[|[|i]]]; simpl in Hi, Hdo; try discriminate;
    injection Hi as <-; injection Hdo as <-; simpl; lia.
Defined.

(** X12.  When every response is no longer than the range it answers, the
    destination file has, after downloadRanges, exactly the maxEnd + 1
    bytes of the pre-allocation, whatever the schedule and whichever
    ranges failed. *)
Theorem destination_keeps_its_size w url ranges outputFile s s1 :
  Forall (fun r => Int64.in_range (End_ r)) ranges ->
  preallocate w ranges outputFile s = (s1, None) ->
  bodies_fit w ranges ->
  exists content,
    files (downloadRanges w url ranges outputFile s).1 !! outputFile
    = Some content
    /\ Z.of_nat (length content) = maxEnd ranges + 1.
Proof.
  intros Hends Hpre Hfit.
  destruct (preallocate_ok w ranges outputFile s s1 Hends Hpre) as [Hfiles _].
  destruct (maxEnd_loop ranges 0) as (Hnonneg & Hall & _).
  fold (maxEnd ranges) in *.
  rewrite downloadRanges_unfold, Hpre. simpl.
  destruct (run_tasks_length w ranges outputFile (run_order w)
              (Z.to_nat (maxEnd ranges + 1)) Hfit) with (st := (s1, ∅ : Outcomes))
    as (content & Hfile & Hlen).
  - intros r Hr. specialize (Hall r Hr). lia.
  - simpl. rewrite Hfiles, lookup_insert_eq. eexists. split; [reflexivity|].
    apply length_replicate.
  - exists content. split; [exact Hfile|]. lia.
Qed.

Lemma destination_keeps_its_size_witness :
  let s1 := (preallocate one_refused three_ranges "out.grib2" no_files).1 in
  Forall (fun r => Int64.in_range (End_ r)) three_ranges
  /\ preallocate one_refused three_ranges "out.grib2" no_files = (s1, None)
  /\ bodies_fit one_refused three_ranges
  /\ exists content,
       files (downloadRanges one_refused "https://host/gfs" three_ranges
                "out.grib2" no_files).1 !! "out.grib2"%string = Some content
       /\ Z.of_nat (length content) = maxEnd three_ranges + 1.
Proof.
  intros s1.
  assert (H2 : preallocate one_refused three_ranges "out.grib2" no_files
               = (s1, None)) by (vm_compute; reflexivity).
  split; [exact three_ranges_int64 | split; [exact H2|]].
  split; [exact one_refused_fits|].
  exact (destination_keeps_its_size one_refused "https://host/gfs" three_ranges
           "out.grib2" no_files s1 three_ranges_int64 H2 one_refused_fits).
Defined.

(** X13.  A byte of the destination that lies within the pre-allocated
    size and off the bytes any goroutine may write is zero after
    downloadRanges: what was in the file before the run is gone. *)
Theorem unwritten_bytes_are_zero w url ranges outputFile s s1 p :
  Forall (fun r => Int64.in_range (End_ r)) ranges ->
  preallocate w ranges outputFile s = (s1, None) ->
  Z.of_nat p < maxEnd ranges + 1 ->
  untouched w ranges p ->
  exists content,
    files (downloadRanges w url ranges outputFile s).1 !! outputFile
    = Some content
    /\ content !! p = Some Byte.x00.
Proof.
  intros Hends Hpre Hp Hoff.
  destruct (preallocate_ok w ranges outputFile s s1 Hends Hpre) as [Hfiles _].
  rewrite downloadRanges_unfold, Hpre. simpl.
  apply (run_tasks_untouched w ranges outputFile (run_order w) p Byte.x00 Hoff
           (s1, ∅)).
  simpl. rewrite Hfiles, lookup_insert_eq. eexists. split; [reflexivity|].
  apply lookup_replicate_2. lia.
Qed.

Lemma unwritten_bytes_are_zero_witness :
  let s1 := (preallocate one_refused three_ranges "out.grib2" no_files).1 in
  Forall (fun r => Int64.in_range (End_ r)) three_ranges
  /\ preallocate one_refused three_ranges "out.grib2" no_files = (s1, None)
  /\ Z.of_nat 3 < maxEnd three_ranges + 1
  /\ untouched one_refused three_ranges 3
  /\ exists content,
       files (downloadRanges one_refused "https://host/gfs" three_ranges
                "out.grib2" no_files).1 !! "out.grib2"%string = Some content
       /\ content !! 3%nat = Some Byte.x00.
Proof.
  intros s1.
  assert (H2 : preallocate one_refused three_ranges "out.grib2" no_files
               = (s1, None)) by (vm_compute; reflexivity).
  assert (H3 : Z.of_nat 3 < maxEnd three_ranges + 1) by (vm_compute; reflexivity).
  assert (H4 : untouched one_refused three_ranges 3).
  { intros i r resp Hi Hdo.
    destruct i as [|[|[|i]]]; simpl in Hi, Hdo; try discriminate;
      injection Hi as <-; injection Hdo as <-; simpl; lia. }
  split; [exact three_ranges_int64 | split; [exact H2|]].
  split; [exact H3 | split; [exact H4|]].
  exact (unwritten_bytes_are_zero one_refused "https://host/gfs" three_ranges
           "out.grib2" no_files s1 3 three_ranges_int64 H2 H3 H4).
Defined.

(** X14.  Every call downloadRanges makes concerns the destination or the
    plan: it creates and truncates the destination, requests ranges of the
    plan, and writes into the destination at the start of a range of the
    plan; nothing else. *)
Theorem downloadRanges_calls_concern_the_plan w url ranges outputFile s :
  exists evs,
    log (downloadRanges w url ranges outputFile s).1 = log s ++ evs
    /\ Forall (plan_event ranges outputFile) evs.
Proof.
  rewrite downloadRanges_unfold.
  destruct (preallocate_events w ranges outputFile s) as (evs0 & Hlog0 & Hevs0).
  destruct (preallocate w ranges outputFile s).2.
  - exists evs0. split; assumption.
  - destruct (run_tasks_events w ranges outputFile (run_order w)
                ((preallocate w ranges outputFile s).1, ∅))
      as (evs & Hlog & Hevs).
    exists (evs0 ++ evs). simpl in Hlog. rewrite Hlog, Hlog0, app_assoc.
    split; [reflexivity | apply Forall_app; split; assumption].
Qed.

(** ** Writes that do not meet commute *)

Section WritesCommute.

Lemma lookup_write_at content pos d0 ds p :
  write_at content pos (d0 :: ds) !! p
  = if decide (p < pos)%nat
    then (if decide (p < length content)%nat then content !! p
          else Some Byte.x00)
    else if decide (p < pos + length (d0 :: ds))%nat
         then (d0 :: ds) !! (p - pos)%nat
         else content !! p.
Proof.
  unfold write_at. set (data := d0 :: ds).
  assert (Hlen : length (take pos content
                         ++ replicate (pos - length content) Byte.x00) = pos).
  { rewrite length_app, length_take, length_replicate. lia. }
  destruct (decide (p < pos)%nat) as [Hbefore|Hnot].
  - destruct (decide (p < length content)%nat) as [Hin|Hout].
    + rewrite lookup_app_l by (rewrite length_take; lia).
      apply lookup_take_lt. exact Hbefore.
    + rewrite lookup_app_r by (rewrite length_take; lia).
      rewrite length_take.
      rewrite lookup_app_l by (rewrite length_replicate; lia).
      apply lookup_replicate_2. lia.
  - rewrite app_assoc, lookup_app_r by lia. rewrite Hlen.
    destruct (decide (p < pos + length data)%nat) as [Hin|Hafter].
    + apply lookup_app_l. lia.
    + rewrite lookup_app_r by lia. rewrite lookup_drop. f_equal. lia.
Qed.

Lemma write_at_commute content p1 d1 p2 d2 :
  (p1 + length d1 <= p2 \/ p2 + length d2 <= p1)%nat ->
  write_at (write_at content p1 d1) p2 d2
  = write_at (write_at content p2 d2) p1 d1.
Proof.
  intros Hapart.
  destruct d1 as [|a1 d1]; [reflexivity|].
  destruct d2 as [|a2 d2]; [reflexivity|].
  apply list_eq. intros p.
  rewrite !lookup_write_at, !length_write_at.
  set (n1 := length (a1 :: d1)) in *. set (n2 := length (a2 :: d2)) in *.
  assert (0 < n1 /\ 0 < n2)%nat as [H1 H2] by (unfold n1, n2; simpl; lia).
  repeat case_decide; try reflexivity; try lia.
Qed.

End WritesCommute.

(** ** Goroutines in another order *)

Section Reorder.

Context (w : World) (ranges : list RangeDownload) (outputFile : string).

(** What [downloadRange] does when the destination exists. *)
Lemma downloadRange_present env r s content :
  files s !! outputFile = Some content ->
  files (downloadRange env r outputFile s).1
  = match write_of env r with
    | Some (pos, data) => <[ outputFile := write_at content pos data ]> (files s)
    | None => files s
    end
  /\ forall s', is_Some (files s' !! outputFile) ->
       (downloadRange env r outputFile s').2 = (downloadRange env r outputFile s).2.
Proof.
  intros Hfile. unfold downloadRange, write_of, write_range.
  destruct (new_request_err env); [split; [reflexivity|intros; reflexivity]|].
  destruct (do_result env) as [e|resp]; [split; [reflexivity|intros; reflexivity]|].
  destruct (negb _); [split; [reflexivity|intros; reflexivity]|].
  simpl. rewrite Hfile.
  destruct (open_err env); [split; [reflexivity|intros; reflexivity]|].
  destruct (Start r <? 0).
  { split; [reflexivity|]. intros s' [c' Hc']. rewrite Hc'. reflexivity. }
  destruct (seek_err env).
  { split; [reflexivity|]. intros s' [c' Hc']. rewrite Hc'. reflexivity. }
  destruct (copy_err env) as [[n e]|]; simpl;
    (split; [reflexivity|]); intros s' [c' Hc']; rewrite Hc'; reflexivity.
Qed.

(** What [downloadRange] does when the destination is missing. *)
Lemma downloadRange_absent env r s :
  files s !! outputFile = None ->
  files (downloadRange env r outputFile s).1 = files s
  /\ forall s', files s' !! outputFile = None ->
       (downloadRange env r outputFile s').2 = (downloadRange env r outputFile s).2.
Proof.
  intros Hfile. unfold downloadRange, write_range.
  destruct (new_request_err env); [split; [reflexivity|intros; reflexivity]|].
  destruct (do_result env) as [e|resp]; [split; [reflexivity|intros; reflexivity]|].
  destruct (negb _); [split; [reflexivity|intros; reflexivity]|].
  simpl. rewrite Hfile.
  destruct (open_err env); [split; [reflexivity|intros; reflexivity]|].
  split; [reflexivity|]. intros s' Hc'. rewrite Hc'. reflexivity.
Qed.

(** The files and the result of [downloadRange] depend on the files it
    finds, not on the log. *)
Lemma downloadRange_same_files env r s s' :
  files s = files s' ->
  files (downloadRange env r outputFile s).1
  = files (downloadRange env r outputFile s').1
  /\ (downloadRange env r outputFile s).2 = (downloadRange env r outputFile s').2.
Proof.
  intros Heq. destruct (files s !! outputFile) as [content|] eqn:Hfile.
  - assert (Hfile' : files s' !! outputFile = Some content) by (rewrite <- Heq; exact Hfile).
    destruct (downloadRange_present env r s content Hfile) as [H1 H2].
    destruct (downloadRange_present env r s' content Hfile') as [H1' _].
    rewrite H1, H1', Heq. split; [reflexivity|]. symmetry. apply H2. eauto.
  - assert (Hfile' : files s' !! outputFile = None) by (rewrite <- Heq; exact Hfile).
    destruct (downloadRange_absent env r s Hfile) as [H1 H2].
    destruct (downloadRange_absent env r s' Hfile') as [H1' _].
    rewrite H1, H1', Heq. split; [reflexivity|]. symmetry. apply H2. exact Hfile'.
Qed.

Lemma run_task_same st st' i :
  same_store st st' ->
  same_store (run_task w ranges outputFile st i)
             (run_task w ranges outputFile st' i).
Proof.
  intros [Hf Ho]. destruct (ranges !! i) as [r|] eqn:Hi.
  - rewrite !(run_task_in w ranges outputFile _ i r Hi).
    destruct (downloadRange_same_files (fetch_env w i) r st.1 st'.1 Hf) as [H1 H2].
    split; simpl; [exact H1 | rewrite H2, Ho; reflexivity].
  - rewrite !(run_task_out w ranges outputFile _ i Hi). split; assumption.
Qed.

Lemma run_tasks_same order : forall st st',
  same_store st st' ->
  same_store (fold_left (run_task w ranges outputFile) order st)
             (fold_left (run_task w ranges outputFile) order st').
Proof.
  induction order as [|i order IH]; intros st st' H; simpl; [exact H|].
  apply IH, run_task_same, H.
Qed.

Hypothesis Hapart : all_writes_apart w ranges.

Lemma write_of_bounds i r pos data :
  ranges !! i = Some r -> write_of (fetch_env w i) r = Some (pos, data) ->
  exists resp, do_result (fetch_env w i) = inr resp
    /\ 0 <= Start r /\ pos = Z.to_nat (Start r)
    /\ (length data <= length (Body resp))%nat.
Proof.
  intros Hi. unfold write_of.
  destruct (new_request_err (fetch_env w i)); [discriminate|].
  destruct (do_result (fetch_env w i)) as [e|resp]; [discriminate|].
  destruct (negb _); [discriminate|].
  destruct (open_err (fetch_env w i)); [discriminate|].
  destruct (Z.ltb_spec (Start r) 0); [discriminate|].
  destruct (seek_err (fetch_env w i)); [discriminate|].
  intros Heq. injection Heq as <- <-. exists resp.
  repeat split; try assumption; try reflexivity.
  destruct (copy_err (fetch_env w i)) as [[n e]|]; [rewrite length_take|]; lia.
Qed.

(** Two different goroutines may run in either order. *)
Lemma run_task_swap st i j :
  i <> j ->
  same_store
    (run_task w ranges outputFile (run_task w ranges outputFile st i) j)
    (run_task w ranges outputFile (run_task w ranges outputFile st j) i).
Proof.
  intros Hne.
  destruct (ranges !! i) as [ri|] eqn:Hi;
    [|rewrite !(run_task_out w ranges outputFile _ i Hi); split; reflexivity].
  destruct (ranges !! j) as [rj|] eqn:Hj;
    [|rewrite !(run_task_out w ranges outputFile _ j Hj); split; reflexivity].
  rewrite !(run_task_in w ranges outputFile _ i ri Hi).
  rewrite !(run_task_in w ranges outputFile _ j rj Hj).
  unfold same_store. cbn [fst snd].
  set (ei := fetch_env w i). set (ej := fetch_env w j).
  destruct (files st.1 !! outputFile) as [content|] eqn:Hfile.
  - destruct (downloadRange_present ei ri st.1 content Hfile) as [Fi Ri].
    destruct (downloadRange_present ej rj st.1 content Hfile) as [Fj Rj].
    assert (exists ci, files (downloadRange ei ri outputFile st.1).1 !! outputFile
                       = Some ci
              /\ ci = match write_of ei ri with
                      | Some (pos, data) => write_at content pos data
                      | None => content end) as (ci & Hci & Hcidef).
    { rewrite Fi. destruct (write_of ei ri) as [[pos data]|].
      - rewrite lookup_insert_eq. eauto.
      - eauto. }
    assert (exists cj, files (downloadRange ej rj outputFile st.1).1 !! outputFile
                       = Some cj
              /\ cj = match write_of ej rj with
                      | Some (pos, data) => write_at content pos data
                      | None => content end) as (cj & Hcj & Hcjdef).
    { rewrite Fj. destruct (write_of ej rj) as [[pos data]|].
      - rewrite lookup_insert_eq. eauto.
      - eauto. }
    destruct (downloadRange_present ej rj _ ci Hci) as [Fji Rji].
    destruct (downloadRange_present ei ri _ cj Hcj) as [Fij Rij].
    split.
    + rewrite Fji, Fij, Fi, Fj, Hcidef, Hcjdef.
      destruct (write_of ei ri) as [[pi di]|] eqn:Hwi;
        destruct (write_of ej rj) as [[pj dj]|] eqn:Hwj;
        rewrite ?insert_insert_eq; try reflexivity.
      f_equal.
      destruct (write_of_bounds i ri pi di Hi Hwi) as (respi & Hdoi & Hpi & -> & Hli).
      destruct (write_of_bounds j rj pj dj Hj Hwj) as (respj & Hdoj & Hpj & -> & Hlj).
      apply write_at_commute.
      destruct (Hapart i ri respi Hi Hdoi j rj respj ltac:(congruence) Hj Hdoj); lia.
    + rewrite (Rj _ (mk_is_Some _ _ Hci)), (Ri _ (mk_is_Some _ _ Hcj)).
      apply insert_insert_ne. congruence.
  - destruct (downloadRange_absent ei ri st.1 Hfile) as [Fi Ri].
    destruct (downloadRange_absent ej rj st.1 Hfile) as [Fj Rj].
    assert (Hi' : files (downloadRange ei ri outputFile st.1).1 !! outputFile = None)
      by (rewrite Fi; exact Hfile).
    assert (Hj' : files (downloadRange ej rj outputFile st.1).1 !! outputFile = None)
      by (rewrite Fj; exact Hfile).
    destruct (downloadRange_absent ej rj _ Hi') as [Fji _].
    destruct (downloadRange_absent ei ri _ Hj') as [Fij _].
    split.
    + rewrite Fji, Fij, Fi, Fj. reflexivity.
    + rewrite (Rj _ Hi'), (Ri _ Hj'). apply insert_insert_ne. congruence.
Qed.

(** The files and the outcomes do not depend on the order in which the
    goroutines run. *)
Lemma run_tasks_permutation order order' :
  order ≡ₚ order' ->
  forall st st', same_store st st' ->
    same_store (fold_left (run_task w ranges outputFile) order st)
               (fold_left (run_task w ranges outputFile) order' st').
Proof.
  induction 1 as [|x l l' Hperm IH|x y l|l l' l'' H1 IH1 H2 IH2];
    intros st st' Hst.
  - exact Hst.
  - simpl. apply IH, run_task_same, Hst.
  - simpl. apply run_tasks_same.
    destruct (decide (x = y)) as [->|Hne].
    + apply run_task_same, run_task_same, Hst.
    + destruct (run_task_swap st y x ltac:(congruence)) as [Hf Ho].
      destruct (run_task_same _ _ y (run_task_same st st' x Hst)) as [Hf' Ho'].
      split; [rewrite Hf; exact Hf' | rewrite Ho; exact Ho'].
  - destruct (IH1 st st' Hst) as [Hf1 Ho1].
    destruct (IH2 st' st' (conj eq_refl eq_refl)) as [Hf2 Ho2].
    split; [rewrite Hf1; exact Hf2 | rewrite Ho1; exact Ho2].
Qed.

End Reorder.

Lemma report_permutation errs errs' :
  errs ≡ₚ errs' -> same_report (report errs) (report errs').
Proof.
  intros Hperm. destruct errs as [|e errs].
  - apply Permutation_nil_l in Hperm. subst. left. reflexivity.
  - destruct errs' as [|e' errs'].
    + symmetry in Hperm. apply Permutation_nil_l in Hperm. discriminate.
    + right. exists (length (e :: errs)), (e :: errs), (e' :: errs').
      split; [reflexivity|]. split; [|exact Hperm].
      rewrite (Permutation_length Hperm). reflexivity.
Qed.

(** X15.  When no two goroutines may write the same byte, the files that
    downloadRanges leaves do not depend on the order in which the
    goroutines run, and its result depends on the schedule at most in the
    order in which the failed ranges are listed. *)
Theorem schedule_does_not_matter w url ranges outputFile s run send :
  all_writes_apart w ranges ->
  run ≡ₚ run_order w ->
  send ≡ₚ send_order w ->
  files (downloadRanges (rescheduled w run send) url ranges outputFile s).1
  = files (downloadRanges w url ranges outputFile s).1
  /\ same_report
       (downloadRanges (rescheduled w run send) url ranges outputFile s).2
       (downloadRanges w url ranges outputFile s).2.
Proof.
  intros Hapart Hrun Hsend. unfold downloadRanges.
  change (preallocate (rescheduled w run send) ranges outputFile s)
    with (preallocate w ranges outputFile s).
  destruct (preallocate w ranges outputFile s) as [s1 [e|]].
  - split; [reflexivity | left; reflexivity].
  - rewrite !fetch_all_unfold. cbv zeta. cbn [fst snd].
    change (run_task (rescheduled w run send)) with (run_task w).
    change (run_order (rescheduled w run send)) with run.
    change (send_order (rescheduled w run send)) with send.
    destruct (run_tasks_permutation w ranges outputFile Hapart run (run_order w)
                Hrun (s1, ∅) (s1, ∅) (conj eq_refl eq_refl)) as [Hf Ho].
    split; [exact Hf|]. rewrite Ho. apply report_permutation.
    rewrite Hsend. reflexivity.
Qed.

Lemma one_refused_apart : all_writes_apart one_refused three_ranges.
Proof.
  intros i r resp Hi Hdo j rj respj Hne Hj Hdoj.
  destruct i as [|[|[|i]]]; simpl in Hi, Hdo; try discriminate;
    injection Hi as <-; injection Hdo as <-;
    destruct j as [|[|[|j]]]; simpl in Hj, Hdoj; try discriminate;
    try congruence;
    injection Hj as <-; injection Hdoj as <-; simpl; lia.
Defined.

Lemma schedule_does_not_matter_witness :
  all_writes_apart one_refused three_ranges
  /\ in_plan_order ≡ₚ run_order one_refused
  /\ in_plan_order ≡ₚ send_order one_refused
  /\ files (downloadRanges (rescheduled one_refused in_plan_order in_plan_order)
              "https://host/gfs" three_ranges "out.grib2" no_files).1
     = files (downloadRanges one_refused "https://host/gfs" three_ranges
                "out.grib2" no_files).1
  /\ same_report
       (downloadRanges (rescheduled one_refused in_plan_order in_plan_order)
          "https://host/gfs" three_ranges "out.grib2" no_files).2
       (downloadRanges one_refused "https://host/gfs" three_ranges
          "out.grib2" no_files).2.
Proof.
  assert (H2 : in_plan_order ≡ₚ run_order one_refused)
    by (unfold in_plan_order; simpl; solve_Permutation).
  assert (H3 : in_plan_order ≡ₚ send_order one_refused)
    by (unfold in_plan_order; simpl; solve_Permutation).
  split; [exact one_refused_apart | split; [exact H2 | split; [exact H3|]]].
  exact (schedule_does_not_matter one_refused "https://host/gfs" three_ranges
           "out.grib2" no_files in_plan_order in_plan_order
           one_refused_apart H2 H3).
Defined.

(** ** main: further properties *)

Section Suffix.

Lemma length_append s t :
  String.length (String.append s t) = (String.length s + String.length t)%nat.
Proof. induction s as [|c s IH]; simpl; [reflexivity | rewrite IH; reflexivity]. Qed.

Lemma substring_head s t :
  String.substring 0 (String.length s) (String.append s t) = s.
Proof.
  induction s as [|c s IH]; simpl; [destruct t; reflexivity|].
  rewrite IH. reflexivity.
Qed.

Lemma substring_tail s t :
  String.substring (String.length s) (String.length t) (String.append s t) = t.
Proof. induction s as [|c s IH]; simpl; [apply substring_all | exact IH]. Qed.

Lemma substring_split s : forall m,
  (m <= String.length s)%nat ->
  s = String.append (String.substring 0 m s)
        (String.substring m (String.length s - m) s).
Proof.
  induction s as [|c s IH]; intros m Hm.
  - simpl in Hm. assert (m = 0%nat) as -> by lia. reflexivity.
  - destruct m as [|m]; simpl.
    + rewrite substring_all. reflexivity.
    + change (String c s
              = String c (String.append (String.substring 0 m s)
                            (String.substring m (String.length s - m) s))).
      f_equal. apply IH. simpl in Hm. lia.
Qed.

(** [TrimSuffix] takes off a suffix that is there and leaves any other
    string as it is. *)
Lemma TrimSuffix_append t suf : TrimSuffix (String.append t suf) suf = t.
Proof.
  unfold TrimSuffix. rewrite length_append.
  replace (String.length t + String.length suf - String.length suf)%nat
    with (String.length t) by lia.
  rewrite substring_tail, String.eqb_refl, substring_head.
  destruct (Nat.leb_spec (String.length suf) (String.length t + String.length suf));
    [reflexivity | lia].
Qed.

Lemma TrimSuffix_absent s suf :
  (forall t, s <> String.append t suf) -> TrimSuffix s suf = s.
Proof.
  intros Hno. unfold TrimSuffix.
  destruct (Nat.leb_spec (String.length suf) (String.length s)) as [Hle|Hgt];
    [|reflexivity].
  destruct (String.eqb_spec
              (String.substring (String.length s - String.length suf)
                 (String.length suf) s) suf) as [Heq|Hne]; [|reflexivity].
  exfalso. apply (Hno (String.substring 0 (String.length s - String.length suf) s)).
  rewrite <- Heq at 2.
  pose proof (substring_split s (String.length s - String.length suf) ltac:(lia))
    as Hsplit.
  replace (String.length s - (String.length s - String.length suf))%nat
    with (String.length suf) in Hsplit by lia.
  exact Hsplit.
Qed.

End Suffix.

Lemma downloadFile_frame env url localPath s :
  log (downloadFile env url localPath s).1 = log s
  /\ forall path, path <> localPath ->
       files (downloadFile env url localPath s).1 !! path = files s !! path.
Proof.
  unfold downloadFile. destruct (get_result env) as [e|resp]; [auto|].
  destruct (negb _); [auto|].
  destruct (file_create_err env); [auto|].
  destruct (file_copy_err env) as [[n e]|]; simpl;
    (split; [reflexivity|]); intros path Hne; apply lookup_insert_ne; congruence.
Qed.

(** How a run of [main] ends: before the transfer, with the log as it was
    and no file but the index changed, or after a call of
    [downloadRanges] on the plan of the parsed index. *)
Lemma main_cases env config s :
  match (main env config s).2 with
  | IdxDownloadError _ | IdxParseError _ =>
      log (main env config s).1 = log s
      /\ forall path, path <> base_name env ->
           files (main env config s).1 !! path = files s !! path
  | GenerateError _ => False
  | DownloadError ranges total _ | Completed ranges total =>
      exists parameters evs,
        parseIDXFile (idx_open env) (base_name env) = (parameters, None)
        /\ ranges = (generateRanges parameters (Parameters config)).1
        /\ total = totalSize ranges
        /\ log (main env config s).1
           = log s ++ EvCreate (TrimSuffix (base_name env) ".idx") :: evs
  end.
Proof.
  unfold main.
  pose proof (downloadFile_frame (idx_get env) (IdxURL config) (base_name env) s)
    as [Hlog Hframe].
  destruct (downloadFile (idx_get env) (IdxURL config) (base_name env) s)
    as [s0 [e|]]; simpl in *; [split; assumption|].
  destruct (parseIDXFile (idx_open env) (base_name env)) as [parameters [e|]];
    simpl; [split; assumption|].
  set (dest := TrimSuffix (base_name env) ".idx").
  set (ranges := merge (provisional parameters (Parameters config))).
  assert (Hev : exists evs,
            log (downloadRanges (world env)
                   (TrimSuffix (IdxURL config) ".idx") ranges dest s0).1
            = log s ++ EvCreate dest :: evs).
  { rewrite downloadRanges_unfold.
    assert (Hpre : exists evs0,
              log (preallocate (world env) ranges dest s0).1
              = log s ++ EvCreate dest :: evs0).
    { unfold preallocate. destruct (create_err (world env)).
      - exists []. simpl. rewrite Hlog. reflexivity.
      - eexists [_].
        destruct (if Int64.add (maxEnd ranges) 1 <? 0 then _
                  else truncate_err (world env));
          unfold emit, set_file; simpl; rewrite Hlog, <- app_assoc; reflexivity. }
    destruct Hpre as (evs0 & Hpre).
    destruct (preallocate (world env) ranges dest s0).2; [eauto|].
    destruct (run_tasks_log (world env) ranges dest (run_order (world env))
                ((preallocate (world env) ranges dest s0).1, ∅))
      as (evs & Hlog' & _).
    simpl in Hlog'. rewrite Hlog', Hpre, <- app_assoc. simpl. eauto. }
  destruct Hev as (evs & Hev).
  destruct (downloadRanges (world env) (TrimSuffix (IdxURL config) ".idx")
              ranges dest s0) as [s2 [e|]]; simpl in *;
    exists parameters, evs; auto.
Qed.

(** X16.  When the download or the parsing of the index fails, main makes
    none of the calls of the transfer and changes no file but the index
    file; and main never ends on an error of generateRanges. *)
Theorem main_stops_before_transfer env config s :
  ~ reached_transfer (main env config s).2 ->
  log (main env config s).1 = log s
  /\ (forall path, path <> base_name env ->
        files (main env config s).1 !! path = files s !! path)
  /\ forall e, (main env config s).2 <> GenerateError e.
Proof.
  intros Hnot. pose proof (main_cases env config s) as Hc.
  destruct (main env config s).2; simpl in *; try tauto;
    destruct Hc as [Hlog Hframe]; repeat split; try assumption; discriminate.
Qed.

Lemma main_stops_before_transfer_witness :
  ~ reached_transfer (main offline_env sample_config other_file).2
  /\ log (main offline_env sample_config other_file).1 = log other_file
  /\ (forall path, path <> base_name offline_env ->
        files (main offline_env sample_config other_file).1 !! path
        = files other_file !! path)
  /\ forall e, (main offline_env sample_config other_file).2 <> GenerateError e.
Proof.
  assert (H : ~ reached_transfer (main offline_env sample_config other_file).2).
  { vm_compute. intros []. }
  split; [exact H|].
  exact (main_stops_before_transfer offline_env sample_config other_file H).
Defined.

(** X17.  When the name of the index is [t.idx], a run of main that gets
    as far as the transfer begins it by creating the destination [t]. *)
Theorem main_destination_drops_idx env config s t :
  base_name env = String.append t ".idx" ->
  reached_transfer (main env config s).2 ->
  exists evs, log (main env config s).1 = log s ++ EvCreate t :: evs.
Proof.
  intros Hname Hreached. pose proof (main_cases env config s) as Hc.
  rewrite Hname, TrimSuffix_append in Hc.
  destruct (main env config s).2; simpl in Hreached; try contradiction;
    destruct Hc as (parameters & evs & _ & _ & _ & Hlog); eauto.
Qed.

Lemma main_destination_drops_idx_witness :
  base_name sample_env = String.append "gfs.t00z.pgrb2.0p25.f000" ".idx"
  /\ reached_transfer (main sample_env sample_config no_files).2
  /\ exists evs,
       log (main sample_env sample_config no_files).1
       = log no_files ++ EvCreate "gfs.t00z.pgrb2.0p25.f000" :: evs.
Proof.
  assert (H2 : reached_transfer (main sample_env sample_config no_files).2)
    by (vm_compute; exact I).
  split; [reflexivity | split; [exact H2|]].
  exact (main_destination_drops_idx sample_env sample_config no_files
           "gfs.t00z.pgrb2.0p25.f000" eq_refl H2).
Defined.

(** X18.  When the name of the index does not end in [.idx], the
    destination is the index file itself: a run of main that gets as far
    as the transfer begins it by creating, and so truncating, the file it
    has just saved the index to. *)
Theorem main_overwrites_unsuffixed_index env config s :
  (forall t, base_name env <> String.append t ".idx") ->
  reached_transfer (main env config s).2 ->
  exists evs,
    log (main env config s).1 = log s ++ EvCreate (base_name env) :: evs.
Proof.
  intros Hname Hreached. pose proof (main_cases env config s) as Hc.
  rewrite (TrimSuffix_absent _ _ Hname) in Hc.
  destruct (main env config s).2; simpl in Hreached; try contradiction;
    destruct Hc as (parameters & evs & _ & _ & _ & Hlog); eauto.
Qed.

Lemma main_overwrites_unsuffixed_index_witness :
  (forall t, base_name bare_env <> String.append t ".idx")
  /\ reached_transfer (main bare_env sample_config no_files).2
  /\ exists evs,
       log (main bare_env sample_config no_files).1
       = log no_files ++ EvCreate (base_name bare_env) :: evs.
Proof.
  assert (H1 : forall t, base_name bare_env <> String.append t ".idx").
  { intros t Heq.
    assert (Hlen : String.length t = 5%nat).
    { apply (f_equal String.length) in Heq.
      rewrite length_append in Heq. simpl in Heq. lia. }
    destruct t as [|c1 [|c2 [|c3 [|c4 [|c5 [|c6 t]]]]]];
      simpl in Hlen; try lia.
    vm_compute in Heq. congruence. }
  assert (H2 : reached_transfer (main bare_env sample_config no_files).2)
    by (vm_compute; exact I).
  split; [exact H1 | split; [exact H2|]].
  exact (main_overwrites_unsuffixed_index bare_env sample_config no_files H1 H2).
Defined.

(** X19.  downloadFile touches no file but the local path; when the
    request fails or the status is not 200 it changes no file and returns
    an error; and when it returns nil the local file holds exactly the body
    of the response. *)
Theorem downloadFile_saves_the_body env url localPath s :
  (forall path, path <> localPath ->
     files (downloadFile env url localPath s).1 !! path = files s !! path)
  /\ ((forall resp, get_result env = inr resp -> StatusCode resp <> 200) ->
      files (downloadFile env url localPath s).1 = files s
      /\ (downloadFile env url localPath s).2 <> None)
  /\ ((downloadFile env url localPath s).2 = None ->
      exists resp, get_result env = inr resp /\ StatusCode resp = 200
        /\ files (downloadFile env url localPath s).1 !! localPath
           = Some (Body resp)).
Proof.
  split; [apply downloadFile_frame|]. unfold downloadFile.
  destruct (get_result env) as [e|resp].
  { split; [intros _; split; [reflexivity | discriminate] | discriminate]. }
  destruct (Z.eqb_spec (StatusCode resp) StatusOK) as [Hok|Hbad]; simpl.
  - split; [intros Hno; exfalso; apply (Hno resp eq_refl Hok)|].
    destruct (file_create_err env); [discriminate|].
    destruct (file_copy_err env) as [[n e]|]; [discriminate|].
    intros _. exists resp. simpl. rewrite lookup_insert_eq. auto.
  - split; [intros _; split; [reflexivity | discriminate] | discriminate].
Qed.

(** ** A run of main that completes *)

Section Completed.

Context (w : World) (ranges : list RangeDownload) (outputFile : string).

Lemma downloadRange_nil_status env r s :
  (downloadRange env r outputFile s).2 = None ->
  exists resp, do_result env = inr resp /\ StatusCode resp = 206.
Proof.
  unfold downloadRange. destruct (new_request_err env); [discriminate|].
  destruct (do_result env) as [e|resp]; [discriminate|].
  destruct (Z.eqb_spec (StatusCode resp) StatusPartialContent) as [Hok|Hbad];
    simpl; [|discriminate].
  intros _. exists resp. auto.
Qed.

(** An outcome is what some run of the goroutine's [downloadRange]
    returned. *)
Lemma run_tasks_outcome_origin order i r o : forall st,
  ranges !! i = Some r ->
  (fold_left (run_task w ranges outputFile) order st).2 !! i = Some o ->
  st.2 !! i = Some o
  \/ exists s', o = (downloadRange (fetch_env w i) r outputFile s').2.
Proof.
  induction order as [|j order IH]; intros st Hi Ho; simpl in Ho; [left; exact Ho|].
  destruct (IH _ Hi Ho) as [Hst|Hrun]; [|right; exact Hrun].
  destruct (ranges !! j) as [rj|] eqn:Hj;
    [|rewrite (run_task_out w ranges outputFile st j Hj) in Hst; left; exact Hst].
  rewrite (run_task_in w ranges outputFile st j rj Hj) in Hst. simpl in Hst.
  destruct (decide (i = j)) as [->|Hne].
  - rewrite lookup_insert_eq in Hst. injection Hst as <-.
    rewrite Hi in Hj. injection Hj as <-. right. eauto.
  - rewrite lookup_insert_ne in Hst by congruence. left. exact Hst.
Qed.

(** A nil result means that the goroutine of every range returned nil. *)
Lemma fetch_all_nil s1 i r :
  run_order w ≡ₚ seq 0 (length ranges) ->
  send_order w ≡ₚ seq 0 (length ranges) ->
  (fetch_all w ranges outputFile s1).2 = None ->
  ranges !! i = Some r ->
  (fetch_all w ranges outputFile s1).1.2 !! i = Some None.
Proof.
  intros Hrun Hsend. rewrite fetch_all_unfold. cbv zeta. cbn [fst snd].
  set (st := fold_left (run_task w ranges outputFile) (run_order w) (s1, ∅)).
  intros Hnil Hi. apply report_nil in Hnil.
  pose proof (lookup_lt_Some _ _ _ Hi) as Hlt.
  assert (Hdone : is_Some (st.2 !! i)).
  { unfold st. apply run_tasks_outcomes. right.
    rewrite Hrun, elem_of_seq. lia. }
  destruct Hdone as [[e|] Ho]; [exfalso|exact Ho].
  assert (Hin : ERange (Start r) (End_ r) e
                ∈ omap (sent ranges st.2) (send_order w)).
  { apply list_elem_of_omap. exists i. split.
    - rewrite Hsend, elem_of_seq. lia.
    - unfold sent. rewrite Hi, Ho. reflexivity. }
  rewrite Hnil in Hin. inversion Hin.
Qed.

End Completed.

(** X20.  When every goroutine is scheduled and no two of them may write
    the same byte, a run of main that reports completion has, for every
    range of its plan, received a response of status 206 and holds the
    whole body of that response in the destination file from the start of
    the range on. *)
Theorem completion_means_every_range_is_in_the_file
    env config s s' ranges total i r :
  run_order (world env) ≡ₚ seq 0 (length ranges) ->
  send_order (world env) ≡ₚ seq 0 (length ranges) ->
  all_writes_apart (world env) ranges ->
  main env config s = (s', Completed ranges total) ->
  ranges !! i = Some r ->
  exists resp content,
    do_result (fetch_env (world env) i) = inr resp
    /\ StatusCode resp = 206
    /\ files s' !! TrimSuffix (base_name env) ".idx" = Some content
    /\ holds_at content (Z.to_nat (Start r)) (Body resp).
Proof.
  intros Hrun Hsend Hapart Hmain Hi. unfold main in Hmain.
  destruct (downloadFile _ _ _ s) as [s0 [e|]]; [discriminate|].
  destruct (parseIDXFile _ _) as [parameters [e|]]; [discriminate|].
  simpl in Hmain.
  set (dest := TrimSuffix (base_name env) ".idx") in *.
  set (plan := merge (provisional parameters (Parameters config))) in *.
  destruct (downloadRanges (world env) _ plan dest s0) as [s2 [e|]] eqn:Hdl;
    [discriminate|].
  injection Hmain as <- <- _.
  unfold downloadRanges in Hdl.
  destruct (preallocate (world env) plan dest s0) as [s1 [e|]]; [discriminate|].
  pose proof (fetch_all_nil (world env) plan dest s1 i r Hrun Hsend) as Hnil.
  pose proof (fetch_all_unfold (world env) plan dest s1) as Hunf.
  destruct (fetch_all (world env) plan dest s1) as [[s3 outcomes] result].
  injection Hdl as <- ->. simpl in Hnil. specialize (Hnil eq_refl Hi).
  cbv zeta in Hunf. injection Hunf as Hs3 Hout _.
  rewrite Hout in Hnil.
  destruct (run_tasks_outcome_origin (world env) plan dest _ i r None (s1, ∅)
              Hi Hnil) as [Hinit|(sx & Hsx)].
  { simpl in Hinit. rewrite lookup_empty in Hinit. discriminate. }
  destruct (downloadRange_nil_status dest _ r sx (eq_sym Hsx)) as (resp & Hdo & Hok).
  destruct (run_tasks_written (world env) plan dest i r resp
              (run_order (world env)) Hi Hdo (Hapart i r resp Hi Hdo) (s1, ∅))
    as (_ & content & Hfile & Hholds).
  - simpl. rewrite lookup_empty. discriminate.
  - exact Hnil.
  - exists resp, content. rewrite Hs3. auto.
Qed.

Lemma completion_means_every_range_is_in_the_file_witness :
  let s' := (main one_answer_env all_levels_of_TMP no_files).1 in
  run_order (world one_answer_env) ≡ₚ seq 0 (length [mkRange 0 299])
  /\ send_order (world one_answer_env) ≡ₚ seq 0 (length [mkRange 0 299])
  /\ all_writes_apart (world one_answer_env) [mkRange 0 299]
  /\ main one_answer_env all_levels_of_TMP no_files
     = (s', Completed [mkRange 0 299] 300)
  /\ [mkRange 0 299] !! 0%nat = Some (mkRange 0 299)
  /\ exists resp content,
       do_result (fetch_env (world one_answer_env) 0) = inr resp
       /\ StatusCode resp = 206
       /\ files s' !! TrimSuffix (base_name one_answer_env) ".idx" = Some content
       /\ holds_at content (Z.to_nat (Start (mkRange 0 299))) (Body resp).
Proof.
  intros s'.
  assert (H1 : run_order (world one_answer_env) ≡ₚ seq 0 (length [mkRange 0 299]))
    by reflexivity.
  assert (H2 : send_order (world one_answer_env) ≡ₚ seq 0 (length [mkRange 0 299]))
    by reflexivity.
  assert (H3 : all_writes_apart (world one_answer_env) [mkRange 0 299]).
  { intros i r resp Hi _ j rj respj Hne Hj _.
    destruct i as [|i]; [|discriminate]. destruct j as [|j]; [|discriminate].
    congruence. }
  assert (H4 : main one_answer_env all_levels_of_TMP no_files
               = (s', Completed [mkRange 0 299] 300))
    by (vm_compute; reflexivity).
  split; [exact H1 | split; [exact H2 | split; [exact H3|]]].
  split; [exact H4 | split; [reflexivity|]].
  exact (completion_means_every_range_is_in_the_file one_answer_env
           all_levels_of_TMP no_files s' [mkRange 0 299] 300 0 (mkRange 0 299)
           H1 H2 H3 H4 eq_refl).
Defined.

(** X21.  A plan with a range that ends at the largest int64 cannot be
    transferred: maxEnd + 1 comes back negative, the truncation is
    refused, and downloadRanges returns an error with the destination
    created empty and no request made. *)
Theorem largest_end_is_refused w url ranges outputFile s r :
  Forall (fun r => Int64.in_range (End_ r)) ranges ->
  r ∈ ranges ->
  End_ r = Int64.max_int ->
  create_err w = None ->
  downloadRanges w url ranges outputFile s
  = ({| files := <[ outputFile := [] ]> (files s);
        log := log s ++ [EvCreate outputFile;
                         EvTruncate outputFile Int64.min_int] |},
     Some (EWrap "error pre-allocating file" (EOs "invalid argument"))).
Proof.
  intros Hends Hr Htop Hcreate.
  destruct (maxEnd_loop ranges 0) as (_ & Hall & Hin).
  fold (maxEnd ranges) in *.
  assert (Hmax : maxEnd ranges = Int64.max_int).
  { specialize (Hall r Hr). rewrite Forall_forall in Hends.
    destruct Hin as [H0|(r' & Hr' & Heq)].
    - rewrite H0, Htop in Hall. vm_compute in Hall. exfalso. apply Hall. reflexivity.
    - pose proof (Hends r' Hr') as Hle. simpl in Hle.
      unfold Int64.in_range in Hle. lia. }
  unfold downloadRanges, preallocate. rewrite Hcreate, Hmax.
  change (Int64.add Int64.max_int 1) with Int64.min_int.
  change (Int64.min_int <? 0) with true. cbv iota.
  unfold emit, set_file. simpl. rewrite <- app_assoc. reflexivity.
Qed.

Lemma largest_end_is_refused_witness :
  Forall (fun r => Int64.in_range (End_ r)) top_range
  /\ mkRange 0 9223372036854775807 ∈ top_range
  /\ End_ (mkRange 0 9223372036854775807) = Int64.max_int
  /\ create_err quiet = None
  /\ (downloadRanges quiet "https://host/gfs" top_range "out.grib2" no_files).2
     = Some (EWrap "error pre-allocating file" (EOs "invalid argument")).
Proof.
  assert (H1 : Forall (fun r => Int64.in_range (End_ r)) top_range).
  { unfold top_range. repeat (constructor; [simpl; int64_consts; lia|]). constructor. }
  assert (H2 : mkRange 0 9223372036854775807 ∈ top_range) by left.
  split; [exact H1 | split; [exact H2 | split; [reflexivity | split; [reflexivity|]]]].
  rewrite (largest_end_is_refused quiet "https://host/gfs" top_range "out.grib2"
             no_files (mkRange 0 9223372036854775807) H1 H2 eq_refl eq_refl).
  reflexivity.
Defined.
